(** * snmp_cache: the MIB-resolution and caching engine of [SnmpCache]

    A shallow embedding of [snmp_cache/cache.py], [snmp_cache/helpers.py]
    and [snmp_cache/creds.py].

    - Python values are a universal type [pyval]; a dict is an association
      list in insertion order with string keys (every dict of the program is
      either loaded from JSON or keyed by names taken from such a dict).
    - A [str] is kept as its UTF-8 bytes.  Index strings and schema names are
      compared with ASCII constants only, so [str.lower] is the ASCII one and
      [int] reads ASCII literals: a literal with any other character is
      refused here, so what is concluded from a refusal, or counted in
      characters, is stated for ASCII text.
    - Exceptions are the [Raise] results of [result]; the logger and the SNMP
      client are the event trace of the monad [M].  Debug and info records
      are left out of the trace: they cannot fail and carry no state.
    - [time()] is an exact rational number of seconds, and
      [datetime.fromtimestamp] is the platform's local time, a parameter.
    - A client holds its credential, and a live query starts by evaluating
      the credential's [creds] property; the client objects of puresnmp are
      taken to be built without error.
    - The private cache [self._cache] is a two-level [gmap]. *)

From Stdlib Require Import ZArith QArith Qround Lqa List String Ascii Bool Lia.
From Stdlib Require Import HexString DecimalString.
From stdpp Require Import base gmap strings.
Import ListNotations.

Set Warnings "-register-all".

Local Open Scope string_scope.
Local Open Scope Z_scope.

(** ** Values *)

Definition ipv4 : Type := (Byte.byte * Byte.byte * Byte.byte * Byte.byte)%type.

Inductive pyval : Type :=
| PNone
| PBool (b : bool)
| PInt (z : Z)
| PFloat (q : Q)
| PStr (s : string)
| PBytes (bs : list Byte.byte)
| PDuration (us : Z)
| PAddr (a : ipv4)
| PList (l : list pyval)
| PDict (d : list (string * pyval)).

Definition pdict : Type := list (string * pyval).

(** What the SNMP client hands back for one cell of a table. *)
Inductive rawval : Type :=
| RNone
| RInt (z : Z)
| RStr (s : string)
| RBytes (bs : list Byte.byte)
| RDuration (us : Z)
| RAddr (a : ipv4).

Definition of_raw (v : rawval) : pyval :=
  match v with
  | RNone => PNone
  | RInt z => PInt z
  | RStr s => PStr s
  | RBytes bs => PBytes bs
  | RDuration us => PDuration us
  | RAddr a => PAddr a
  end.

Definition raw_row : Type := list (string * rawval).

(** ** Exceptions and effects *)

Inductive value_error : Type :=
| MibNotLoaded
| ObjectNotInMib
| RowsMismatch
| InvalidLiteral
| DigitLimit
| UnicodeDecode.

Inductive exn : Type :=
| AttributeError
| KeyError
| TypeError
| ValueError (why : value_error)
| NameError
| TransportError.

Inductive result (A : Type) : Type :=
| Ok (a : A)
| Raise (e : exn).
Arguments Ok {A} a.
Arguments Raise {A} e.

Inductive event : Type :=
| Polled (oid : pyval)
| WarnUnknownOid (key : string)
| WarnDecode (value : rawval) (e : exn)
| ErrIndex (value : rawval) (field : pyval) (spec : pyval) (e : exn).

Definition M (A : Type) : Type := (list event * result A)%type.

Definition ret {A} (a : A) : M A := ([], Ok a).
Definition raise {A} (e : exn) : M A := ([], Raise e).
Definition tell (ev : event) : M unit := ([ev], Ok tt).
Definition lift {A} (r : result A) : M A := ([], r).

Definition bind {A B} (m : M A) (f : A -> M B) : M B :=
  match m with
  | (l, Ok a) => let (l', r) := f a in ((l ++ l')%list, r)
  | (l, Raise e) => (l, Raise e)
  end.

(** [try: m except Exception as e: h e] *)
Definition try_except {A} (m : M A) (h : exn -> M A) : M A :=
  match m with
  | (l, Raise e) => let (l', r) := h e in ((l ++ l')%list, r)
  | ok => ok
  end.

Declare Scope py_scope.
Delimit Scope py_scope with py.
Notation "'do' x <- m ; k" := (bind m (fun x => k))
  (at level 10, x name, m at level 100, k at level 200) : py_scope.
Notation "'do' ' p <- m ; k" := (bind m (fun x => match x with p => k end))
  (at level 10, p pattern, m at level 100, k at level 200) : py_scope.
Notation "'run' m ; k" := (bind m (fun _ => k))
  (at level 10, m at level 100, k at level 200) : py_scope.
Local Open Scope py_scope.

Definition rbind {A B} (r : result A) (f : A -> result B) : result B :=
  match r with
  | Ok a => f a
  | Raise e => Raise e
  end.
Notation "'get' x <- r ; k" := (rbind r (fun x => k))
  (at level 10, x name, r at level 100, k at level 200) : py_scope.

(** ** Dicts in insertion order *)

Fixpoint dict_get {A} (k : string) (d : list (string * A)) : option A :=
  match d with
  | [] => None
  | (k', v) :: d' => if String.eqb k k' then Some v else dict_get k d'
  end.

Definition dict_has {A} (k : string) (d : list (string * A)) : bool :=
  match dict_get k d with Some _ => true | None => false end.

(** [d[k] = v]: an existing key keeps its place, a new one goes last. *)
Fixpoint dict_set {A} (k : string) (v : A) (d : list (string * A)) : list (string * A) :=
  match d with
  | [] => [(k, v)]
  | (k', v') :: d' =>
      if String.eqb k k' then (k', v) :: d' else (k', v') :: dict_set k v d'
  end.

Definition keys {A} (d : list (string * A)) : list string := map fst d.

(** ** Strings *)

Definition lower_ascii (c : ascii) : ascii :=
  let n := nat_of_ascii c in
  if ((65 <=? n) && (n <=? 90))%nat then ascii_of_nat (n + 32) else c.

Fixpoint str_lower (s : string) : string :=
  match s with
  | EmptyString => EmptyString
  | String c s' => String (lower_ascii c) (str_lower s')
  end.

(** [s.split(sep)] for a one-character separator. *)
Fixpoint split_on (sep : ascii) (s : string) : list string :=
  match s with
  | EmptyString => [EmptyString]
  | String c s' =>
      if Ascii.eqb c sep then EmptyString :: split_on sep s'
      else match split_on sep s' with
           | [] => [String c EmptyString]
           | w :: ws => String c w :: ws
           end
  end.

(** [sep.join(parts)] *)
Fixpoint join (sep : string) (parts : list string) : string :=
  match parts with
  | [] => EmptyString
  | [p] => p
  | p :: ps => p ++ sep ++ join sep ps
  end.

(** [needle in hay] on two strings. *)
Fixpoint is_substring (needle hay : string) : bool :=
  String.prefix needle hay ||
  match hay with
  | EmptyString => false
  | String _ hay' => is_substring needle hay'
  end.

(** [lst[lo:lo+n]] *)
Definition slice {A} (lo n : nat) (l : list A) : list A := firstn n (skipn lo l).

Definition str_of_Z (z : Z) : string := NilZero.string_of_int (Z.to_int z).

Definition chars (s : string) : list string :=
  map (fun c => String c EmptyString) (list_ascii_of_string s).

(** ** Python operators on values *)

Definition num_of (v : pyval) : option Q :=
  match v with
  | PBool b => Some (inject_Z (if b then 1 else 0))
  | PInt z => Some (inject_Z z)
  | PFloat q => Some q
  | _ => None
  end.

Definition ipv4_eqb (a b : ipv4) : bool :=
  let '(a1, a2, a3, a4) := a in
  let '(b1, b2, b3, b4) := b in
  Byte.eqb a1 b1 && Byte.eqb a2 b2 && Byte.eqb a3 b3 && Byte.eqb a4 b4.

Fixpoint bytes_eqb (a b : list Byte.byte) : bool :=
  match a, b with
  | [], [] => true
  | x :: a', y :: b' => Byte.eqb x y && bytes_eqb a' b'
  | _, _ => false
  end.

(** [a == b]: numbers compare by value ([True == 1]), lists pointwise, dicts
    key by key whatever the order, everything else by type and content. *)
Fixpoint py_eq (a b : pyval) {struct a} : bool :=
  match a, b with
  | PNone, PNone => true
  | PStr s, PStr t => String.eqb s t
  | PBytes x, PBytes y => bytes_eqb x y
  | PDuration x, PDuration y => Z.eqb x y
  | PAddr x, PAddr y => ipv4_eqb x y
  | PList l, PList m =>
      (fix go (l m : list pyval) {struct l} : bool :=
         match l, m with
         | [], [] => true
         | x :: l', y :: m' => py_eq x y && go l' m'
         | _, _ => false
         end) l m
  | PDict d, PDict e =>
      Nat.eqb (length d) (length e) &&
      (fix go (d : list (string * pyval)) : bool :=
         match d with
         | [] => true
         | (k, v) :: d' =>
             match dict_get k e with
             | Some w => py_eq v w
             | None => false
             end && go d'
         end) d
  | _, _ =>
      match num_of a, num_of b with
      | Some x, Some y => Qeq_bool x y
      | _, _ => false
      end
  end.

(** [isinstance(v, dict)] *)
Definition is_dict (v : pyval) : bool :=
  match v with PDict _ => true | _ => false end.

(** [v.get(k, dflt)] with a string key. *)
Definition py_get (v : pyval) (k : string) (dflt : pyval) : result pyval :=
  match v with
  | PDict d => Ok (match dict_get k d with Some x => x | None => dflt end)
  | _ => Raise AttributeError
  end.

(** [v.get(k, dflt)] with a computed key: lists and dicts are unhashable,
    and no other value equals a string key. *)
Definition py_get_val (v : pyval) (k : pyval) (dflt : pyval) : result pyval :=
  match v with
  | PDict d =>
      match k with
      | PStr s => Ok (match dict_get s d with Some x => x | None => dflt end)
      | PList _ | PDict _ => Raise TypeError
      | _ => Ok dflt
      end
  | _ => Raise AttributeError
  end.

(** The bound method [v.get], looked up before its arguments are
    evaluated. *)
Definition py_get_method (v : pyval) : result unit :=
  match v with
  | PDict _ => Ok tt
  | _ => Raise AttributeError
  end.

(** [v[k]] with a string key. *)
Definition py_item (v : pyval) (k : string) : result pyval :=
  match v with
  | PDict d => match dict_get k d with Some x => Ok x | None => Raise KeyError end
  | _ => Raise TypeError
  end.

(** [v[k]] with a computed key. *)
Definition py_item_val (v : pyval) (k : pyval) : result pyval :=
  match v with
  | PDict d =>
      match k with
      | PStr s => match dict_get s d with Some x => Ok x | None => Raise KeyError end
      | PList _ | PDict _ => Raise TypeError
      | _ => Raise KeyError
      end
  | _ => Raise TypeError
  end.

Fixpoint bytes_prefix (a b : list Byte.byte) : bool :=
  match a, b with
  | [], _ => true
  | x :: a', y :: b' => Byte.eqb x y && bytes_prefix a' b'
  | _, _ => false
  end.

Fixpoint bytes_infix (needle hay : list Byte.byte) : bool :=
  bytes_prefix needle hay ||
  match hay with
  | [] => false
  | _ :: hay' => bytes_infix needle hay'
  end.

(** [x in c] *)
Definition py_in (x c : pyval) : result bool :=
  match c with
  | PList l => Ok (existsb (fun y => py_eq x y) l)
  | PDict d =>
      match x with
      | PStr s => Ok (dict_has s d)
      | PList _ | PDict _ => Raise TypeError
      | _ => Ok false
      end
  | PStr hay =>
      match x with
      | PStr needle => Ok (is_substring needle hay)
      | _ => Raise TypeError
      end
  | PBytes bs =>
      match x with
      | PInt z =>
          if (0 <=? z) && (z <? 256)
          then Ok (existsb (fun b => Z.eqb z (Z.of_N (Byte.to_N b))) bs)
          else Raise (ValueError InvalidLiteral)
      | PBool b => Ok (existsb (fun y => Z.eqb (if b then 1 else 0) (Z.of_N (Byte.to_N y))) bs)
      | PBytes needle => Ok (bytes_infix needle bs)
      | _ => Raise TypeError
      end
  | _ => Raise TypeError
  end.

(** [v.lower()] *)
Definition py_lower (v : pyval) : result string :=
  match v with
  | PStr s => Ok (str_lower s)
  | _ => Raise AttributeError
  end.

(** [v.items()] *)
Definition py_items (v : pyval) : result pdict :=
  match v with
  | PDict d => Ok d
  | _ => Raise AttributeError
  end.

(** [for x in v] *)
Definition py_iter (v : pyval) : result (list pyval) :=
  match v with
  | PList l => Ok l
  | PDict d => Ok (map PStr (keys d))
  | PStr s => Ok (map PStr (chars s))
  | PBytes bs => Ok (map (fun b => PInt (Z.of_N (Byte.to_N b))) bs)
  | _ => Raise TypeError
  end.

(** [a + '.' + key] where [key] is a string. *)
Definition py_concat_dot (a : pyval) (key : string) : result pyval :=
  match a with
  | PStr s => Ok (PStr (s ++ "." ++ key))
  | _ => Raise TypeError
  end.

(** ** [int(s)], [hex(n)] and [str.zfill] *)

(** What [int] strips from an ASCII literal: tab, line feed, vertical tab,
    form feed, carriage return and space. *)
Definition is_space (c : ascii) : bool :=
  let n := nat_of_ascii c in
  (((9 <=? n) && (n <=? 13)) || (n =? 32))%nat.

Fixpoint lstrip (s : list ascii) : list ascii :=
  match s with
  | c :: s' => if is_space c then lstrip s' else s
  | [] => []
  end.

Definition strip (s : list ascii) : list ascii := rev (lstrip (rev (lstrip s))).

Definition digit_of (c : ascii) : option Z :=
  let n := nat_of_ascii c in
  if ((48 <=? n) && (n <=? 57))%nat then Some (Z.of_nat (n - 48)) else None.

(** Digits with single underscores between them; [after_digit] tells whether
    the previous character was a digit. *)
Fixpoint read_digits (s : list ascii) (acc : Z) (after_digit : bool) : option Z :=
  match s with
  | [] => if after_digit then Some acc else None
  | c :: s' =>
      match digit_of c with
      | Some d => read_digits s' (10 * acc + d) true
      | None =>
          if Ascii.eqb c "_"%char && after_digit
          then match s' with
               | [] => None
               | _ => read_digits s' acc false
               end
          else None
      end
  end.

(** The number of digits [int] reads before it refuses a literal:
    [sys.int_max_str_digits], as the interpreter starts with it. *)
Definition int_max_str_digits : Z := 4300.

Definition count_digits (s : list ascii) : Z :=
  Z.of_nat (length (List.filter (fun c => match digit_of c with
                                          | Some _ => true
                                          | None => false
                                          end) s)).

(** [int(s)] for a decimal literal: surrounding whitespace, one optional
    sign, digits, and no more digits than the limit. *)
Definition int_of_str (s : string) : result Z :=
  let body := strip (list_ascii_of_string s) in
  let r := match body with
           | "-"%char :: ds => option_map Z.opp (read_digits ds 0 false)
           | "+"%char :: ds => read_digits ds 0 false
           | ds => read_digits ds 0 false
           end in
  match r with
  | Some z =>
      if int_max_str_digits <? count_digits body then Raise (ValueError DigitLimit)
      else Ok z
  | None => Raise (ValueError InvalidLiteral)
  end.

(** [hex(n)] *)
Definition py_hex (z : Z) : string := HexString.of_Z z.

(** [s[2:]] *)
Definition drop2 (s : string) : string :=
  match s with
  | String _ (String _ s') => s'
  | _ => EmptyString
  end.

(** [s.zfill(2)] for a string that does not start with a sign. *)
Definition zfill2 (s : string) : string :=
  match s with
  | EmptyString => "00"
  | String c EmptyString => String "0"%char s
  | _ => s
  end.

(** [str(hex(n)[2:]).zfill(2)] *)
Definition hex_octet (z : Z) : string := zfill2 (drop2 (py_hex z)).

(** ** helpers.py *)

Definition byte_val (b : Byte.byte) : Z := Z.of_N (Byte.to_N b).

(** The loop of [mac_decimal_to_hex]. *)
Fixpoint mac_octets (octets : list string) (mac_address : string) : result string :=
  match octets with
  | [] => Ok mac_address
  | octet :: rest =>
      get n <- int_of_str octet;
      mac_octets rest (mac_address ++ hex_octet n)
  end.

Definition mac_decimal_to_hex (mac_str : string) : result string :=
  mac_octets (split_on "." mac_str) "".

(** [mac_binary_to_hex]: [hex] of a one-character string is a [TypeError],
    and only [bytes] and [str] can be iterated. *)
Definition mac_binary_to_hex (mac_bytes : rawval) : result string :=
  match mac_bytes with
  | RBytes bs => Ok (fold_left (fun mac_address b => mac_address ++ hex_octet (byte_val b)) bs "")
  | RStr EmptyString => Ok ""
  | _ => Raise TypeError
  end.

Definition str_of_ipv4 (a : ipv4) : string :=
  let '(a1, a2, a3, a4) := a in
  join "." (map (fun b => str_of_Z (byte_val b)) [a1; a2; a3; a4]).

(** [s[1:]] *)
Definition drop1 (s : string) : string :=
  match s with
  | String _ s' => s'
  | EmptyString => EmptyString
  end.

Definition ip_binary_to_str (ip_bytes : rawval) : result string :=
  match ip_bytes with
  | RAddr a => Ok (str_of_ipv4 a)
  | RBytes bs =>
      Ok (drop1 (fold_left (fun ip_address b => ip_address ++ "." ++ str_of_Z (byte_val b)) bs ""))
  | RStr s =>
      Ok (drop1 (fold_left (fun ip_address c => ip_address ++ "." ++ c) (chars s) ""))
  | _ => Raise TypeError
  end.

(** ** [bytes.decode('utf-8')] and [int.from_bytes(_, 'big')] *)

Definition cont_byte (b : Z) : bool := (128 <=? b) && (b <=? 191).

Fixpoint utf8_valid (bs : list Z) : bool :=
  match bs with
  | [] => true
  | b0 :: r1 =>
      if b0 <=? 127 then utf8_valid r1
      else match r1 with
      | [] => false
      | b1 :: r2 =>
          if (194 <=? b0) && (b0 <=? 223) then cont_byte b1 && utf8_valid r2
          else match r2 with
          | [] => false
          | b2 :: r3 =>
              if (224 <=? b0) && (b0 <=? 239) then
                (if b0 =? 224 then (160 <=? b1) && (b1 <=? 191)
                 else if b0 =? 237 then (128 <=? b1) && (b1 <=? 159)
                 else cont_byte b1)
                && cont_byte b2 && utf8_valid r3
              else match r3 with
              | [] => false
              | b3 :: r4 =>
                  (240 <=? b0) && (b0 <=? 244)
                  && (if b0 =? 240 then (144 <=? b1) && (b1 <=? 191)
                      else if b0 =? 244 then (128 <=? b1) && (b1 <=? 143)
                      else cont_byte b1)
                  && cont_byte b2 && cont_byte b3 && utf8_valid r4
              end
          end
      end
  end.

(** [value.decode('utf-8')]: only [bytes] has the method. *)
Definition py_decode (value : rawval) : result string :=
  match value with
  | RBytes bs =>
      if utf8_valid (map byte_val bs) then Ok (string_of_list_byte bs)
      else Raise (ValueError UnicodeDecode)
  | _ => Raise AttributeError
  end.

Definition int_from_bytes (value : rawval) : result Z :=
  match value with
  | RBytes bs => Ok (fold_left (fun acc b => 256 * acc + byte_val b) bs 0)
  | _ => Raise TypeError
  end.

(** ** The schema-dependent part of [SnmpCache] *)

Definition wrapper (value : pyval) (label : string) : pyval :=
  PDict [("value", value); ("enumeration", PStr label)].

Definition is_none (v : pyval) : bool :=
  match v with PNone => true | _ => false end.

(** *** [__format_snmp_field] *)

(** The loop over [mib_syntax['bits']]. *)
Fixpoint bits_loop (value : rawval) (bits : pdict) : result pyval :=
  match bits with
  | [] => Ok (of_raw value)
  | (x, y) :: rest =>
      get n <- int_from_bytes value;
      if py_eq y (PInt n) then Ok (wrapper (of_raw value) x)
      else bits_loop value rest
  end.

(** The loop over [mib_syntax['constraints']['enumeration']]. *)
Fixpoint enum_loop (return_value : pyval) (enumeration : pdict) : pyval :=
  match enumeration with
  | [] => return_value
  | (key, item) :: rest =>
      if py_eq item return_value then wrapper return_value key
      else enum_loop return_value rest
  end.

(** The outcome of the type dispatch: the [bits] branch returns from the
    function, every other branch goes on to the constraints. *)
Inductive fixup : Type :=
| Returned (v : pyval)
| Resolved (return_value : pyval).

Definition syntax_type (mib_syntax : pyval) : result string :=
  get ty <- py_item mib_syntax "type";
  py_lower ty.

Definition type_fixups (value : rawval) (mib_syntax : pyval) : M fixup :=
  do t <- lift (syntax_type mib_syntax);
  if String.eqb t "macaddress" then
    do s <- lift (mac_binary_to_hex value); ret (Resolved (PStr s))
  else if String.eqb t "inetaddress" || String.eqb t "ipaddress" then
    do s <- lift (ip_binary_to_str value); ret (Resolved (PStr s))
  else if String.eqb t "truthvalue" then
    ret (Resolved (PBool (py_eq (of_raw value) (PInt 1))))
  else if String.eqb t "bits" then
    do bits <- lift (get b <- py_get mib_syntax "bits" (PDict []); py_items b);
    do r <- lift (bits_loop value bits);
    ret (Returned r)
  else
    match value with
    | RInt _ | RDuration _ => ret (Resolved (of_raw value))
    | _ =>
        try_except
          (do s <- lift (py_decode value); ret (Resolved (PStr s)))
          (fun e => run tell (WarnDecode value e); ret (Resolved (of_raw value)))
    end.

Definition check_constraints (mib_syntax : pyval) (return_value : pyval) : result pyval :=
  get c <- py_get mib_syntax "constraints" PNone;
  if is_dict c then
    get has <- py_in (PStr "enumeration") c;
    if has then
      get en <- py_item c "enumeration";
      get items <- py_items en;
      Ok (enum_loop return_value items)
    else Ok return_value
  else Ok return_value.

Definition format_snmp_field (value : rawval) (mib_syntax : pyval) : M pyval :=
  do cls <- lift (py_get mib_syntax "class" PNone);
  do ty <- lift (py_get mib_syntax "type" PNone);
  if is_none cls || is_none ty then ret (of_raw value)
  else
    do lc <- lift (py_lower cls);
    if negb (String.eqb lc "type") then ret (of_raw value)
    else
      do f <- type_fixups value mib_syntax;
      match f with
      | Returned v => ret v
      | Resolved return_value => lift (check_constraints mib_syntax return_value)
      end.

Section Resolver.

(** [self.mibs] *)
Variable mibs : pdict.

(** [self.mibs[mib][name]] *)
Definition mib_object (mib : pyval) (name : pyval) : result pyval :=
  get content <- py_item_val (PDict mibs) mib;
  py_item_val content name.

(** *** [_mib_table_index] *)

Inductive index_kind : Type := IdxMac | IdxInet | IdxInt.

Definition width (k : index_kind) : nat :=
  match k with IdxMac => 6 | IdxInet => 4 | IdxInt => 1 end.

(** [obj['syntax']['class'] == 'type' and obj['syntax']['type'].lower() == name] *)
Definition syntax_is (obj : pyval) (name : string) : result bool :=
  get syn <- py_item obj "syntax";
  get cls <- py_item syn "class";
  if py_eq cls (PStr "type") then
    get ty <- py_item syn "type";
    get l <- py_lower ty;
    Ok (String.eqb l name)
  else Ok false.

(** The [if] / [elif] / [else] on the referenced object. *)
Definition index_kind_of (obj : pyval) : result index_kind :=
  get mac <- syntax_is obj "macaddress";
  if mac then Ok IdxMac
  else
    get inet <- syntax_is obj "inetaddress";
    if inet then Ok IdxInet else Ok IdxInt.

(** [table_index.get('module', None) in self.mibs and
    table_index.get('object') in self.mibs[table_index['module']]] *)
Definition index_resolves (table_index : pyval) : result bool :=
  get m <- py_get table_index "module" PNone;
  get known <- py_in m (PDict mibs);
  if known then
    get o <- py_get table_index "object" PNone;
    get m' <- py_item table_index "module";
    get content <- py_item_val (PDict mibs) m';
    py_in o content
  else Ok false.

(** [value.split('.')] *)
Definition raw_split (value : rawval) : result (list string) :=
  match value with
  | RStr s => Ok (split_on "." s)
  | RBytes _ => Raise TypeError
  | _ => Raise AttributeError
  end.

(** The right-hand side of the assignment in each [try] block. *)
Definition index_field (value : rawval) (k : index_kind) (index_pos : nat) : result pyval :=
  get parts <- raw_split value;
  match k with
  | IdxMac =>
      get s <- mac_decimal_to_hex (join "." (slice index_pos 6 parts));
      Ok (PStr s)
  | IdxInet => Ok (PStr (join "." (slice index_pos 4 parts)))
  | IdxInt =>
      get z <- int_of_str (join "" (slice index_pos 1 parts));
      Ok (PInt z)
  end.

(** [return_value[table_index['object']] = v].  The key is a string
    whenever the referenced module is a dict; a key of another type (a
    module loaded from a JSON array) has no place in a row of this model. *)
Definition assign_field (table_index : pyval) (v : pyval) (return_value : pdict) : result pdict :=
  get o <- py_item table_index "object";
  match o with
  | PStr name => Ok (dict_set name v return_value)
  | _ => Raise TypeError
  end.

(** The index specification as each [except] block formats it: the two
    address branches read [self.mibs[mib][mib_table]['indices']], the
    integer branch reads [self.mibs[mib]['mib_table']['indices']]. *)
Definition logged_spec (k : index_kind) (mib mib_table : string) : result pyval :=
  match k with
  | IdxMac | IdxInet =>
      get t <- mib_object (PStr mib) (PStr mib_table);
      py_item t "indices"
  | IdxInt =>
      get t <- mib_object (PStr mib) (PStr "mib_table");
      py_item t "indices"
  end.

(** The [except] block: format the record, log it, return. *)
Definition log_index_error (k : index_kind) (value : rawval) (table_index : pyval)
    (mib mib_table : string) (e : exn) : M unit :=
  do fld <- lift (py_item table_index "object");
  do spec <- lift (logged_spec k mib mib_table);
  tell (ErrIndex value fld spec e).

Fixpoint index_loop (mib mib_table : string) (value : rawval) (indices : list pyval)
    (return_value : pdict) (index_pos : nat) : M pdict :=
  match indices with
  | [] => ret return_value
  | table_index :: rest =>
      do found <- lift (index_resolves table_index);
      if found then
        do m <- lift (py_item table_index "module");
        do o <- lift (py_item table_index "object");
        do obj <- lift (mib_object m o);
        do k <- lift (index_kind_of obj);
        match (get v <- index_field value k index_pos;
               assign_field table_index v return_value) with
        | Ok return_value' =>
            index_loop mib mib_table value rest return_value' (index_pos + width k)
        | Raise e =>
            run log_index_error k value table_index mib mib_table e;
            ret return_value
        end
      else index_loop mib mib_table value rest return_value index_pos
  end.

Definition mib_table_index (value : rawval) (mib mib_table : string)
    (return_value : pdict) : M pdict :=
  do t <- lift (mib_object (PStr mib) (PStr mib_table));
  do nodetype <- lift (py_get t "nodetype" PNone);
  if negb (py_eq nodetype (PStr "row")) then ret return_value
  else
    do has <- lift (py_in (PStr "indices") t);
    if negb has then ret return_value
    else
      do spec <- lift (py_item t "indices");
      do indices <- lift (py_iter spec);
      index_loop mib mib_table value indices return_value 0.

(** *** The row loop of [get_table] *)

(** [self.mibs[mib][table]['oid'] + '.' + str(key)] *)
Definition column_oid (mib table key : string) : result pyval :=
  get t <- mib_object (PStr mib) (PStr table);
  get oid <- py_item t "oid";
  py_concat_dot oid key.

(** The inner [for mib_key, mib_value in self.mibs[mib].items()] with its
    [break]. *)
Fixpoint find_column (mib table key : string) (objects : pdict)
    : result (option (string * pyval)) :=
  match objects with
  | [] => Ok None
  | (mib_key, mib_value) :: rest =>
      get lhs <- column_oid mib table key;
      get rhs <- py_get mib_value "oid" PNone;
      if py_eq lhs rhs then Ok (Some (mib_key, mib_value))
      else find_column mib table key rest
  end.

Definition resolve_cell (mib table : string) (table_row : pdict)
    (cell : string * rawval) : M pdict :=
  let (key, value) := cell in
  do objects <- lift (get content <- py_item (PDict mibs) mib; py_items content);
  do hit <- lift (find_column mib table key objects);
  match hit with
  | Some (mib_key, mib_value) =>
      do has <- lift (py_in (PStr "syntax") mib_value);
      do v <- (if has : bool then
                 do syn <- lift (py_item mib_value "syntax");
                 format_snmp_field value syn
               else ret (of_raw value));
      ret (dict_set mib_key v table_row)
  | None =>
      if String.eqb key "0" then mib_table_index value mib table table_row
      else
        run tell (WarnUnknownOid key);
        ret (dict_set key (of_raw value) table_row)
  end.

Fixpoint resolve_cells (mib table : string) (table_row : pdict)
    (cells : raw_row) : M pdict :=
  match cells with
  | [] => ret table_row
  | cell :: rest =>
      do table_row' <- resolve_cell mib table table_row cell;
      resolve_cells mib table table_row' rest
  end.

Definition resolve_row (mib table : string) (query_time : Q) (row : raw_row) : M pdict :=
  resolve_cells mib table [("_query_time", PFloat query_time)] row.

(** [for raw_row in raw_rows: ...; table_data.append(table_row)] *)
Fixpoint resolve_rows (mib table : string) (query_time : Q)
    (raw_rows : list raw_row) (table_data : list pdict) : M (list pdict) :=
  match raw_rows with
  | [] => ret table_data
  | row :: rest =>
      do table_row <- resolve_row mib table query_time row;
      resolve_rows mib table query_time rest (table_data ++ [table_row])%list
  end.

(** [if len(table_data) != len(raw_rows): raise ValueError(...)] *)
Definition check_row_count (table_data : list pdict) (raw_rows : list raw_row) : result unit :=
  if negb (Nat.eqb (length table_data) (length raw_rows))
  then Raise (ValueError RowsMismatch)
  else Ok tt.

End Resolver.

(** ** [load_mibs]: the cross-MIB resolution pass

    The pass rebinds [item['syntax']] of objects of [self.mibs] while it
    iterates over that same store.  No dict gains or loses a key, so each
    loop runs over the keys it started with, and each step reads the store
    as the steps before it left it.  Only the dicts [self.mibs[m][k]] are
    written (at ['syntax']) and only the values [self.mibs[m][k]['type']]
    are copied, so no written dict is shared and values can stand for
    references. *)

(** [self.mibs[mib_name][key]['syntax'] = v] *)
Definition set_syntax (mibs : pdict) (mib_name key : string) (v : pyval) : pdict :=
  match dict_get mib_name mibs with
  | Some (PDict content) =>
      match dict_get key content with
      | Some (PDict item) =>
          dict_set mib_name
            (PDict (dict_set key (PDict (dict_set "syntax" v item)) content)) mibs
      | _ => mibs
      end
  | _ => mibs
  end.

(** [import_key != 'class' and not str(import_key).startswith('SNMP')],
    negated. *)
Definition skipped (import_key : string) : bool :=
  String.eqb import_key "class" || String.prefix "SNMP" import_key.

(** The body of the loop over [mib_content.get('imports', {}).items()]. *)
Definition import_step (mib_name key : string) (mibs : pdict) (import_key : string)
    : result pdict :=
  if skipped import_key then Ok mibs
  else
    get mib_content <- py_item (PDict mibs) mib_name;
    get item <- py_item mib_content key;
    get imports <- py_get mib_content "imports" (PDict []);
    get import_item <- py_item imports import_key;
    get syn <- py_item item "syntax";
    get t <- py_get syn "type" PNone;
    get declared <- py_in t import_item;
    if declared then
      get source <- py_item (PDict mibs) import_key;
      get _ <- py_get_method source;
      get t' <- py_item syn "type";
      get def <- py_get_val source t' (PDict []);
      get has_type <- py_in (PStr "type") def;
      if has_type then
        get def' <- py_item_val source t';
        get v <- py_item def' "type";
        Ok (set_syntax mibs mib_name key v)
      else Ok mibs
    else Ok mibs.

(** A [for] loop over a store that stops at the first exception and leaves
    the store as the last completed step wrote it. *)
Fixpoint for_each {A} (step : pdict -> A -> result pdict) (l : list A) (mibs : pdict)
    : pdict * result unit :=
  match l with
  | [] => (mibs, Ok tt)
  | x :: rest =>
      match step mibs x with
      | Ok mibs' => for_each step rest mibs'
      | Raise e => (mibs, Raise e)
      end
  end.

(** [isinstance(item, dict) and item.get('class', None) == 'objecttype' and
    item.get('syntax', {}).get('class', None) == 'type'] *)
Definition is_type_reference (item : pyval) : result bool :=
  if is_dict item then
    get cls <- py_get item "class" PNone;
    if py_eq cls (PStr "objecttype") then
      get syn <- py_get item "syntax" (PDict []);
      get c <- py_get syn "class" PNone;
      Ok (py_eq c (PStr "type"))
    else Ok false
  else Ok false.

(** The import keys the inner loop of one object runs over: none when the
    object is not a type reference. *)
Definition imports_to_try (mibs : pdict) (mib_name key : string) : result (list string) :=
  get mib_content <- py_item (PDict mibs) mib_name;
  get item <- py_item mib_content key;
  get r <- is_type_reference item;
  if r then
    get imports <- py_get mib_content "imports" (PDict []);
    get entries <- py_items imports;
    Ok (keys entries)
  else Ok [].

(** The body of the loop over [mib_content.items()]. *)
Definition object_step (mib_name : string) (mibs : pdict) (key : string) : pdict * result unit :=
  match imports_to_try mibs mib_name key with
  | Ok import_keys => for_each (import_step mib_name key) import_keys mibs
  | Raise e => (mibs, Raise e)
  end.

(** The same loop combinator for a body that is itself a loop. *)
Fixpoint for_each_loop {A} (body : pdict -> A -> pdict * result unit) (l : list A)
    (mibs : pdict) : pdict * result unit :=
  match l with
  | [] => (mibs, Ok tt)
  | x :: rest =>
      match body mibs x with
      | (mibs', Ok _) => for_each_loop body rest mibs'
      | (mibs', Raise e) => (mibs', Raise e)
      end
  end.

(** The body of the loop over [self.mibs.items()]. *)
Definition mib_step (mibs : pdict) (mib_name : string) : pdict * result unit :=
  match (get mib_content <- py_item (PDict mibs) mib_name; py_items mib_content) with
  | Ok objects => for_each_loop (object_step mib_name) (keys objects) mibs
  | Raise e => (mibs, Raise e)
  end.

Definition resolve_pass (mibs : pdict) : pdict * result unit :=
  for_each_loop mib_step (keys mibs) mibs.

(** [load_mibs] on the parsed files, each under the MIB name taken from its
    file name: the store is rebuilt from nothing, then resolved. *)
Definition load_mibs (files : list (string * pyval)) : pdict * result unit :=
  resolve_pass (fold_left (fun mibs f => dict_set (fst f) (snd f) mibs) files []).

(** ** creds.py: [SnmpCredV3.__init__] *)

Inductive cred_error : Type :=
| UsernameMissing
| UnsupportedAuth
| UnsupportedPriv
| AuthPasswordMissing
| PrivPasswordMissing.

(** [len(user)] of a value without a length is a [TypeError]; the checks
    raise [ValueError]. *)
Inductive cred_exn : Type :=
| CredTypeError
| CredValueError (why : cred_error).

Record snmp_cred_v3 : Type := {
  user : pyval;
  auth : option string;
  auth_pass : option string;
  priv : option string;
  priv_pass : option string
}.

(** [None if not isinstance(v, str) or v == '' else v] *)
Definition str_or_none (v : pyval) : option string :=
  match v with
  | PStr s => if String.eqb s "" then None else Some s
  | _ => None
  end.

(** [len(v)] *)
Definition py_len (v : pyval) : option nat :=
  match v with
  | PStr s => Some (String.length s)
  | PBytes bs => Some (length bs)
  | PList l => Some (length l)
  | PDict d => Some (length d)
  | _ => None
  end.

(** [x in [None, a, b]] *)
Definition supported (a b : string) (x : option string) : bool :=
  match x with
  | None => true
  | Some s => String.eqb s a || String.eqb s b
  end.

(** [not isinstance(p, str) or not len(p) > 0] *)
Definition no_password (p : option string) : bool :=
  match p with
  | None => true
  | Some s => negb (0 <? String.length s)%nat
  end.

Definition is_set (x : option string) : bool :=
  match x with Some _ => true | None => false end.

(** The checks of [__init__], on the attributes as it has just set them. *)
Definition SnmpCredV3_init (user' auth' auth_pass' priv' priv_pass' : pyval)
    : cred_exn + snmp_cred_v3 :=
  let self := {| user := user';
                 auth := str_or_none auth';
                 auth_pass := str_or_none auth_pass';
                 priv := str_or_none priv';
                 priv_pass := str_or_none priv_pass' |} in
  match py_len user' with
  | None => inl CredTypeError
  | Some n =>
      if Nat.eqb n 0 then inl (CredValueError UsernameMissing)
      else if negb (supported "md5" "sha1" (auth self)) then
        inl (CredValueError UnsupportedAuth)
      else if negb (supported "des" "aes" (priv self)) then
        inl (CredValueError UnsupportedPriv)
      else if is_set (auth self) && no_password (auth_pass self) then
        inl (CredValueError AuthPasswordMissing)
      else if is_set (priv self) && no_password (priv_pass self) then
        inl (CredValueError PrivPasswordMissing)
      else inr self
  end.

(** An attribute as an argument again. *)
Definition as_arg (x : option string) : pyval :=
  match x with Some s => PStr s | None => PNone end.

(** ** The credential of a client *)

(** What [SnmpCache.__init__] is given as [cred]: one of the two credential
    objects, or any other value. *)
Inductive credential : Type :=
| CredV2 (community : pyval)
| CredV3 (c : snmp_cred_v3)
| NotACredential (v : pyval).

(** The [creds] property.  [SnmpCredV2.creds] builds puresnmp's [V2C] around
    the community.  [SnmpCredV3.creds] has to look up [Auth], [Priv] or
    [puresnmp], none of which [creds.py] imports or defines, so it raises
    [NameError] whatever the credential holds.  A value that is no
    credential object has no such attribute. *)
Definition creds (c : credential) : result pyval :=
  match c with
  | CredV2 community => Ok community
  | CredV3 _ => Raise NameError
  | NotACredential _ => Raise AttributeError
  end.

(** ** [get_table] and the cache *)

Record cache_entry : Type := {
  max_age : option Z;
  query_time : option Q;
  data : option (list pdict)
}.

Record snmp_cache : Type := {
  cache_enabled : bool;
  max_cache_age : Z;
  cred : credential;
  mibs : pdict;
  _cache : gmap string (gmap string cache_entry)
}.

(** What one call sees of the outside: the clock when the cache is checked,
    the device (no rows at all when the query fails), the clock when the
    rows are back. *)
Record world : Type := {
  now : Q;
  device : pyval -> option (list raw_row);
  query_clock : Q
}.

Definition Qltb (x y : Q) : bool := negb (Qle_bool y x).

Definition from_option {A} (o : option A) (dflt : A) : A :=
  match o with Some a => a | None => dflt end.

(** [entry.get('query_time', 0) >
     time() - min(self.max_cache_age, entry.get('max_age', self.max_cache_age)) * 60] *)
Definition within_age (self : snmp_cache) (entry : cache_entry) (t : Q) : bool :=
  Qltb (t - inject_Z (Z.min (max_cache_age self)
                        (from_option (max_age entry) (max_cache_age self)) * 60))
       (from_option (query_time entry) 0%Q).

(** Lines 92-98: the data to return without polling, if any. *)
Definition cached_data (self : snmp_cache) (mib table : string) (allow_cached : bool)
    (t : Q) : option (list pdict) :=
  if cache_enabled self && allow_cached then
    match _cache self !! mib with
    | Some tables =>
        match tables !! table with
        | Some entry => if within_age self entry t then data entry else None
        | None => None
        end
    | None => None
    end
  else None.

Definition poll (w : world) (oid : pyval) : M (list raw_row) :=
  run tell (Polled oid);
  match device w oid with
  | Some raw_rows => ret raw_rows
  | None => raise TransportError
  end.

(** Line 102: [puresnmp.PyWrapper(puresnmp.Client(self.host,
    self.cred.creds))].  The [creds] property is this repository's; the two
    client objects are puresnmp's and are taken to be built without error. *)
Definition open_session (self : snmp_cache) : result unit :=
  get _ <- creds (cred self);
  Ok tt.

(** Lines 104-133: check the schema, poll, resolve, check the row count. *)
Definition query_device (w : world) (self : snmp_cache) (mib table : string)
    : M (list pdict * Q) :=
  if negb (dict_has mib (mibs self)) then raise (ValueError MibNotLoaded)
  else
    do objects <- lift (get content <- py_item (PDict (mibs self)) mib; py_items content);
    if negb (dict_has table objects) then raise (ValueError ObjectNotInMib)
    else
      do oid <- lift (get t <- mib_object (mibs self) (PStr mib) (PStr table); py_item t "oid");
      do raw_rows <- poll w oid;
      let query_time := query_clock w in
      do table_data <- resolve_rows (mibs self) mib table query_time raw_rows [];
      run lift (check_row_count table_data raw_rows);
      ret (table_data, query_time).

(** Lines 102-133: what [get_table] does when the cache does not serve the
    call. *)
Definition live_query (w : world) (self : snmp_cache) (mib table : string)
    : M (list pdict * Q) :=
  run lift (open_session self);
  query_device w self mib table.

Definition empty_entry : cache_entry :=
  {| max_age := None; query_time := None; data := None |}.

(** Lines 137-143. *)
Definition store_entry (mib table : string) (entry : cache_entry)
    (c : gmap string (gmap string cache_entry)) : gmap string (gmap string cache_entry) :=
  let c1 := match c !! mib with
            | Some _ => c
            | None => <[mib := {[table := empty_entry]}]> c
            end in
  match c1 !! mib with
  | Some tables => <[mib := <[table := entry]> tables]> c1
  | None => c1
  end.

Definition update_cache (self : snmp_cache) (mib table : string)
    (query_cache_max_age : Z) (query_time : Q) (table_data : list pdict)
    : gmap string (gmap string cache_entry) :=
  if cache_enabled self then
    store_entry mib table
      {| max_age := Some query_cache_max_age;
         query_time := Some query_time;
         data := Some table_data |} (_cache self)
  else _cache self.

(** The cache after the call, and what the call logged, polled and
    returned or raised. *)
Definition get_table (w : world) (self : snmp_cache) (mib table : string)
    (allow_cached : bool) (query_cache_max_age : Z)
    : gmap string (gmap string cache_entry) * M (list pdict) :=
  match cached_data self mib table allow_cached (now w) with
  | Some table_data => (_cache self, ret table_data)
  | None =>
      match live_query w self mib table with
      | (evs, Ok (table_data, query_time)) =>
          (update_cache self mib table query_cache_max_age query_time table_data,
           (evs, Ok table_data))
      | (evs, Raise e) => (_cache self, (evs, Raise e))
      end
  end.

(** ** Specification-side notions *)

(** The entry for [(mib, table)], if the cache has one. *)
Definition entry_at (c : gmap string (gmap string cache_entry)) (mib table : string)
    : option cache_entry :=
  match c !! mib with
  | Some tables => tables !! table
  | None => None
  end.

(** Fresh: [now - query_time < min(globalMaxAge, entry.max_age)] minutes,
    with the clock in seconds. *)
Definition Fresh (t : Q) (global_max_age entry_max_age : Z) (entry_query_time : Q) : Prop :=
  (t - entry_query_time < inject_Z (Z.min global_max_age entry_max_age) * 60)%Q.

(** The device was polled. *)
Definition polled (evs : list event) : Prop := exists oid, In (Polled oid) evs.

(** Two lowercase hexadecimal digits for a byte. *)
Definition hex_digit (d : Z) : ascii :=
  if d <? 10 then ascii_of_nat (48 + Z.to_nat d) else ascii_of_nat (87 + Z.to_nat d).

Definition hex2 (n : Z) : string :=
  String (hex_digit (n / 16)) (String (hex_digit (n mod 16)) EmptyString).

(** The hex string of a sequence of bytes. *)
Definition hex_string (ns : list Z) : string :=
  fold_right (fun n acc => hex2 n ++ acc) EmptyString ns.

(** What [mac_decimal_to_hex] makes of integers of any size: [hex(n)]
    without its first two characters, filled to two, for each. *)
Definition hex_octets (ns : list Z) : string :=
  fold_right (fun n acc => hex_octet n ++ acc) EmptyString ns.

(** A text of ASCII characters only: its bytes are its characters, and
    [int] and [str.lower] read it as they are modelled here. *)
Definition is_ascii (s : string) : bool :=
  forallb (fun c => (nat_of_ascii c <? 128)%nat) (list_ascii_of_string s).

Fixpoint has_char (c : ascii) (s : string) : bool :=
  match s with
  | EmptyString => false
  | String c' s' => Ascii.eqb c' c || has_char c s'
  end.

(** An index reference [{module, object}] and the object it names. *)
Definition names_object (mibs : pdict) (table_index : pyval) (module object : string)
    (obj : pyval) : Prop :=
  exists ti content,
    table_index = PDict ti
    /\ dict_get "module" ti = Some (PStr module)
    /\ dict_get "object" ti = Some (PStr object)
    /\ dict_get module mibs = Some (PDict content)
    /\ dict_get object content = Some obj.

(** An index reference whose module is not loaded, or whose object the
    module does not define. *)
Definition names_nothing (mibs : pdict) (table_index : pyval) : Prop :=
  exists ti module object,
    table_index = PDict ti
    /\ dict_get "module" ti = Some (PStr module)
    /\ dict_get "object" ti = Some (PStr object)
    /\ (dict_get module mibs = None
        \/ exists content,
             dict_get module mibs = Some (PDict content)
             /\ dict_get object content = None).

(** [self.mibs[mib_name][key][field]], when all three are there. *)
Definition obj_field (mibs : pdict) (mib_name key field : string) : option pyval :=
  match dict_get mib_name mibs with
  | Some (PDict content) =>
      match dict_get key content with
      | Some (PDict item) => dict_get field item
      | _ => None
      end
  | _ => None
  end.

(** An import entry that cannot rewrite a syntax: it is skipped, or it does
    not declare the type the syntax names. *)
Definition import_misses (syn : pyval) (entry : string * pyval) : bool :=
  skipped (fst entry) ||
  match py_get syn "type" PNone with
  | Ok t => match py_in t (snd entry) with Ok false => true | _ => false end
  | Raise _ => false
  end.

(** An object the pass leaves alone: not a type reference, or one that no
    import entry of its MIB can rewrite. *)
Definition object_settled (content : pdict) (item : pyval) : bool :=
  match is_type_reference item with
  | Ok false => true
  | Ok true =>
      match py_get (PDict content) "imports" (PDict []), py_item item "syntax" with
      | Ok (PDict imports), Ok syn => forallb (import_misses syn) imports
      | _, _ => false
      end
  | Raise _ => false
  end.

(** A store in which no object has a reference left that an import of its
    MIB declares. *)
Definition settled (mibs : pdict) : bool :=
  forallb (fun mc => match snd mc with
                     | PDict content =>
                         forallb (fun kv => object_settled content (snd kv)) content
                     | _ => false
                     end) mibs.

(** What the pass has to keep of a store for an object [x] of MIB [A] that
    refers to the type [Foo] of MIB [B]: the keys [okeys] of [A], the class
    of [x] and its syntax [s], the imports [imps] of [A], and the type
    field [T] of [B]'s [Foo]. *)
Definition tracks (A x B Foo : string) (imps : pdict) (okeys : list string)
    (T s : pyval) (m : pdict) : Prop :=
  exists ca it,
    dict_get A m = Some (PDict ca)
    /\ keys ca = okeys
    /\ dict_get x ca = Some (PDict it)
    /\ dict_get "class" it = Some (PStr "objecttype")
    /\ dict_get "syntax" it = Some s
    /\ dict_get "imports" ca = Some (PDict imps)
    /\ obj_field m B Foo "type" = Some T.

(** A result that is not the row-count error, and a computation that does
    not end in it. *)
Definition rsafe {A} (r : result A) : Prop :=
  match r with
  | Raise e => e <> ValueError RowsMismatch
  | Ok _ => True
  end.

Definition msafe {A} (m : M A) : Prop := rsafe (snd m).

(** An entry as [get_table] writes them. *)
Definition complete (e : cache_entry) : Prop :=
  exists m t rows, e = {| max_age := Some m; query_time := Some t; data := Some rows |}.

(** * The rest of the code *)

(** ** The rest of [helpers.py] *)

(** [s.replace(c, '')] for a one-character [c]. *)
Fixpoint remove_char (c : ascii) (s : string) : string :=
  match s with
  | EmptyString => EmptyString
  | String c' s' => if Ascii.eqb c' c then remove_char c s' else String c' (remove_char c s')
  end.

(** [s[lo:hi]] for [0 <= lo <= hi], taken on the bytes of [s]: the
    characters Python slices when [s] is ASCII. *)
Definition str_slice (lo hi : nat) (s : string) : string :=
  string_of_list_ascii (slice lo (hi - lo) (list_ascii_of_string s)).

Definition normalize_mac (mac_address : string) (delimiter : string) : string :=
  let mac_text := remove_char "-" (remove_char ":" mac_address) in
  str_slice 0 2 mac_text ++ delimiter ++ str_slice 2 4 mac_text ++ delimiter
  ++ str_slice 4 6 mac_text ++ delimiter ++ str_slice 6 8 mac_text ++ delimiter
  ++ str_slice 8 10 mac_text ++ delimiter ++ str_slice 10 12 mac_text.

(** [bytes_to_str]: [array.decode()] *)
Definition bytes_to_str (array : rawval) : result string := py_decode array.

(** The dotted decimal form of a byte string, as an SNMP index carries it. *)
Definition dotted (bs : list Byte.byte) : string :=
  join "." (map (fun b => str_of_Z (byte_val b)) bs).

(** ** Reading an index off its components *)

(** The decimal bytes of a list of components, if they all are. *)
Fixpoint read_bytes (comps : list string) : option (list Z) :=
  match comps with
  | [] => Some []
  | c :: rest =>
      match int_of_str c, read_bytes rest with
      | Ok n, Some ns => if (0 <=? n) && (n <? 256) then Some (n :: ns) else None
      | _, _ => None
      end
  end.

(** The value of one index field from the components it takes. *)
Definition field_value (k : index_kind) (taken : list string) : option pyval :=
  match k with
  | IdxMac => option_map (fun ns => PStr (hex_string ns)) (read_bytes taken)
  | IdxInet => Some (PStr (join "." taken))
  | IdxInt =>
      match taken with
      | [c] => match int_of_str c with Ok n => Some (PInt n) | Raise _ => None end
      | _ => None
      end
  end.

(** The index fields named [fields], read left to right off [comps]: each
    field takes as many components as its type is wide, and what is left
    after the last field is not looked at. *)
Fixpoint decode_fields (fields : list (string * index_kind)) (comps : list string)
    (row : pdict) : option pdict :=
  match fields with
  | [] => Some row
  | (name, k) :: rest =>
      if (length comps <? width k)%nat then None
      else
        match field_value k (firstn (width k) comps) with
        | Some v => decode_fields rest (skipn (width k) comps) (dict_set name v row)
        | None => None
        end
  end.

(** A type name the formatter has no branch for. *)
Definition plain_type (t : string) : bool :=
  negb (String.eqb t "macaddress" || String.eqb t "inetaddress" || String.eqb t "ipaddress"
        || String.eqb t "truthvalue" || String.eqb t "bits").

(** A row that starts with its query time. *)
Definition stamped (row : pdict) : Prop :=
  exists v rest, row = ("_query_time", v) :: rest.

(** ** The rest of the cache *)

(** A naive [datetime] is a count of microseconds on the local wall clock,
    a [timedelta] a count of microseconds.  [datetime.fromtimestamp] is the
    platform's: it gives the local date and time of an instant, rounded to
    the microsecond, or raises where the instant is out of its range. *)
Definition local_time : Type := Q -> option Z.

(** What a getter of the cache hands back: a time, [None], or the exception
    of [datetime.fromtimestamp]. *)
Inductive timed : Type :=
| TimeOf (us : Z)
| NoTime
| TimeRaises.

Definition stamp (fromtimestamp : local_time) (t : Q) : timed :=
  match fromtimestamp t with
  | Some d => TimeOf d
  | None => TimeRaises
  end.

(** [get_cache_table_refresh_time]:
    [datetime.fromtimestamp(self._cache[mib][table]['query_time'])]. *)
Definition get_cache_table_refresh_time (fromtimestamp : local_time) (self : snmp_cache)
    (mib table : string) : timed :=
  match _cache self !! mib with
  | Some tables =>
      match tables !! table with
      | Some entry =>
          match query_time entry with
          | Some t => stamp fromtimestamp t
          | None => NoTime
          end
      | None => NoTime
      end
  | None => NoTime
  end.

(** [get_cache_table_age], with [clock] for what [datetime.now()] returns:
    the difference of two readings of the local wall clock. *)
Definition get_cache_table_age (fromtimestamp : local_time) (clock : Z) (self : snmp_cache)
    (mib table : string) : timed :=
  match get_cache_table_refresh_time fromtimestamp self mib table with
  | TimeOf refresh_time => TimeOf (clock - refresh_time)
  | NoTime => NoTime
  | TimeRaises => TimeRaises
  end.

(** The client after a call left the cache [c]. *)
Definition with_cache (self : snmp_cache) (c : gmap string (gmap string cache_entry))
    : snmp_cache :=
  {| cache_enabled := cache_enabled self; max_cache_age := max_cache_age self;
     cred := cred self; mibs := mibs self; _cache := c |}.

(** [load_mibs] on a client: the store is replaced, the cache is not
    touched. *)
Definition reload (self : snmp_cache) (files : list (string * pyval)) : snmp_cache * result unit :=
  let (store, r) := load_mibs files in
  ({| cache_enabled := cache_enabled self; max_cache_age := max_cache_age self;
      cred := cred self; mibs := store; _cache := _cache self |}, r).

(** One call of [get_table] and what the outside is at that time. *)
Record call : Type := {
  call_world : world;
  call_mib : string;
  call_table : string;
  call_allow_cached : bool;
  call_max_age : Z
}.

(** The cache after a sequence of calls on one client. *)
Fixpoint run_calls (self : snmp_cache) (calls : list call)
    : gmap string (gmap string cache_entry) :=
  match calls with
  | [] => _cache self
  | c :: rest =>
      run_calls
        (with_cache self
           (fst (get_table (call_world c) self (call_mib c) (call_table c)
                   (call_allow_cached c) (call_max_age c)))) rest
  end.

(** ** What the pass keeps *)

(** The names of the objects of a MIB of the store. *)
Definition object_names (mibs : pdict) (mib_name : string) : option (list string) :=
  match dict_get mib_name mibs with
  | Some (PDict content) => Some (keys content)
  | _ => None
  end.

(** Two stores with the same MIBs, the same objects in each, and the same
    value in every field of every object but ['syntax']. *)
Definition same_but_syntax (m m' : pdict) : Prop :=
  keys m' = keys m
  /\ (forall M, object_names m' M = object_names m M)
  /\ (forall M k f, f <> "syntax" -> obj_field m' M k f = obj_field m M k f).

(** What the pass has to keep of a store for an object [x] of MIB [A] whose
    imports [imps] name a MIB [B] that is not loaded. *)
Definition awaits (A x B : string) (imps item : pdict) (okeys : list string)
    (m : pdict) : Prop :=
  exists ca,
    dict_get A m = Some (PDict ca)
    /\ keys ca = okeys
    /\ dict_get x ca = Some (PDict item)
    /\ dict_get "imports" ca = Some (PDict imps)
    /\ dict_get B m = None.

(** ** [SnmpCache.__init__] *)

Inductive init_error : Type :=
| BadCredential
| LoadFailed (e : exn).

(** The client [__init__] leaves, with the parsed files of [mib_paths] if
    any was given. *)
Definition SnmpCache_init (cred : credential) (files : option (list (string * pyval)))
    (cache_enabled' : bool) (max_cache_age' : Z) : init_error + snmp_cache :=
  match cred with
  | NotACredential _ => inl BadCredential
  | _ =>
      let self := {| cache_enabled := cache_enabled'; max_cache_age := max_cache_age';
                     cred := cred; mibs := []; _cache := ∅ |} in
      match files with
      | None => inr self
      | Some fs =>
          match reload self fs with
          | (self', Ok _) => inr self'
          | (_, Raise e) => inl (LoadFailed e)
          end
      end
  end.

(** ** Traces *)

(** A computation that does not poll the device. *)
Definition quiet {A} (m : M A) : Prop :=
  Forall (fun ev => match ev with Polled _ => False | _ => True end) (fst m).

(** The polls of a trace, in order. *)
Definition polls (evs : list event) : list pyval :=
  flat_map (fun ev => match ev with Polled oid => [oid] | _ => [] end) evs.

(** [x != c] *)
Definition keep (c x : ascii) : bool := negb (Ascii.eqb x c).

(** The characters of the address without its separators. *)
Definition mac_chars (s : string) : list ascii :=
  List.filter (keep "-") (List.filter (keep ":") (list_ascii_of_string s)).

(** ** Sample schemas, devices and caches *)

Definition index_ref (module object : string) : pyval :=
  PDict [("module", PStr module); ("object", PStr object)].

Definition type_ref (name : string) : pyval :=
  PDict [("type", PStr name); ("class", PStr "type")].

Definition column (oid : string) (syn : pyval) : pyval :=
  PDict [("oid", PStr oid); ("class", PStr "objecttype"); ("syntax", syn)].

Definition row_object (oid : string) (indices : list pyval) : pyval :=
  PDict [("oid", PStr oid); ("nodetype", PStr "row"); ("class", PStr "objecttype");
         ("indices", PList indices)].

Definition oper_status_syntax : pyval :=
  PDict [("type", PStr "INTEGER"); ("class", PStr "type");
         ("constraints",
          PDict [("enumeration", PDict [("up", PInt 1); ("down", PInt 2)])])].

(** A cut of IF-MIB. *)
Definition if_mib : pyval :=
  PDict [("imports", PDict [("class", PStr "imports");
                            ("SNMPv2-SMI", PList [PStr "Integer32"])]);
         ("ifEntry", row_object "1.3.6.1.2.1.2.2.1" [index_ref "IF-MIB" "ifIndex"]);
         ("ifIndex", column "1.3.6.1.2.1.2.2.1.1" (type_ref "Integer32"));
         ("ifOperStatus", column "1.3.6.1.2.1.2.2.1.8" oper_status_syntax)].

(** A table indexed by a port, a MAC address and an IPv4 address, the
    first through a module that is not loaded. *)
Definition arp_mib : pyval :=
  PDict [("arpEntry",
          row_object "1.3.9.1"
            [index_ref "MISSING-MIB" "port";
             index_ref "ARP-MIB" "arpMac";
             index_ref "ARP-MIB" "arpAddr"]);
         ("arpMac", column "1.3.9.1.1" (type_ref "MacAddress"));
         ("arpAddr", column "1.3.9.1.2" (type_ref "InetAddress"));
         ("arpPort", column "1.3.9.1.3" (type_ref "Integer32"));
         ("portEntry", row_object "1.3.9.2" [index_ref "ARP-MIB" "arpPort"])].

Definition sample_mibs : pdict := [("IF-MIB", if_mib); ("ARP-MIB", arp_mib)].

Definition if_rows : list raw_row := [[("0", RStr "5"); ("8", RInt 2)]].

Definition if_resolved (t : Q) : list pdict :=
  [[("_query_time", PFloat t); ("ifIndex", PInt 5);
    ("ifOperStatus", wrapper (PInt 2) "down")]].

Definition device_up : world :=
  {| now := 1360; device := fun _ => Some if_rows; query_clock := 1361 |}.

Definition device_down : world :=
  {| now := 1360; device := fun _ => None; query_clock := 1361 |}.

Definition cache_at_1000 : gmap string (gmap string cache_entry) :=
  {[ "IF-MIB" := {[ "ifEntry" := {| max_age := Some 10;
                                    query_time := Some 1000%Q;
                                    data := Some (if_resolved 1000) |} ]} ]}.

Definition client (enabled : bool) (c : gmap string (gmap string cache_entry)) : snmp_cache :=
  {| cache_enabled := enabled; max_cache_age := 5; cred := CredV2 (PStr "public");
     mibs := sample_mibs; _cache := c |}.

(** MIB A refers to the type Foo of MIB B. *)
Definition type_def (t : pyval) : pyval :=
  PDict [("class", PStr "textualconvention"); ("type", t)].

Definition imports_of_A (more : pdict) : pdict :=
  ("class", PStr "imports") :: ("SNMPv2-SMI", PList [PStr "Integer32"]) :: more.

Definition x_syntax : pdict := [("type", PStr "Foo"); ("class", PStr "type")].

Definition x_object : pdict :=
  [("oid", PStr "1.3.9.9.1"); ("class", PStr "objecttype"); ("syntax", PDict x_syntax)].

Definition objects_of_A (more : pdict) : pdict :=
  [("imports", PDict (imports_of_A more)); ("x", PDict x_object)].

Definition mib_A (more : pdict) : pyval := PDict (objects_of_A more).

(** B defines Foo over a base type; A also imports from a MIB that is not
    loaded. *)
Definition imports_from_B_and_D : pdict :=
  [("B", PList [PStr "Foo"]); ("D", PList [PStr "Other"])].

Definition Foo_def : pdict :=
  [("class", PStr "textualconvention"); ("type", type_ref "OCTET STRING")].

Definition two_mibs : pdict :=
  [("A", mib_A imports_from_B_and_D); ("B", PDict [("Foo", PDict Foo_def)])].

(** B defines Foo over Bar, which A imports from C. *)
Definition chain_across : pdict :=
  [("A", mib_A [("B", PList [PStr "Foo"]); ("C", PList [PStr "Bar"])]);
   ("B", PDict [("Foo", type_def (type_ref "Bar"))]);
   ("C", PDict [("Bar", type_def (type_ref "Integer32"))])].

(** B defines Foo over its own Bar, and A imports both from B. *)
Definition chain_within : pdict :=
  [("A", mib_A [("B", PList [PStr "Foo"; PStr "Bar"])]);
   ("B", PDict [("Foo", type_def (type_ref "Bar"));
                ("Bar", type_def (type_ref "Integer32"))])].

(** ** Sample data for the rest of the code *)

(** The address 00:1a:2b:3c:4d:5e and the address 10.0.0.1. *)
Definition mac_bytes : list Byte.byte :=
  [Byte.x00; Byte.x1a; Byte.x2b; Byte.x3c; Byte.x4d; Byte.x5e].

Definition ip_bytes : list Byte.byte := [Byte.x0a; Byte.x00; Byte.x00; Byte.x01].

(** The bytes of the text up. *)
Definition up_bytes : list Byte.byte := [Byte.x75; Byte.x70].




(** The objects of [if_mib] and its table. *)
Definition if_objects : pdict :=
  match if_mib with PDict objects => objects | _ => [] end.

Definition if_entry : pdict :=
  match row_object "1.3.6.1.2.1.2.2.1" [index_ref "IF-MIB" "ifIndex"] with
  | PDict t => t
  | _ => []
  end.

Definition port_entry : pdict :=
  match row_object "1.3.9.2" [index_ref "ARP-MIB" "arpPort"] with
  | PDict t => t
  | _ => []
  end.

(** A platform on UTC: the microseconds of an instant, halves to the even
    one. *)
Definition round_half_even (q : Q) : Z :=
  let f := Qfloor q in
  match Qcompare (q - inject_Z f) (1 # 2) with
  | Lt => f
  | Gt => f + 1
  | Eq => if Z.even f then f else f + 1
  end.

Definition utc : local_time := fun t => Some (round_half_even (t * 1000000)).

(** A device that does not answer, at the time [t]. *)
Definition device_at (t : Q) : world :=
  {| now := t; device := fun _ => None; query_clock := t |}.

Definition entry_of (age : Z) (t : Q) : cache_entry :=
  {| max_age := Some age; query_time := Some t; data := Some (if_resolved t) |}.

(** An entry that asks for no caching. *)
Definition cache_of_age_0 : gmap string (gmap string cache_entry) :=
  {[ "IF-MIB" := {[ "ifEntry" := entry_of 0 1000 ]} ]}.

Definition call_for (w : world) (table : string) : call :=
  {| call_world := w; call_mib := "IF-MIB"; call_table := table;
     call_allow_cached := true; call_max_age := 10 |}.

(** A live call, a call for a table that does not exist, a call the device
    does not answer. *)
Definition three_calls : list call :=
  [call_for device_up "ifEntry"; call_for device_up "ifNothing";
   call_for device_down "ifEntry"].

(** A imports Foo from B, and B is not loaded. *)
Definition imports_from_B : pdict := [("B", PList [PStr "Foo"])].

Definition only_A : pdict := [("A", mib_A imports_from_B)].

Definition admin_sha1 : snmp_cred_v3 :=
  {| user := PStr "admin"; auth := Some "sha1"; auth_pass := Some "secret";
     priv := None; priv_pass := None |}.

(** The client of the sample schema with an [SnmpCredV3]. *)
Definition client_v3 (c : gmap string (gmap string cache_entry)) : snmp_cache :=
  {| cache_enabled := true; max_cache_age := 5; cred := CredV3 admin_sha1;
     mibs := sample_mibs; _cache := c |}.

Definition new_client : snmp_cache :=
  {| cache_enabled := true; max_cache_age := 10; cred := CredV2 (PStr "public");
     mibs := []; _cache := ∅ |}.

(** * Properties *)

(** ** The monad *)

Lemma bind_ok {A B} (m : M A) (f : A -> M B) evs b :
  bind m f = (evs, Ok b) ->
  exists e1 a e2, m = (e1, Ok a) /\ f a = (e2, Ok b) /\ evs = (e1 ++ e2)%list.
Proof.
  unfold bind. destruct m as [e1 [a|e]]; [|discriminate].
  destruct (f a) as [e2 r] eqn:Hf. intros H. inversion H; subst.
  exists e1, a, e2. auto.
Qed.

Lemma bind_lift_Ok {A B} (a : A) (f : A -> M B) : bind (lift (Ok a)) f = f a.
Proof. unfold bind, lift. destruct (f a). reflexivity. Qed.

Lemma bind_lift_ok {A B} (r : result A) (f : A -> M B) a :
  r = Ok a -> bind (lift r) f = f a.
Proof. intros ->. unfold bind, lift. destruct (f a). reflexivity. Qed.

Lemma bind_lift_raise {A B} (r : result A) (f : A -> M B) e :
  r = Raise e -> bind (lift r) f = ([], Raise e).
Proof. intros ->. reflexivity. Qed.

Lemma bind_ret {A B} (a : A) (f : A -> M B) : bind (ret a) f = f a.
Proof. unfold bind, ret. destruct (f a). reflexivity. Qed.

(** ** The cache *)

Lemma Qltb_lt (x y : Q) : Qltb x y = true <-> (x < y)%Q.
Proof.
  unfold Qltb. rewrite negb_true_iff. split.
  - intros H. apply Qnot_le_lt. intros Hle. apply Qle_bool_iff in Hle. congruence.
  - intros H. destruct (Qle_bool y x) eqn:E; [|reflexivity].
    apply Qle_bool_iff in E. exfalso. apply (Qlt_not_le _ _ H E).
Qed.

Lemma within_age_fresh self m qt rows t :
  within_age self {| max_age := Some m; query_time := Some qt; data := Some rows |} t = true
  <-> Fresh t (max_cache_age self) m qt.
Proof.
  unfold within_age, Fresh. simpl. rewrite Qltb_lt, inject_Z_mult.
  change (inject_Z 60) with 60%Q.
  generalize (inject_Z (Z.min (max_cache_age self) m)); intros g.
  split; intros H; lra.
Qed.

Lemma poll_ok_polled w oid evs rows :
  poll w oid = (evs, Ok rows) -> evs = [Polled oid].
Proof.
  unfold poll, bind, tell. destruct (device w oid); simpl; intros H; inversion H.
  reflexivity.
Qed.

Lemma live_query_opened w self mib table :
  open_session self = Ok tt -> live_query w self mib table = query_device w self mib table.
Proof. intros H. unfold live_query. rewrite H, bind_lift_Ok. reflexivity. Qed.

Lemma live_query_refused w self mib table e :
  open_session self = Raise e -> live_query w self mib table = ([], Raise e).
Proof. intros H. unfold live_query. rewrite H. reflexivity. Qed.

(** A live query that returns has opened its session. *)
Lemma live_query_ok w self mib table evs r :
  live_query w self mib table = (evs, Ok r) ->
  open_session self = Ok tt /\ query_device w self mib table = (evs, Ok r).
Proof.
  destruct (open_session self) as [[]|e] eqn:E.
  - rewrite (live_query_opened _ _ _ _ E). auto.
  - rewrite (live_query_refused _ _ _ _ _ E). discriminate.
Qed.

(** A live query that returns has polled the device. *)
Lemma live_query_ok_polled w self mib table evs r :
  live_query w self mib table = (evs, Ok r) -> polled evs.
Proof.
  intros H. apply live_query_ok in H as [_ H]. revert H. unfold query_device.
  destruct (negb (dict_has mib (mibs self))); [discriminate|].
  intros H. apply bind_ok in H as (e1 & objects & e2 & _ & H & ->).
  destruct (negb (dict_has table objects)); [discriminate|].
  apply bind_ok in H as (e3 & oid & e4 & Hoid & H & ->).
  apply bind_ok in H as (e5 & raw_rows & e6 & Hpoll & _ & ->).
  apply poll_ok_polled in Hpoll as ->.
  exists oid. rewrite !in_app_iff. right. right. left. left. reflexivity.
Qed.

Lemma get_table_forced w self mib table q :
  get_table w self mib table false q =
  match live_query w self mib table with
  | (evs, Ok (table_data, query_time)) =>
      (update_cache self mib table q query_time table_data, (evs, Ok table_data))
  | (evs, Raise e) => (_cache self, (evs, Raise e))
  end.
Proof.
  unfold get_table, cached_data. rewrite andb_false_r. reflexivity.
Qed.

(** C1. With caching enabled and [allow_cached] true, a call that finds a
    complete entry for [(mib, table)] returns the cached rows, polling
    nothing and leaving the cache as it is, if and only if the entry is
    Fresh; otherwise it does what a forced live call does.  An entry written
    at [t0] with max age 10 under a global max age of 5 is not Fresh at
    [t0 + 360] seconds. *)
Theorem get_table_cached_iff_fresh (w : world) (self : snmp_cache) (mib table : string)
    (q m : Z) (qt : Q) (rows : list pdict) :
  cache_enabled self = true ->
  entry_at (_cache self) mib table
    = Some {| max_age := Some m; query_time := Some qt; data := Some rows |} ->
  (get_table w self mib table true q = (_cache self, ([], Ok rows))
   <-> Fresh (now w) (max_cache_age self) m qt)
  /\ (~ Fresh (now w) (max_cache_age self) m qt ->
      get_table w self mib table true q = get_table w self mib table false q)
  /\ (max_cache_age self = 5 -> m = 10 -> (now w == qt + 6 * 60)%Q ->
      ~ Fresh (now w) (max_cache_age self) m qt).
Proof.
  intros Hen Hentry.
  assert (Hstale : ~ Fresh (now w) (max_cache_age self) m qt ->
            get_table w self mib table true q = get_table w self mib table false q).
  { intros Hn. rewrite get_table_forced. unfold get_table, cached_data.
    rewrite Hen. simpl. unfold entry_at in Hentry.
    destruct (_cache self !! mib) as [tables|]; [|discriminate].
    rewrite Hentry.
    destruct (within_age self _ (now w)) eqn:E; [|reflexivity].
    apply within_age_fresh in E. contradiction. }
  split; [split|split].
  - intros H.
    destruct (within_age self
      {| max_age := Some m; query_time := Some qt; data := Some rows |} (now w)) eqn:E.
    + apply within_age_fresh in E. exact E.
    + assert (Hn : ~ Fresh (now w) (max_cache_age self) m qt).
      { intros HF. apply within_age_fresh with (rows := rows) in HF. congruence. }
      rewrite (Hstale Hn), get_table_forced in H.
      destruct (live_query w self mib table) as [evs [[td t]|e]] eqn:L.
      * inversion H; subst. apply live_query_ok_polled in L as [oid []].
      * inversion H.
  - intros HF. apply within_age_fresh with (rows := rows) in HF.
    unfold get_table, cached_data. rewrite Hen. simpl. unfold entry_at in Hentry.
    destruct (_cache self !! mib) as [tables|]; [|discriminate].
    rewrite Hentry, HF. reflexivity.
  - exact Hstale.
  - intros Hg Hm Hnow. unfold Fresh. rewrite Hg, Hm, Hnow.
    change (inject_Z (Z.min 5 10)) with 5%Q. lra.
Qed.

Lemma entry_at_store_same mib table entry c :
  entry_at (store_entry mib table entry c) mib table = Some entry.
Proof.
  unfold entry_at, store_entry.
  destruct (c !! mib) as [tables|] eqn:E.
  - rewrite E, lookup_insert_eq. apply lookup_insert_eq.
  - rewrite lookup_insert_eq, lookup_insert_eq. apply lookup_insert_eq.
Qed.

(** An entry that was there before a write to another key is still there,
    unchanged. *)
Lemma store_entry_frame mib table entry c mib' table' old :
  (mib', table') <> (mib, table) ->
  entry_at c mib' table' = Some old ->
  entry_at (store_entry mib table entry c) mib' table' = Some old.
Proof.
  intros Hne. unfold entry_at, store_entry.
  destruct (decide (mib' = mib)) as [->|Hm].
  - assert (Ht : table <> table') by congruence.
    destruct (c !! mib) as [tables|] eqn:E; [|discriminate].
    intros Hold. rewrite E, lookup_insert_eq, lookup_insert_ne by exact Ht. exact Hold.
  - intros Hold. destruct (c !! mib) as [tables|] eqn:E.
    + rewrite E, lookup_insert_ne by congruence. exact Hold.
    + rewrite lookup_insert_eq, !lookup_insert_ne by congruence. exact Hold.
Qed.

Lemma store_entry_entries mib table entry c mib' table' e :
  entry_at (store_entry mib table entry c) mib' table' = Some e ->
  e = entry \/ entry_at c mib' table' = Some e.
Proof.
  destruct (decide ((mib', table') = (mib, table))) as [E|Hne].
  - injection E as -> ->. rewrite entry_at_store_same. intros H. left. congruence.
  - unfold entry_at, store_entry. destruct (decide (mib' = mib)) as [->|Hm].
    + assert (Ht : table <> table') by congruence.
      destruct (c !! mib) as [tables|] eqn:E.
      * rewrite E, lookup_insert_eq, lookup_insert_ne by exact Ht. auto.
      * rewrite lookup_insert_eq, lookup_insert_eq, lookup_insert_ne by exact Ht.
        rewrite lookup_singleton_ne by exact Ht. discriminate.
    + destruct (c !! mib) as [tables|] eqn:E.
      * rewrite E, lookup_insert_ne by congruence. auto.
      * rewrite lookup_insert_eq, !lookup_insert_ne by congruence. auto.
Qed.

Lemma get_table_cases w self mib table allow q :
  (exists rows, cached_data self mib table allow (now w) = Some rows
     /\ get_table w self mib table allow q = (_cache self, ([], Ok rows)))
  \/ (cached_data self mib table allow (now w) = None
      /\ get_table w self mib table allow q = get_table w self mib table false q).
Proof.
  destruct (cached_data self mib table allow (now w)) as [rows|] eqn:E.
  - left. exists rows. split; [reflexivity|]. unfold get_table. rewrite E. reflexivity.
  - right. split; [reflexivity|]. rewrite get_table_forced. unfold get_table.
    rewrite E. reflexivity.
Qed.

(** C2, as the code has it.  When a call polls the device and returns rows,
    then with caching enabled the entry for [(mib, table)] is afterwards
    exactly the requested max age, the time of the query and the returned
    rows, and every other entry is as before; with caching disabled the
    cache is not written at all. *)
Theorem get_table_live_replaces_entry (w : world) (self : snmp_cache) (mib table : string)
    (allow : bool) (q : Z) (c' : gmap string (gmap string cache_entry))
    (evs : list event) (rows : list pdict) :
  get_table w self mib table allow q = (c', (evs, Ok rows)) ->
  polled evs ->
  (cache_enabled self = true ->
     entry_at c' mib table
       = Some {| max_age := Some q; query_time := Some (query_clock w); data := Some rows |}
     /\ forall mib' table' old,
          (mib', table') <> (mib, table) ->
          entry_at (_cache self) mib' table' = Some old ->
          entry_at c' mib' table' = Some old)
  /\ (cache_enabled self = false -> c' = _cache self).
Proof.
  intros H [oid Hp].
  destruct (get_table_cases w self mib table allow q) as [(r & _ & Hc)|[_ Hl]].
  { rewrite Hc in H. inversion H; subst. destruct Hp. }
  rewrite Hl, get_table_forced in H.
  destruct (live_query w self mib table) as [evs' [[td t]|e]] eqn:L; [|inversion H].
  assert (Ht : t = query_clock w).
  { apply live_query_ok in L as [_ L]. revert L. unfold query_device.
    destruct (negb (dict_has mib (mibs self))); [discriminate|].
    intros L. apply bind_ok in L as (? & objects & ? & _ & L & _).
    destruct (negb (dict_has table objects)); [discriminate|].
    apply bind_ok in L as (? & ? & ? & _ & L & _).
    apply bind_ok in L as (? & ? & ? & _ & L & _).
    apply bind_ok in L as (? & ? & ? & _ & L & _).
    apply bind_ok in L as (? & ? & ? & _ & L & _).
    inversion L. reflexivity. }
  inversion H; subst. unfold update_cache. split.
  - intros ->. split.
    + apply entry_at_store_same.
    + intros mib' table' old Hne Hold. apply store_entry_frame; assumption.
  - intros ->. reflexivity.
Qed.

(** Every entry of a cache that only [get_table] wrote has its three
    fields. *)
Lemma get_table_keeps_complete w self mib table allow q :
  (forall mib' table' e, entry_at (_cache self) mib' table' = Some e -> complete e) ->
  forall mib' table' e,
    entry_at (fst (get_table w self mib table allow q)) mib' table' = Some e ->
    complete e.
Proof.
  intros Hc mib' table' e. unfold get_table.
  destruct (cached_data self mib table allow (now w)); [apply Hc|].
  destruct (live_query w self mib table) as [evs [[td t]|e']]; [|apply Hc].
  simpl. unfold update_cache. destruct (cache_enabled self); [|apply Hc].
  intros H. apply store_entry_entries in H as [->|H]; [|exact (Hc _ _ _ H)].
  exists q, t, td. reflexivity.
Qed.

(** C3. A call that raises, whatever it raises, leaves the cache map as it
    was. *)
Theorem get_table_error_keeps_cache (w : world) (self : snmp_cache) (mib table : string)
    (allow : bool) (q : Z) (c' : gmap string (gmap string cache_entry))
    (evs : list event) (e : exn) :
  get_table w self mib table allow q = (c', (evs, Raise e)) ->
  c' = _cache self.
Proof.
  unfold get_table.
  destruct (cached_data self mib table allow (now w)); [intros H; inversion H|].
  destruct (live_query w self mib table) as [evs' [[td t]|e']];
    intros H; inversion H; reflexivity.
Qed.

(** ** The row loop *)

Lemma resolve_rows_length mibs mib table t raw_rows : forall acc evs table_data,
  resolve_rows mibs mib table t raw_rows acc = (evs, Ok table_data) ->
  length table_data = (length acc + length raw_rows)%nat.
Proof.
  induction raw_rows as [|row rest IH]; simpl; intros acc evs table_data H.
  - inversion H; subst. lia.
  - apply bind_ok in H as (e1 & table_row & e2 & _ & H & _).
    apply IH in H. rewrite H, length_app. simpl. lia.
Qed.

(** The loop completes exactly when every row resolves, and then it has
    appended the resolved rows in order. *)
Lemma resolve_rows_each mibs mib table t raw_rows : forall acc evs table_data,
  resolve_rows mibs mib table t raw_rows acc = (evs, Ok table_data) ->
  exists produced,
    table_data = (acc ++ produced)%list
    /\ Forall2 (fun row table_row =>
                  snd (resolve_row mibs mib table t row) = Ok table_row)
               raw_rows produced.
Proof.
  induction raw_rows as [|row rest IH]; simpl; intros acc evs table_data H.
  - inversion H; subst. exists []. rewrite app_nil_r. split; constructor.
  - apply bind_ok in H as (e1 & table_row & e2 & Hrow & H & _).
    apply IH in H as (produced & -> & HF).
    exists (table_row :: produced). rewrite <- app_assoc. split; [reflexivity|].
    constructor; [rewrite Hrow; reflexivity | exact HF].
Qed.

Lemma resolve_rows_total mibs mib table t raw_rows : forall acc,
  Forall (fun row => exists table_row,
            snd (resolve_row mibs mib table t row) = Ok table_row) raw_rows ->
  exists evs table_data, resolve_rows mibs mib table t raw_rows acc = (evs, Ok table_data).
Proof.
  induction raw_rows as [|row rest IH]; simpl; intros acc HF.
  - exists [], acc. reflexivity.
  - inversion HF as [|? ? [table_row Hrow] Hrest]; subst.
    destruct (resolve_row mibs mib table t row) as [e1 r] eqn:E. simpl in Hrow. subst r.
    destruct (IH (acc ++ [table_row])%list Hrest) as (e2 & td & Htd).
    exists (e1 ++ e2)%list, td. unfold bind. rewrite Htd. reflexivity.
Qed.

(** ** Strings *)

#[local] Arguments String.append !s1 s2 : simpl nomatch.

Lemma str_app_assoc (a b c : string) : (a ++ b) ++ c = a ++ (b ++ c).
Proof. induction a as [|x a IH]; simpl; [reflexivity | rewrite IH; reflexivity]. Qed.

Lemma str_app_nil_r (a : string) : a ++ "" = a.
Proof. induction a as [|x a IH]; simpl; [reflexivity | rewrite IH; reflexivity]. Qed.

Lemma split_on_nonempty sep s : split_on sep s <> [].
Proof.
  destruct s as [|c s]; simpl; [discriminate|].
  destruct (Ascii.eqb c sep); [discriminate|].
  destruct (split_on sep s); discriminate.
Qed.

(** No part of a split holds the separator. *)
Lemma split_on_no_sep sep s : Forall (fun p => has_char sep p = false) (split_on sep s).
Proof.
  induction s as [|c s IH]; simpl.
  - constructor; [reflexivity|constructor].
  - destruct (Ascii.eqb c sep) eqn:E.
    + constructor; [reflexivity|exact IH].
    + destruct (split_on sep s) as [|w ws]; [constructor; [simpl; rewrite E; reflexivity|constructor]|].
      inversion IH; subst. constructor; [simpl; rewrite E; assumption|assumption].
Qed.

Lemma split_on_app_no_sep sep p s :
  has_char sep p = false ->
  split_on sep (p ++ String sep s) = p :: split_on sep s.
Proof.
  induction p as [|c p IH]; simpl; intros H.
  - rewrite Ascii.eqb_refl. reflexivity.
  - apply orb_false_iff in H as [Hc Hp]. rewrite Hc, (IH Hp). reflexivity.
Qed.

Lemma split_on_single sep p : has_char sep p = false -> split_on sep p = [p].
Proof.
  induction p as [|c p IH]; simpl; intros H; [reflexivity|].
  apply orb_false_iff in H as [Hc Hp]. rewrite Hc, (IH Hp). reflexivity.
Qed.

(** Splitting a join gives the parts back. *)
Lemma split_join sep parts :
  parts <> [] ->
  Forall (fun p => has_char sep p = false) parts ->
  split_on sep (join (String sep EmptyString) parts) = parts.
Proof.
  induction parts as [|p ps IH]; [congruence|]. intros _ HF.
  inversion HF as [|? ? Hp Hps]; subst.
  destruct ps as [|p' ps'].
  - simpl. apply split_on_single. exact Hp.
  - change (join (String sep "") (p :: p' :: ps'))
      with (p ++ String sep "" ++ join (String sep "") (p' :: ps')).
    change (String sep "" ++ join (String sep "") (p' :: ps'))
      with (String sep (join (String sep "") (p' :: ps'))).
    rewrite split_on_app_no_sep by exact Hp.
    rewrite IH; [reflexivity|discriminate|exact Hps].
Qed.

Lemma Forall_slice {A} (P : A -> Prop) lo n (l : list A) :
  Forall P l -> Forall P (slice lo n l).
Proof.
  intros H. unfold slice. apply Forall_take, Forall_drop, H.
Qed.

Lemma length_slice {A} lo n (l : list A) :
  (lo + n <= length l)%nat -> length (slice lo n l) = n.
Proof.
  intros H. unfold slice. rewrite length_firstn, length_skipn. lia.
Qed.

(** ** [mac_decimal_to_hex] *)

Lemma hex_octet_byte n : 0 <= n < 256 -> hex_octet n = hex2 n.
Proof.
  intros Hn.
  assert (H : forallb (fun i => String.eqb (hex_octet (Z.of_nat i)) (hex2 (Z.of_nat i)))
                (seq 0 256) = true) by (vm_compute; reflexivity).
  rewrite forallb_forall in H.
  specialize (H (Z.to_nat n)). rewrite Z2Nat.id in H by lia.
  apply String.eqb_eq, H, in_seq. lia.
Qed.

Lemma mac_octets_ok octets : forall ns acc,
  Forall2 (fun c n => int_of_str c = Ok n /\ 0 <= n < 256) octets ns ->
  mac_octets octets acc = Ok (acc ++ hex_string ns).
Proof.
  induction octets as [|c cs IH]; intros ns acc HF; inversion HF; subst; simpl.
  - rewrite str_app_nil_r. reflexivity.
  - destruct H1 as [Hc Hn]. rewrite Hc. simpl.
    rewrite (IH _ _ H3), hex_octet_byte, str_app_assoc by exact Hn. reflexivity.
Qed.

Lemma mac_octets_any octets : forall ns acc,
  Forall2 (fun c n => int_of_str c = Ok n) octets ns ->
  mac_octets octets acc = Ok (acc ++ hex_octets ns).
Proof.
  induction octets as [|c cs IH]; intros ns acc HF; inversion HF; subst; simpl.
  - rewrite str_app_nil_r. reflexivity.
  - rewrite H1. simpl. rewrite (IH _ _ H3), str_app_assoc. reflexivity.
Qed.

Lemma length_slice_min {A} lo n (l : list A) :
  length (slice lo n l) = Nat.min n (length l - lo).
Proof. unfold slice. rewrite length_firstn, length_skipn. reflexivity. Qed.

Lemma mac_octets_raise octets : forall acc,
  (exists e, mac_octets octets acc = Raise e)
  <-> Exists (fun c => exists e, int_of_str c = Raise e) octets.
Proof.
  induction octets as [|c cs IH]; intros acc; simpl.
  - split; [intros [e H]; discriminate | intros H; inversion H].
  - destruct (int_of_str c) as [n|e] eqn:E; simpl.
    + rewrite IH. split; [intros H; right; exact H|].
      intros H. inversion H as [? ? [e He]|]; subst; [congruence|assumption].
    + split; [intros _; left; eauto | intros _; eauto].
Qed.

Lemma mac_decimal_to_hex_ok parts ns :
  parts <> [] ->
  Forall (fun p => has_char "." p = false) parts ->
  Forall2 (fun c n => int_of_str c = Ok n /\ 0 <= n < 256) parts ns ->
  mac_decimal_to_hex (join "." parts) = Ok (hex_string ns).
Proof.
  intros Hne Hdots HF. unfold mac_decimal_to_hex.
  rewrite split_join by assumption. apply (mac_octets_ok _ _ "" HF).
Qed.

Lemma mac_decimal_to_hex_raise parts :
  Forall (fun p => has_char "." p = false) parts ->
  (exists e, mac_decimal_to_hex (join "." parts) = Raise e)
  <-> parts = [] \/ Exists (fun c => exists e, int_of_str c = Raise e) parts.
Proof.
  intros Hdots. unfold mac_decimal_to_hex. destruct parts as [|p ps].
  - simpl. split; [intros _; left; reflexivity|intros _; eauto].
  - rewrite split_join by (assumption || discriminate).
    rewrite mac_octets_raise. split; [intros H; right; exact H|].
    intros [H|H]; [discriminate|exact H].
Qed.

(** ** [_mib_table_index] *)

Lemma names_object_resolves mibs table_index module object obj :
  names_object mibs table_index module object obj ->
  index_resolves mibs table_index = Ok true
  /\ py_item table_index "module" = Ok (PStr module)
  /\ py_item table_index "object" = Ok (PStr object)
  /\ mib_object mibs (PStr module) (PStr object) = Ok obj.
Proof.
  intros (ti & content & -> & Hm & Ho & Hc & Hobj).
  unfold index_resolves, mib_object. simpl.
  rewrite Hm, Ho. simpl. unfold dict_has. rewrite Hc. simpl.
  unfold dict_has. rewrite Hobj. auto.
Qed.

Lemma names_nothing_unresolved mibs table_index :
  names_nothing mibs table_index -> index_resolves mibs table_index = Ok false.
Proof.
  intros (ti & module & object & -> & Hm & Ho & [Hc|(content & Hc & Hobj)]);
    unfold index_resolves; simpl; rewrite Hm; simpl; unfold dict_has; rewrite Hc.
  - reflexivity.
  - simpl. rewrite Ho. simpl. unfold dict_has. rewrite Hobj. reflexivity.
Qed.

(** The type of an index object as the decoder reads it: only a syntax of
    class type is looked at, and its type name without regard to case. *)
Lemma index_kind_of_syntax obj syn cls :
  py_item obj "syntax" = Ok (PDict syn) ->
  dict_get "class" syn = Some cls ->
  index_kind_of obj =
  if py_eq cls (PStr "type") then
    match dict_get "type" syn with
    | Some (PStr ty) =>
        Ok (if String.eqb (str_lower ty) "macaddress" then IdxMac
            else if String.eqb (str_lower ty) "inetaddress" then IdxInet
            else IdxInt)
    | Some _ => Raise AttributeError
    | None => Raise KeyError
    end
  else Ok IdxInt.
Proof.
  intros Hsyn Hcls. unfold index_kind_of, syntax_is. rewrite Hsyn. simpl. rewrite Hcls.
  simpl. destruct (py_eq cls (PStr "type")); [|reflexivity].
  destruct (dict_get "type" syn) as [[]|]; try reflexivity. simpl.
  destruct (String.eqb (str_lower s) "macaddress"); [reflexivity|].
  simpl. destruct (String.eqb (str_lower s) "inetaddress"); reflexivity.
Qed.

(** One turn of the loop on a reference that names an object. *)
Lemma index_loop_step mibs mib mib_table value table_index module object obj k rest row pos :
  names_object mibs table_index module object obj ->
  index_kind_of obj = Ok k ->
  index_loop mibs mib mib_table value (table_index :: rest) row pos =
  match index_field value k pos with
  | Ok v => index_loop mibs mib mib_table value rest (dict_set object v row) (pos + width k)
  | Raise e =>
      bind (log_index_error mibs k value table_index mib mib_table e) (fun _ => ret row)
  end.
Proof.
  intros Hn Hk. destruct (names_object_resolves _ _ _ _ _ Hn) as (Hr & Hm & Ho & Hobj).
  cbn [index_loop].
  rewrite (bind_lift_ok _ _ _ Hr), (bind_lift_ok _ _ _ Hm), (bind_lift_ok _ _ _ Ho).
  rewrite (bind_lift_ok _ _ _ Hobj), (bind_lift_ok _ _ _ Hk).
  unfold assign_field. rewrite Ho.
  destruct (index_field value k pos); reflexivity.
Qed.

(** One turn of the loop on a reference that names nothing. *)
Lemma index_loop_skip mibs mib mib_table value table_index rest row pos :
  index_resolves mibs table_index = Ok false ->
  index_loop mibs mib mib_table value (table_index :: rest) row pos =
  index_loop mibs mib mib_table value rest row pos.
Proof. intros H. cbn [index_loop]. rewrite (bind_lift_ok _ _ _ H). reflexivity. Qed.

Lemma mib_table_index_start mibs mib mib_table value row t indices :
  mib_object mibs (PStr mib) (PStr mib_table) = Ok (PDict t) ->
  dict_get "nodetype" t = Some (PStr "row") ->
  dict_get "indices" t = Some (PList indices) ->
  mib_table_index mibs value mib mib_table row
  = index_loop mibs mib mib_table value indices row 0.
Proof.
  intros Ht Hn Hi. unfold mib_table_index.
  rewrite (bind_lift_ok _ _ _ Ht). simpl. rewrite Hn. simpl.
  unfold dict_has. rewrite Hi. simpl. unfold bind.
  destruct (index_loop mibs mib mib_table value indices row 0). reflexivity.
Qed.

(** C5, as the code has it.  On a table row with its list of index
    references the decoder runs over the references in order with the
    cursor at 0.  At a reference that names an object, with the cursor at
    [pos], the field is read from the components at the cursor, as many as
    the type is wide (6, 4 or 1) or as many as are left, and when it is
    read the loop goes on with the next reference and the cursor moved by
    the full width.  With at least as many components left as the type
    takes: a macaddress takes the 6 components at the cursor and, each
    being a decimal byte, assigns their 12 hex digits; an inetaddress takes
    4 components and assigns them joined with dots; any other type takes 1
    component and assigns its integer. *)
Theorem index_decoder_consumes (mibs : pdict) (mib mib_table : string) (s : string)
    (table_index : pyval) (module object : string) (obj : pyval) (k : index_kind)
    (rest : list pyval) (row : pdict) (pos : nat) :
  names_object mibs table_index module object obj ->
  index_kind_of obj = Ok k ->
  (forall t indices r,
     mib_object mibs (PStr mib) (PStr mib_table) = Ok (PDict t) ->
     dict_get "nodetype" t = Some (PStr "row") ->
     dict_get "indices" t = Some (PList indices) ->
     mib_table_index mibs (RStr s) mib mib_table r
     = index_loop mibs mib mib_table (RStr s) indices r 0)
  /\ length (slice pos (width k) (split_on "." s))
     = Nat.min (width k) (length (split_on "." s) - pos)
  /\ index_field (RStr s) k pos
     = match k with
       | IdxMac =>
           get h <- mac_decimal_to_hex (join "." (slice pos (width k) (split_on "." s)));
           Ok (PStr h)
       | IdxInet => Ok (PStr (join "." (slice pos (width k) (split_on "." s))))
       | IdxInt =>
           get z <- int_of_str (join "" (slice pos (width k) (split_on "." s)));
           Ok (PInt z)
       end
  /\ (forall v,
        index_field (RStr s) k pos = Ok v ->
        index_loop mibs mib mib_table (RStr s) (table_index :: rest) row pos
        = index_loop mibs mib mib_table (RStr s) rest (dict_set object v row)
            (pos + width k))
  /\ ((pos + width k <= length (split_on "." s))%nat ->
      length (slice pos (width k) (split_on "." s)) = width k
      /\ match k with
         | IdxMac =>
             forall ns,
               Forall2 (fun c n => int_of_str c = Ok n /\ 0 <= n < 256)
                       (slice pos 6 (split_on "." s)) ns ->
               index_loop mibs mib mib_table (RStr s) (table_index :: rest) row pos
               = index_loop mibs mib mib_table (RStr s) rest
                   (dict_set object (PStr (hex_string ns)) row) (pos + 6)
         | IdxInet =>
             index_loop mibs mib mib_table (RStr s) (table_index :: rest) row pos
             = index_loop mibs mib mib_table (RStr s) rest
                 (dict_set object (PStr (join "." (slice pos 4 (split_on "." s)))) row)
                 (pos + 4)
         | IdxInt =>
             forall c n,
               slice pos 1 (split_on "." s) = [c] ->
               int_of_str c = Ok n ->
               index_loop mibs mib mib_table (RStr s) (table_index :: rest) row pos
               = index_loop mibs mib mib_table (RStr s) rest
                   (dict_set object (PInt n) row) (pos + 1)
         end).
Proof.
  intros Hn Hk. split; [|split; [|split; [|split]]].
  - intros t indices r. apply mib_table_index_start.
  - apply length_slice_min.
  - destruct k; reflexivity.
  - intros v Hv.
    rewrite (index_loop_step mibs mib mib_table (RStr s) _ _ _ _ _ rest row pos Hn Hk), Hv.
    reflexivity.
  - intros Hlen. split; [apply length_slice; exact Hlen|].
    pose proof (index_loop_step mibs mib mib_table (RStr s) _ _ _ _ _ rest row pos Hn Hk)
      as Hstep.
    destruct k; simpl in Hlen.
    + intros ns HF. rewrite Hstep. unfold index_field. simpl.
      rewrite (mac_decimal_to_hex_ok _ ns); [reflexivity| | |exact HF].
      * intros E. apply (f_equal (@length string)) in E.
        rewrite length_slice in E by exact Hlen. discriminate.
      * apply Forall_slice, split_on_no_sep.
    + rewrite Hstep. reflexivity.
    + intros c n Hc Hint. rewrite Hstep. unfold index_field. simpl.
      rewrite Hc. simpl. rewrite Hint. reflexivity.
Qed.

(** The loop depends on the references after the first only through the
    loop on them. *)
Lemma index_loop_cons_ext mibs mib mib_table value x l1 l2 :
  (forall row pos, index_loop mibs mib mib_table value l1 row pos
                   = index_loop mibs mib mib_table value l2 row pos) ->
  forall row pos, index_loop mibs mib mib_table value (x :: l1) row pos
                  = index_loop mibs mib mib_table value (x :: l2) row pos.
Proof.
  intros H row pos. cbn [index_loop].
  destruct (index_resolves mibs x) as [[|]|e]; [| |reflexivity];
    rewrite !bind_lift_Ok; [|apply H].
  destruct (py_item x "module") as [m|e]; [|reflexivity]. rewrite !bind_lift_Ok.
  destruct (py_item x "object") as [o|e]; [|reflexivity]. rewrite !bind_lift_Ok.
  destruct (mib_object mibs m o) as [obj|e]; [|reflexivity]. rewrite !bind_lift_Ok.
  destruct (index_kind_of obj) as [k|e]; [|reflexivity]. rewrite !bind_lift_Ok.
  destruct (rbind (index_field value k pos) _); [apply H|reflexivity].
Qed.

(** C10. A reference whose module is not loaded, or whose object the module
    does not define, leaves no trace: the decoder gives, on any row and
    from any cursor, what it gives on the specification without that
    reference.  Nothing is assigned for it, logged or raised, and the
    references after it are decoded from the cursor the ones before it
    left. *)
Theorem index_decoder_skips_unresolved (mibs : pdict) (mib mib_table : string)
    (value : rawval) (before : list pyval) (table_index : pyval) (after : list pyval)
    (row : pdict) (pos : nat) :
  names_nothing mibs table_index ->
  index_loop mibs mib mib_table value (before ++ table_index :: after) row pos
  = index_loop mibs mib mib_table value (before ++ after) row pos.
Proof.
  intros Hn. apply names_nothing_unresolved in Hn.
  revert row pos. induction before as [|x before IH]; intros row pos.
  - apply index_loop_skip. exact Hn.
  - rewrite <- !app_comm_cons. apply index_loop_cons_ext. exact IH.
Qed.

Lemma index_field_inet_total s pos :
  index_field (RStr s) IdxInet pos
  = Ok (PStr (join "." (slice pos 4 (split_on "." s)))).
Proof. reflexivity. Qed.

Lemma index_field_mac_raise s pos :
  (exists e, index_field (RStr s) IdxMac pos = Raise e)
  <-> slice pos 6 (split_on "." s) = []
      \/ Exists (fun c => exists e, int_of_str c = Raise e) (slice pos 6 (split_on "." s)).
Proof.
  rewrite <- mac_decimal_to_hex_raise by apply Forall_slice, split_on_no_sep.
  unfold index_field. simpl.
  destruct (mac_decimal_to_hex (join "." (slice pos 6 (split_on "." s)))) as [x|e]; simpl.
  - split; intros [e H]; discriminate.
  - split; intros _; eauto.
Qed.

(** C6, as the code has it.  When decoding a macaddress or inetaddress index
    field raises, the decoder logs one error with the raw value, the field
    and the index specification, and returns the row as the fields before
    left it: it decodes no further field and raises nothing.  When the field
    is read, it is assigned and the loop goes on with the cursor moved by
    the width.  On an ASCII string an inetaddress field never raises, and a
    macaddress field raises exactly when no component is left at the cursor
    or one of the components it takes is not an integer literal; fewer
    components than the width are no failure: the field is read from the
    components that are left, each an integer of any size. *)
Theorem index_decoder_address_error (mibs : pdict) (mib mib_table : string)
    (value : rawval) (table_index : pyval) (module object : string) (obj : pyval)
    (k : index_kind) (rest : list pyval) (row : pdict) (pos : nat) (t spec : pyval) :
  names_object mibs table_index module object obj ->
  index_kind_of obj = Ok k ->
  k <> IdxInt ->
  mib_object mibs (PStr mib) (PStr mib_table) = Ok t ->
  py_item t "indices" = Ok spec ->
  (forall s, value = RStr s -> is_ascii s = true) ->
  (forall e,
     index_field value k pos = Raise e ->
     index_loop mibs mib mib_table value (table_index :: rest) row pos
     = ([ErrIndex value (PStr object) spec e], Ok row))
  /\ (forall v,
        index_field value k pos = Ok v ->
        index_loop mibs mib mib_table value (table_index :: rest) row pos
        = index_loop mibs mib mib_table value rest (dict_set object v row)
            (pos + width k))
  /\ (forall s, value = RStr s -> k = IdxInet ->
      index_field value k pos = Ok (PStr (join "." (slice pos 4 (split_on "." s)))))
  /\ (forall s, value = RStr s -> k = IdxMac ->
      ((exists e, index_field value k pos = Raise e)
       <-> slice pos 6 (split_on "." s) = []
           \/ Exists (fun c => exists e, int_of_str c = Raise e)
                (slice pos 6 (split_on "." s)))
      /\ (forall ns,
            slice pos 6 (split_on "." s) <> [] ->
            Forall2 (fun c n => int_of_str c = Ok n) (slice pos 6 (split_on "." s)) ns ->
            index_field value k pos = Ok (PStr (hex_octets ns)))).
Proof.
  intros Hn Hk Hk' Ht Hspec _. split; [|split; [|split]].
  - intros e He.
    rewrite (index_loop_step _ _ _ _ _ _ _ _ _ _ _ _ Hn Hk), He.
    destruct (names_object_resolves _ _ _ _ _ Hn) as (_ & _ & Ho & _).
    unfold log_index_error. rewrite (bind_lift_ok _ _ _ Ho).
    assert (Hl : logged_spec mibs k mib mib_table = Ok spec).
    { destruct k; [| |congruence]; unfold logged_spec; rewrite Ht; exact Hspec. }
    rewrite (bind_lift_ok _ _ _ Hl). reflexivity.
  - intros v Hv. rewrite (index_loop_step _ _ _ _ _ _ _ _ _ _ _ _ Hn Hk), Hv. reflexivity.
  - intros s -> ->. apply index_field_inet_total.
  - intros s -> ->. split; [apply index_field_mac_raise|].
    intros ns Hne HF. unfold index_field, mac_decimal_to_hex. cbn [raw_split rbind].
    rewrite split_join;
      [|exact Hne|apply Forall_slice, split_on_no_sep].
    rewrite (mac_octets_any _ ns "" HF). reflexivity.
Qed.

(** The integer branch formats its record from [self.mibs[mib]['mib_table']]:
    when the MIB has no object of that name, a failure to decode the field
    raises [KeyError] out of the decoder and no error is logged. *)
Lemma index_decoder_integer_error_raises mibs mib mib_table value table_index
    module object obj rest row pos content e :
  names_object mibs table_index module object obj ->
  index_kind_of obj = Ok IdxInt ->
  dict_get mib mibs = Some (PDict content) ->
  dict_get "mib_table" content = None ->
  (forall s, value = RStr s -> is_ascii s = true) ->
  index_field value IdxInt pos = Raise e ->
  index_loop mibs mib mib_table value (table_index :: rest) row pos = ([], Raise KeyError).
Proof.
  intros Hn Hk Hc Hmt _ He.
  rewrite (index_loop_step _ _ _ _ _ _ _ _ _ _ _ _ Hn Hk), He.
  destruct (names_object_resolves _ _ _ _ _ Hn) as (_ & _ & Ho & _).
  unfold log_index_error. rewrite (bind_lift_ok _ _ _ Ho).
  unfold logged_spec, mib_object. simpl. rewrite Hc. simpl. rewrite Hmt. reflexivity.
Qed.

(** ** [__format_snmp_field] *)





(** ** Dicts *)

Lemma dict_get_set_same {A} k (v : A) d : dict_get k (dict_set k v d) = Some v.
Proof.
  induction d as [|[k' v'] d IH]; simpl.
  - rewrite String.eqb_refl. reflexivity.
  - destruct (String.eqb k k') eqn:E; simpl; rewrite E; [reflexivity|exact IH].
Qed.

Lemma dict_get_set_other {A} k k' (v : A) d :
  k <> k' -> dict_get k' (dict_set k v d) = dict_get k' d.
Proof.
  intros Hne. induction d as [|[k0 v0] d IH]; simpl.
  - destruct (String.eqb_spec k' k); [congruence|reflexivity].
  - destruct (String.eqb_spec k k0) as [->|Hk]; simpl.
    + destruct (String.eqb_spec k' k0); [congruence|reflexivity].
    + destruct (String.eqb k' k0); [reflexivity|exact IH].
Qed.

Lemma keys_dict_set {A} k (v old : A) d :
  dict_get k d = Some old -> keys (dict_set k v d) = keys d.
Proof.
  induction d as [|[k0 v0] d IH]; simpl; [discriminate|].
  destruct (String.eqb k k0); [reflexivity|].
  intros H. unfold keys in *. simpl. rewrite (IH H). reflexivity.
Qed.

Lemma dict_get_In {A} k (v : A) d : dict_get k d = Some v -> In (k, v) d.
Proof.
  induction d as [|[k0 v0] d IH]; simpl; [discriminate|].
  destruct (String.eqb_spec k k0) as [->|].
  - intros H. inversion H. left. reflexivity.
  - intros H. right. exact (IH H).
Qed.

Lemma dict_get_keys {A} k (d : list (string * A)) :
  In k (keys d) -> exists v, dict_get k d = Some v.
Proof.
  induction d as [|[k0 v0] d IH]; simpl; [intros []|].
  destruct (String.eqb_spec k k0) as [->|Hne]; [eauto|].
  intros [H|H]; [congruence|exact (IH H)].
Qed.

Lemma dict_get_some_keys {A} k (v : A) d : dict_get k d = Some v -> In k (keys d).
Proof.
  intros H. apply dict_get_In in H. unfold keys. apply (in_map fst) in H. exact H.
Qed.

Lemma split_at_unique (a : string) l :
  List.NoDup l -> In a l -> exists l1 l2, l = (l1 ++ a :: l2)%list /\ ~ In a l1 /\ ~ In a l2.
Proof.
  intros Hnd Hin. apply in_split in Hin as (l1 & l2 & ->).
  exists l1, l2. split; [reflexivity|].
  apply NoDup_remove_2 in Hnd. rewrite in_app_iff in Hnd. tauto.
Qed.

Lemma py_item_ok v k x :
  py_item v k = Ok x -> exists d, v = PDict d /\ dict_get k d = Some x.
Proof.
  destruct v; try discriminate. simpl.
  destruct (dict_get k d) eqn:E; [|discriminate].
  intros H. inversion H; subst. eauto.
Qed.

(** ** The resolution pass *)

Lemma obj_field_set_syntax mibs M k v M' k' f :
  f <> "syntax" ->
  obj_field (set_syntax mibs M k v) M' k' f = obj_field mibs M' k' f.
Proof.
  intros Hf. unfold set_syntax.
  destruct (dict_get M mibs) as [[| | | | | | | | |c]|] eqn:Ec; try reflexivity.
  destruct (dict_get k c) as [[| | | | | | | | |o]|] eqn:Eo; try reflexivity.
  unfold obj_field. destruct (String.eqb_spec M M') as [<-|HM].
  - rewrite dict_get_set_same, Ec. destruct (String.eqb_spec k k') as [<-|Hk].
    + rewrite dict_get_set_same, Eo. apply dict_get_set_other. congruence.
    + rewrite dict_get_set_other by exact Hk. reflexivity.
  - rewrite dict_get_set_other by exact HM. reflexivity.
Qed.

(** What a step of the import loop can do to the store: nothing, or rebind
    the syntax the object already has. *)
Lemma import_step_writes M k mibs import_key mibs' :
  import_step M k mibs import_key = Ok mibs' ->
  mibs' = mibs
  \/ exists c o old v,
       dict_get M mibs = Some (PDict c) /\ dict_get k c = Some (PDict o)
       /\ dict_get "syntax" o = Some old /\ mibs' = set_syntax mibs M k v.
Proof.
  unfold import_step. destruct (skipped import_key).
  { intros H. inversion H. left. reflexivity. }
  destruct (py_item (PDict mibs) M) as [content|] eqn:E1; [|discriminate].
  apply py_item_ok in E1 as (? & Hm & E1). inversion Hm; subst. clear Hm. simpl.
  destruct (py_item content k) as [item|] eqn:E2; [|discriminate].
  apply py_item_ok in E2 as (c & -> & E2). simpl.
  destruct (dict_get "imports" c) as [imports|]; simpl.
  2:{ discriminate. }
  destruct (py_item imports import_key) as [import_item|]; [|discriminate]. simpl.
  destruct (py_item item "syntax") as [syn|] eqn:E3; [|discriminate].
  apply py_item_ok in E3 as (o & -> & E3). simpl.
  destruct (py_get syn "type" PNone) as [t|]; [|discriminate]. simpl.
  destruct (py_in t import_item) as [[|]|]; simpl; try discriminate.
  2:{ intros H. inversion H. left. reflexivity. }
  destruct (dict_get import_key x) as [source|]; [|discriminate]. simpl.
  destruct (py_get_method source) as [[]|]; [|discriminate]. simpl.
  destruct (py_item syn "type") as [t'|]; [|discriminate]. simpl.
  destruct (py_get_val source t' (PDict [])) as [def|]; [|discriminate]. simpl.
  destruct (py_in (PStr "type") def) as [[|]|]; simpl; try discriminate.
  2:{ intros H. inversion H. left. reflexivity. }
  destruct (py_item_val source t') as [def'|]; [|discriminate]. simpl.
  destruct (py_item def' "type") as [v|]; [|discriminate]. simpl.
  intros H. inversion H. right. exists c, o, syn, v. auto.
Qed.

Lemma for_each_inv {A} (Inv : pdict -> Prop) (step : pdict -> A -> result pdict) l :
  (forall m a m', In a l -> step m a = Ok m' -> Inv m -> Inv m') ->
  forall m m' r, for_each step l m = (m', r) -> Inv m -> Inv m'.
Proof.
  induction l as [|a l IH]; simpl; intros Hstep m m' r H Hm.
  - inversion H; subst. exact Hm.
  - destruct (step m a) as [m1|e] eqn:E.
    + apply (IH (fun m a m' Hin => Hstep m a m' (or_intror Hin)) _ _ _ H).
      apply (Hstep m a m1); auto.
    + inversion H; subst. exact Hm.
Qed.

Lemma for_each_loop_inv {A} (Inv : pdict -> Prop) (body : pdict -> A -> pdict * result unit) l :
  (forall m a m' r, In a l -> body m a = (m', r) -> Inv m -> Inv m') ->
  forall m m' r, for_each_loop body l m = (m', r) -> Inv m -> Inv m'.
Proof.
  induction l as [|a l IH]; simpl; intros Hbody m m' r H Hm.
  - inversion H; subst. exact Hm.
  - destruct (body m a) as [m1 [[]|e]] eqn:E.
    + apply (IH (fun m a m' r Hin => Hbody m a m' r (or_intror Hin)) _ _ _ H).
      apply (Hbody m a m1 (Ok tt)); auto.
    + inversion H; subst. apply (Hbody m a m' (Raise e)); auto.
Qed.

Lemma for_each_loop_app {A} (body : pdict -> A -> pdict * result unit) l1 l2 m m' :
  for_each_loop body (l1 ++ l2)%list m = (m', Ok tt) ->
  exists m1, for_each_loop body l1 m = (m1, Ok tt)
             /\ for_each_loop body l2 m1 = (m', Ok tt).
Proof.
  revert m. induction l1 as [|a l1 IH]; simpl; intros m H.
  - exists m. auto.
  - destruct (body m a) as [m1 [[]|e]]; [exact (IH _ H)|discriminate].
Qed.

Lemma for_each_fixed {A} (step : pdict -> A -> result pdict) l m :
  (forall a, In a l -> step m a = Ok m) -> for_each step l m = (m, Ok tt).
Proof.
  induction l as [|a l IH]; simpl; intros H; [reflexivity|].
  rewrite (H a) by (left; reflexivity). apply IH. intros b Hb. apply H. right. exact Hb.
Qed.

Lemma for_each_loop_fixed {A} (body : pdict -> A -> pdict * result unit) l m :
  (forall a, In a l -> body m a = (m, Ok tt)) -> for_each_loop body l m = (m, Ok tt).
Proof.
  induction l as [|a l IH]; simpl; intros H; [reflexivity|].
  rewrite (H a) by (left; reflexivity). apply IH. intros b Hb. apply H. right. exact Hb.
Qed.

Lemma for_each_app_fixed {A} (step : pdict -> A -> result pdict) l1 l2 m :
  (forall a, In a l1 -> step m a = Ok m) ->
  for_each step (l1 ++ l2)%list m = for_each step l2 m.
Proof.
  induction l1 as [|a l1 IH]; simpl; intros H; [reflexivity|].
  rewrite (H a) by (left; reflexivity). apply IH. intros b Hb. apply H. right. exact Hb.
Qed.

Section OneReference.

(** An object [x] of MIB [A] refers to the type [Foo]; [A] imports [Foo]
    from [B], which defines it with the type field [T]. *)
Variables (A x B Foo : string) (imps : pdict) (okeys : list string) (decl T : pyval).

Hypothesis imports_no_syntax : dict_get "syntax" imps = None.
Hypothesis imports_B : dict_get B imps = Some decl.
Hypothesis B_not_skipped : skipped B = false.
Hypothesis B_declares : py_in (PStr Foo) decl = Ok true.
Hypothesis imports_unique : List.NoDup (keys imps).

Local Abbreviation tracking := (tracks A x B Foo imps okeys T).

Lemma tracks_stable s m M k c o old v :
  (M, k) <> (A, x) ->
  dict_get M m = Some (PDict c) ->
  dict_get k c = Some (PDict o) ->
  dict_get "syntax" o = Some old ->
  tracking s m -> tracking s (set_syntax m M k v).
Proof using imports_no_syntax.
  intros Hne Hc Ho Hold (ca & it & HA & Hkeys & Hx & Hcls & Hsyn & Himp & HT).
  assert (HT' : obj_field (set_syntax m M k v) B Foo "type" = Some T).
  { rewrite obj_field_set_syntax by discriminate. exact HT. }
  assert (Hset : set_syntax m M k v
                 = dict_set M (PDict (dict_set k (PDict (dict_set "syntax" v o)) c)) m).
  { unfold set_syntax. rewrite Hc, Ho. reflexivity. }
  destruct (String.eqb_spec M A) as [->|HM].
  - rewrite HA in Hc. inversion Hc; subst c. clear Hc.
    assert (Hk : k <> x) by congruence.
    exists (dict_set k (PDict (dict_set "syntax" v o)) ca), it.
    split; [rewrite Hset; apply dict_get_set_same|].
    rewrite (keys_dict_set _ _ _ _ Ho), !dict_get_set_other by exact Hk.
    repeat split; try assumption.
    destruct (String.eqb_spec k "imports") as [->|Hki].
    + rewrite Himp in Ho. injection Ho as Ho'. rewrite <- Ho' in Hold.
      rewrite imports_no_syntax in Hold. discriminate.
    + rewrite dict_get_set_other by exact Hki. exact Himp.
  - exists ca, it. split; [rewrite Hset, dict_get_set_other by exact HM; exact HA|].
    repeat split; assumption.
Qed.

Lemma import_step_stable s M k m ik m' :
  (M, k) <> (A, x) ->
  import_step M k m ik = Ok m' -> tracking s m -> tracking s m'.
Proof using imports_no_syntax.
  intros Hne H Hm.
  apply import_step_writes in H as [->|(c & o & old & v & Hc & Ho & Hold & ->)];
    [exact Hm|].
  apply (tracks_stable s m M k c o old v); assumption.
Qed.

Lemma object_step_stable s M k m m' r :
  (M, k) <> (A, x) ->
  object_step M m k = (m', r) -> tracking s m -> tracking s m'.
Proof using imports_no_syntax.
  intros Hne. unfold object_step.
  destruct (imports_to_try m M k) as [iks|e].
  - apply for_each_inv. intros m1 ik m2 _. apply import_step_stable. exact Hne.
  - intros H. inversion H; subst. auto.
Qed.

Lemma object_loop_stable s M l m m' r :
  (M <> A \/ ~ In x l) ->
  for_each_loop (object_step M) l m = (m', r) -> tracking s m -> tracking s m'.
Proof using imports_no_syntax.
  intros Hne. apply for_each_loop_inv. intros m1 k m2 r' Hin.
  apply object_step_stable. intros E. inversion E; subst. tauto.
Qed.

Lemma mib_step_stable s M m m' r :
  M <> A -> mib_step m M = (m', r) -> tracking s m -> tracking s m'.
Proof using imports_no_syntax.
  intros Hne. unfold mib_step.
  destruct (rbind _ _) as [objects|e].
  - apply object_loop_stable. left. exact Hne.
  - intros H. inversion H; subst. auto.
Qed.

Lemma mib_loop_stable s l m m' r :
  ~ In A l ->
  for_each_loop mib_step l m = (m', r) -> tracking s m -> tracking s m'.
Proof using imports_no_syntax.
  intros Hni. apply for_each_loop_inv. intros m1 M m2 r' Hin.
  apply mib_step_stable. intros ->. contradiction.
Qed.

(** No other import entry that is a resolution source declares [Foo], or
    the type that [T] names. *)
Hypothesis others_miss :
  forall k v, In (k, v) imps -> k <> B -> skipped k = false ->
    py_in (PStr Foo) v = Ok false
    /\ exists t', py_get T "type" PNone = Ok t' /\ py_in t' v = Ok false.

Lemma import_step_miss s m k :
  tracking s m ->
  In k (keys imps) ->
  (forall v, In (k, v) imps -> skipped k = false ->
     exists t', py_get s "type" PNone = Ok t' /\ py_in t' v = Ok false) ->
  import_step A x m k = Ok m.
Proof using Type.
  intros (ca & it & HA & _ & Hx & _ & Hsyn & Himp & _) Hin Hmiss.
  unfold import_step. destruct (skipped k) eqn:Hsk; [reflexivity|].
  destruct (dict_get_keys _ _ Hin) as [v Hv].
  destruct (Hmiss v (dict_get_In _ _ _ Hv) eq_refl) as (t' & Ht' & Hno).
  simpl. rewrite HA. simpl. rewrite Hx. simpl. rewrite Himp. simpl.
  rewrite Hv. simpl. rewrite Hsyn. simpl. rewrite Ht'. simpl. rewrite Hno.
  reflexivity.
Qed.

Lemma import_step_hit syn m :
  tracking (PDict syn) m ->
  dict_get "type" syn = Some (PStr Foo) ->
  import_step A x m B = Ok (set_syntax m A x T) /\ tracking T (set_syntax m A x T).
Proof using imports_no_syntax imports_B B_not_skipped B_declares.
  intros (ca & it & HA & Hkeys & Hx & Hcls & Hsyn & Himp & HT) Hty.
  assert (HT' : obj_field (set_syntax m A x T) B Foo "type" = Some T).
  { rewrite obj_field_set_syntax by discriminate. exact HT. }
  assert (Hset : set_syntax m A x T
                 = dict_set A (PDict (dict_set x (PDict (dict_set "syntax" T it)) ca)) m).
  { unfold set_syntax. rewrite HA, Hx. reflexivity. }
  split.
  - unfold import_step. rewrite B_not_skipped.
    simpl. rewrite HA. simpl. rewrite Hx. simpl. rewrite Himp. simpl.
    rewrite imports_B. simpl. rewrite Hsyn. simpl. rewrite Hty. simpl.
    rewrite B_declares. simpl.
    unfold obj_field in HT.
    destruct (dict_get B m) as [[| | | | | | | | |cb]|]; try discriminate.
    destruct (dict_get Foo cb) as [[| | | | | | | | |def]|] eqn:Edef; try discriminate.
    simpl. rewrite Edef. simpl. unfold dict_has. rewrite HT. simpl. reflexivity.
  - exists (dict_set x (PDict (dict_set "syntax" T it)) ca), (dict_set "syntax" T it).
    rewrite Hset, !dict_get_set_same, (keys_dict_set _ _ _ _ Hx).
    rewrite dict_get_set_other by discriminate.
    repeat split; try assumption.
    + destruct (String.eqb_spec x "imports") as [E|Hxi].
      * rewrite E, Himp in Hx. injection Hx as Hx'. rewrite <- Hx' in Hsyn.
        rewrite imports_no_syntax in Hsyn. discriminate.
      * rewrite dict_get_set_other by exact Hxi. exact Himp.
    + rewrite <- Hset. exact HT'.
Qed.

(** The step of the pass at [x]: it completes, and [x] has the syntax [T]. *)
Lemma object_step_resolves syn m :
  tracking (PDict syn) m ->
  dict_get "class" syn = Some (PStr "type") ->
  dict_get "type" syn = Some (PStr Foo) ->
  exists m', object_step A m x = (m', Ok tt) /\ tracking T m'.
Proof using imports_no_syntax imports_B B_not_skipped B_declares imports_unique others_miss.
  intros Hm Hcls Hty.
  assert (Htry : imports_to_try m A x = Ok (keys imps)).
  { destruct Hm as (ca & it & HA & _ & Hx & Hc & Hsyn & Himp & _).
    unfold imports_to_try. simpl. rewrite HA. simpl. rewrite Hx. simpl.
    unfold is_type_reference. simpl. rewrite Hc. simpl. rewrite Hsyn. simpl. rewrite Hcls. simpl.
    rewrite Himp. reflexivity. }
  unfold object_step. rewrite Htry.
  destruct (split_at_unique B (keys imps) imports_unique
              (dict_get_some_keys _ _ _ imports_B)) as (l1 & l2 & Hsplit & Hl1 & Hl2).
  assert (Hother : forall k, In k l1 \/ In k l2 -> In k (keys imps) /\ k <> B).
  { intros k Hk. split.
    - rewrite Hsplit, in_app_iff. simpl. tauto.
    - intros ->. tauto. }
  rewrite Hsplit, for_each_app_fixed.
  2:{ intros k Hk. destruct (Hother k (or_introl Hk)) as [Hin HkB].
      apply (import_step_miss (PDict syn)); [exact Hm|exact Hin|].
      intros v Hv Hsk. exists (PStr Foo). simpl. rewrite Hty. split; [reflexivity|].
      apply (others_miss k v Hv HkB Hsk). }
  destruct (import_step_hit syn m Hm Hty) as [Hhit Hm'].
  simpl. rewrite Hhit. exists (set_syntax m A x T). split; [|exact Hm'].
  apply for_each_fixed. intros k Hk. destruct (Hother k (or_intror Hk)) as [Hin HkB].
  apply (import_step_miss T); [exact Hm'|exact Hin|].
  intros v Hv Hsk. apply (others_miss k v Hv HkB Hsk).
Qed.

(** The whole pass, when it completes, leaves [x] with the syntax [T]. *)
Lemma resolve_pass_resolves syn m0 m' :
  List.NoDup (keys m0) ->
  List.NoDup okeys ->
  tracking (PDict syn) m0 ->
  dict_get "class" syn = Some (PStr "type") ->
  dict_get "type" syn = Some (PStr Foo) ->
  resolve_pass m0 = (m', Ok tt) ->
  tracking T m'.
Proof using imports_no_syntax imports_B B_not_skipped B_declares imports_unique others_miss.
  intros Hnames Hokeys Hm0 Hcls Hty Hpass.
  assert (HA : In A (keys m0)).
  { destruct Hm0 as (ca & it & HA & _). exact (dict_get_some_keys _ _ _ HA). }
  destruct (split_at_unique A _ Hnames HA) as (n1 & n2 & Hsplit & Hn1 & Hn2).
  unfold resolve_pass in Hpass. rewrite Hsplit in Hpass.
  apply for_each_loop_app in Hpass as (m1 & Hpre & Hpass).
  pose proof (mib_loop_stable _ _ _ _ _ Hn1 Hpre Hm0) as Hm1.
  simpl in Hpass.
  destruct (mib_step m1 A) as [m2 [[]|e]] eqn:EA; [|discriminate].
  apply (mib_loop_stable _ _ _ _ _ Hn2 Hpass).
  clear Hpass Hpre Hm0. revert EA. unfold mib_step.
  destruct Hm1 as (ca & it & HA1 & Hkeys & Hx & Hrest).
  simpl. rewrite HA1. simpl. rewrite Hkeys.
  assert (Hm1 : tracking (PDict syn) m1) by (exists ca, it; auto).
  assert (Hxin : In x okeys).
  { rewrite <- Hkeys. exact (dict_get_some_keys _ _ _ Hx). }
  destruct (split_at_unique x _ Hokeys Hxin) as (o1 & o2 & Hsplit' & Ho1 & Ho2).
  intros EA. rewrite Hsplit' in EA. apply for_each_loop_app in EA as (m1a & Hpre & EA).
  assert (Hm1a : tracking (PDict syn) m1a).
  { apply (object_loop_stable _ _ _ _ _ _ (or_intror Ho1) Hpre Hm1). }
  simpl in EA.
  destruct (object_step_resolves syn m1a Hm1a Hcls Hty) as (m1b & Hstep & Hm1b).
  rewrite Hstep in EA.
  apply (object_loop_stable _ _ _ _ _ _ (or_intror Ho2) EA Hm1b).
Qed.

End OneReference.

(** C4, as the code has it.  MIB [A] has an objecttype [x] whose syntax is a
    reference to the type [Foo]; an import entry of [A] for [B], not skipped,
    declares [Foo]; [B] defines [Foo] with the type field [T]; and no other
    import entry of [A] that is a resolution source declares [Foo] or the
    type that [T] itself names.  Then a pass that completes leaves [x] with
    the syntax [T].  An import entry named class, or whose name starts with
    SNMP, never changes the store. *)
Theorem resolve_pass_copies_imported_type (mibs mibs' : pdict) (A x B Foo : string)
    (ca item syn imps cb def : pdict) (decl T : pyval) :
  List.NoDup (keys mibs) ->
  List.NoDup (keys ca) ->
  List.NoDup (keys imps) ->
  dict_get A mibs = Some (PDict ca) ->
  dict_get x ca = Some (PDict item) ->
  dict_get "class" item = Some (PStr "objecttype") ->
  dict_get "syntax" item = Some (PDict syn) ->
  dict_get "class" syn = Some (PStr "type") ->
  dict_get "type" syn = Some (PStr Foo) ->
  dict_get "imports" ca = Some (PDict imps) ->
  dict_get "syntax" imps = None ->
  dict_get B imps = Some decl ->
  skipped B = false ->
  py_in (PStr Foo) decl = Ok true ->
  dict_get B mibs = Some (PDict cb) ->
  dict_get Foo cb = Some (PDict def) ->
  dict_get "type" def = Some T ->
  (forall k v, In (k, v) imps -> k <> B -> skipped k = false ->
     py_in (PStr Foo) v = Ok false
     /\ exists t', py_get T "type" PNone = Ok t' /\ py_in t' v = Ok false) ->
  resolve_pass mibs = (mibs', Ok tt) ->
  obj_field mibs' A x "syntax" = Some T
  /\ forall M k m import_key, skipped import_key = true -> import_step M k m import_key = Ok m.
Proof.
  intros Hn1 Hn2 Hn3 HA Hx Hcls Hsyn Hsc Hst Himp Hns HB Hsk Hdecl HBm HFoo HT Hothers Hpass.
  split.
  - assert (H0 : tracks A x B Foo imps (keys ca) T (PDict syn) mibs).
    { exists ca, item. unfold obj_field. rewrite HBm, HFoo. auto 10. }
    destruct (resolve_pass_resolves A x B Foo imps (keys ca) decl T
                Hns HB Hsk Hdecl Hn3 Hothers syn mibs mibs' Hn1 Hn2 H0 Hsc Hst Hpass)
      as (ca' & it & HA' & _ & Hx' & _ & Hsyn' & _).
    unfold obj_field. rewrite HA', Hx'. exact Hsyn'.
  - intros M k m ik H. unfold import_step. rewrite H. reflexivity.
Qed.

(** ** Settled stores *)

Lemma import_step_settled M k m content item syn imps ik :
  dict_get M m = Some (PDict content) ->
  dict_get k content = Some item ->
  py_get (PDict content) "imports" (PDict []) = Ok (PDict imps) ->
  py_item item "syntax" = Ok syn ->
  forallb (import_misses syn) imps = true ->
  In ik (keys imps) ->
  import_step M k m ik = Ok m.
Proof.
  intros HM Hk Himp Hsyn Hall Hin.
  destruct (dict_get_keys _ _ Hin) as [v Hv].
  rewrite forallb_forall in Hall. specialize (Hall _ (dict_get_In _ _ _ Hv)).
  unfold import_misses in Hall. simpl in Hall.
  unfold import_step. destruct (skipped ik); [reflexivity|]. simpl in Hall.
  simpl. rewrite HM. simpl. rewrite Hk. simpl.
  simpl in Himp. injection Himp as Himp. rewrite Himp. simpl.
  rewrite Hv. simpl. rewrite Hsyn. simpl.
  destruct (py_get syn "type" PNone) as [t|]; [|discriminate]. simpl.
  destruct (py_in t v) as [[|]|]; try discriminate. reflexivity.
Qed.

Lemma object_step_settled M m content k :
  dict_get M m = Some (PDict content) ->
  forallb (fun kv => object_settled content (snd kv)) content = true ->
  In k (keys content) ->
  object_step M m k = (m, Ok tt).
Proof.
  intros HM Hall Hin.
  destruct (dict_get_keys _ _ Hin) as [item Hitem].
  rewrite forallb_forall in Hall. specialize (Hall _ (dict_get_In _ _ _ Hitem)).
  simpl in Hall. unfold object_settled in Hall.
  unfold object_step, imports_to_try. simpl. rewrite HM. simpl. rewrite Hitem. simpl.
  destruct (is_type_reference item) as [[|]|]; try discriminate; [|reflexivity].
  destruct (py_get (PDict content) "imports" (PDict [])) as [[| | | | | | | | |imps]|] eqn:Ei;
    try discriminate.
  destruct (py_item item "syntax") as [syn|] eqn:Es; [|discriminate].
  simpl in Ei. simpl. injection Ei as Ei. rewrite Ei. simpl.
  apply for_each_fixed. intros ik Hik.
  apply (import_step_settled M k m content item syn imps); try assumption.
  simpl. rewrite Ei. reflexivity.
Qed.

(** C8, as the code has it.  On a store in which no objecttype has a type
    reference that a resolution source among the imports of its MIB
    declares, the pass completes and changes nothing; a second run after a
    first one that left such a store is therefore without effect. *)
Theorem resolve_pass_settled (mibs : pdict) :
  settled mibs = true -> resolve_pass mibs = (mibs, Ok tt).
Proof.
  intros Hall. unfold resolve_pass. apply for_each_loop_fixed. intros M HM.
  destruct (dict_get_keys _ _ HM) as [c Hc].
  unfold settled in Hall. rewrite forallb_forall in Hall.
  specialize (Hall _ (dict_get_In _ _ _ Hc)). simpl in Hall.
  destruct c as [| | | | | | | | |content]; try discriminate.
  unfold mib_step. simpl. rewrite Hc. simpl.
  apply for_each_loop_fixed. intros k Hk.
  apply (object_step_settled M mibs content); assumption.
Qed.

(** ** Where exceptions come from *)

Lemma rsafe_rbind {A B} (r : result A) (f : A -> result B) :
  rsafe r -> (forall a, rsafe (f a)) -> rsafe (rbind r f).
Proof. destruct r; simpl; auto. Qed.

Lemma msafe_bind {A B} (m : M A) (f : A -> M B) :
  msafe m -> (forall a, msafe (f a)) -> msafe (bind m f).
Proof.
  destruct m as [l [a|e]]; unfold msafe; simpl; [|auto].
  intros _ H. specialize (H a). destruct (f a). exact H.
Qed.

Lemma msafe_lift {A} (r : result A) : rsafe r -> msafe (lift r).
Proof. auto. Qed.

Lemma msafe_try_except {A} (m : M A) (h : exn -> M A) :
  (forall e, msafe (h e)) -> msafe (try_except m h).
Proof.
  destruct m as [l [a|e]]; unfold msafe; simpl; [auto|].
  intros H. specialize (H e). destruct (h e). exact H.
Qed.

Create HintDb safe.

Ltac safe :=
  repeat first
    [ progress intros
    | match goal with
      | |- rsafe (Ok _) => exact I
      | |- rsafe (Raise _) => unfold rsafe; discriminate
      | |- msafe (_, _) => unfold msafe; cbn [snd]
      | |- msafe (ret _) => exact I
      | |- msafe (tell _) => exact I
      | |- msafe (raise _) => unfold raise
      | |- rsafe (rbind _ _) => apply rsafe_rbind
      | |- msafe (bind _ _) => apply msafe_bind
      | |- msafe (try_except _ _) => apply msafe_try_except
      | |- msafe (lift _) => apply msafe_lift
      end
    | solve [auto with safe]
    | match goal with |- context [if ?b then _ else _] => destruct b end
    | match goal with |- context [match ?x with _ => _ end] => destruct x end ].

Lemma py_get_safe v k d : rsafe (py_get v k d).
Proof. unfold py_get. safe. Qed.
Lemma py_get_val_safe v k d : rsafe (py_get_val v k d).
Proof. unfold py_get_val. safe. Qed.
Lemma py_item_safe v k : rsafe (py_item v k).
Proof. unfold py_item. safe. Qed.
Lemma py_item_val_safe v k : rsafe (py_item_val v k).
Proof. unfold py_item_val. safe. Qed.
Lemma py_in_safe x c : rsafe (py_in x c).
Proof. unfold py_in. safe. Qed.
Lemma py_lower_safe v : rsafe (py_lower v).
Proof. unfold py_lower. safe. Qed.
Lemma py_items_safe v : rsafe (py_items v).
Proof. unfold py_items. safe. Qed.
Lemma py_iter_safe v : rsafe (py_iter v).
Proof. unfold py_iter. safe. Qed.
Lemma py_concat_dot_safe a k : rsafe (py_concat_dot a k).
Proof. unfold py_concat_dot. safe. Qed.
Lemma int_of_str_safe s : rsafe (int_of_str s).
Proof. unfold int_of_str. safe. Qed.
#[local] Hint Resolve py_get_safe py_get_val_safe py_item_safe py_item_val_safe py_in_safe
  py_lower_safe py_items_safe py_iter_safe py_concat_dot_safe int_of_str_safe : safe.

Lemma mac_octets_safe octets : forall acc, rsafe (mac_octets octets acc).
Proof. induction octets; simpl; safe. Qed.
#[local] Hint Resolve mac_octets_safe : safe.
Lemma mac_decimal_to_hex_safe s : rsafe (mac_decimal_to_hex s).
Proof. unfold mac_decimal_to_hex. safe. Qed.
Lemma mac_binary_to_hex_safe v : rsafe (mac_binary_to_hex v).
Proof. unfold mac_binary_to_hex. safe. Qed.
Lemma ip_binary_to_str_safe v : rsafe (ip_binary_to_str v).
Proof. unfold ip_binary_to_str. safe. Qed.
Lemma py_decode_safe v : rsafe (py_decode v).
Proof. unfold py_decode. safe. Qed.
Lemma int_from_bytes_safe v : rsafe (int_from_bytes v).
Proof. unfold int_from_bytes. safe. Qed.
#[local] Hint Resolve mac_decimal_to_hex_safe mac_binary_to_hex_safe ip_binary_to_str_safe
  py_decode_safe int_from_bytes_safe : safe.
Lemma bits_loop_safe v bits : rsafe (bits_loop v bits).
Proof. induction bits as [|[x y] rest IH]; simpl; safe. Qed.
#[local] Hint Resolve bits_loop_safe : safe.
Lemma syntax_type_safe s : rsafe (syntax_type s).
Proof. unfold syntax_type. safe. Qed.
Lemma check_constraints_safe s v : rsafe (check_constraints s v).
Proof. unfold check_constraints. safe. Qed.
#[local] Hint Resolve syntax_type_safe check_constraints_safe : safe.
Lemma type_fixups_safe v s : msafe (type_fixups v s).
Proof. unfold type_fixups. safe. Qed.
#[local] Hint Resolve type_fixups_safe : safe.
Lemma format_snmp_field_safe v s : msafe (format_snmp_field v s).
Proof. unfold format_snmp_field. safe. Qed.
#[local] Hint Resolve format_snmp_field_safe : safe.
Lemma mib_object_safe mibs m o : rsafe (mib_object mibs m o).
Proof. unfold mib_object. safe. Qed.
#[local] Hint Resolve mib_object_safe : safe.
Lemma syntax_is_safe obj n : rsafe (syntax_is obj n).
Proof. unfold syntax_is. safe. Qed.
#[local] Hint Resolve syntax_is_safe : safe.
Lemma index_kind_of_safe obj : rsafe (index_kind_of obj).
Proof. unfold index_kind_of. safe. Qed.
Lemma index_resolves_safe mibs t : rsafe (index_resolves mibs t).
Proof. unfold index_resolves. safe. Qed.
Lemma raw_split_safe v : rsafe (raw_split v).
Proof. unfold raw_split. safe. Qed.
#[local] Hint Resolve index_kind_of_safe index_resolves_safe raw_split_safe : safe.
Lemma index_field_safe v k p : rsafe (index_field v k p).
Proof. unfold index_field. safe. Qed.
Lemma assign_field_safe t v r : rsafe (assign_field t v r).
Proof. unfold assign_field. safe. Qed.
Lemma logged_spec_safe mibs k a b : rsafe (logged_spec mibs k a b).
Proof. unfold logged_spec. safe. Qed.
#[local] Hint Resolve index_field_safe assign_field_safe logged_spec_safe : safe.
Lemma log_index_error_safe mibs k v t a b e : msafe (log_index_error mibs k v t a b e).
Proof. unfold log_index_error. safe. Qed.
#[local] Hint Resolve log_index_error_safe : safe.
Lemma index_loop_safe mibs mib t v l : forall row pos, msafe (index_loop mibs mib t v l row pos).
Proof. induction l; intros; cbn [index_loop]; safe. Qed.
#[local] Hint Resolve index_loop_safe : safe.
Lemma mib_table_index_safe mibs v a b r : msafe (mib_table_index mibs v a b r).
Proof. unfold mib_table_index. safe. Qed.
Lemma column_oid_safe mibs a b c : rsafe (column_oid mibs a b c).
Proof. unfold column_oid. safe. Qed.
#[local] Hint Resolve mib_table_index_safe column_oid_safe : safe.
Lemma find_column_safe mibs a b c l : rsafe (find_column mibs a b c l).
Proof. induction l as [|[k v] l IH]; simpl; safe. Qed.
#[local] Hint Resolve find_column_safe : safe.
Lemma resolve_cell_safe mibs a b r c : msafe (resolve_cell mibs a b r c).
Proof. unfold resolve_cell. safe. Qed.
#[local] Hint Resolve resolve_cell_safe : safe.
Lemma resolve_cells_safe mibs a b l : forall r, msafe (resolve_cells mibs a b r l).
Proof. induction l; intros; simpl; safe. Qed.
#[local] Hint Resolve resolve_cells_safe : safe.
Lemma resolve_rows_safe mibs a b t l : forall acc, msafe (resolve_rows mibs a b t l acc).
Proof. induction l; intros; simpl; unfold resolve_row; safe. Qed.
#[local] Hint Resolve resolve_rows_safe : safe.

Lemma msafe_bind_ok {A B} (m : M A) (f : A -> M B) :
  msafe m -> (forall l a, m = (l, Ok a) -> msafe (f a)) -> msafe (bind m f).
Proof.
  destruct m as [l [a|e]]; unfold msafe; simpl; [|auto].
  intros _ H. specialize (H l a eq_refl). destruct (f a). exact H.
Qed.

Lemma poll_safe w oid : msafe (poll w oid).
Proof. unfold poll. safe. Qed.
#[local] Hint Resolve poll_safe : safe.

(** The live path never ends in the row-count error. *)
Lemma live_query_safe w self mib table : msafe (live_query w self mib table).
Proof.
  unfold live_query. apply msafe_bind.
  { apply msafe_lift. unfold open_session, creds.
    destruct (cred self); simpl; (exact I || discriminate). }
  intros _.
  unfold query_device.
  destruct (negb (dict_has mib (mibs self))); [safe|].
  apply msafe_bind; [safe|]. intros objects.
  destruct (negb (dict_has table objects)); [safe|].
  apply msafe_bind; [safe|]. intros oid.
  apply msafe_bind; [safe|]. intros raw_rows.
  apply msafe_bind_ok; [safe|]. intros l table_data Hrows.
  apply resolve_rows_length in Hrows. simpl in Hrows.
  unfold check_row_count. rewrite Hrows, Nat.eqb_refl. exact I.
Qed.

(** C7. The resolver appends one row per raw row, in order: when its loop
    completes, the rows produced are as many as the raw rows, and it
    completes whenever each row resolves.  The check after the loop raises
    exactly when the two lengths differ, as for 2 rows produced from 3; after
    the resolver's own loop the check always passes, and no call of
    [get_table] ends in the row-count error. *)
Theorem resolver_row_count (mibs : pdict) (mib table : string) (t : Q)
    (raw_rows : list raw_row) :
  (forall evs table_data,
     resolve_rows mibs mib table t raw_rows [] = (evs, Ok table_data) ->
     length table_data = length raw_rows
     /\ Forall2 (fun row table_row =>
                   snd (resolve_row mibs mib table t row) = Ok table_row)
                raw_rows table_data
     /\ check_row_count table_data raw_rows = Ok tt)
  /\ (Forall (fun row => exists table_row,
                snd (resolve_row mibs mib table t row) = Ok table_row) raw_rows ->
      exists evs table_data,
        resolve_rows mibs mib table t raw_rows [] = (evs, Ok table_data))
  /\ (forall table_data : list pdict,
        check_row_count table_data raw_rows = Raise (ValueError RowsMismatch)
        <-> length table_data <> length raw_rows)
  /\ (forall (r1 r2 r3 : raw_row) (p1 p2 : pdict),
        check_row_count [p1; p2] [r1; r2; r3] = Raise (ValueError RowsMismatch))
  /\ (forall (w : world) (self : snmp_cache) (allow : bool) (q : Z),
        snd (snd (get_table w self mib table allow q)) <> Raise (ValueError RowsMismatch)).
Proof.
  split; [|split; [|split; [|split]]].
  - intros evs table_data H.
    pose proof (resolve_rows_length _ _ _ _ _ _ _ _ H) as Hlen. simpl in Hlen.
    apply resolve_rows_each in H as (produced & -> & HF). simpl.
    split; [exact Hlen|split; [exact HF|]].
    unfold check_row_count. simpl in Hlen. rewrite Hlen, Nat.eqb_refl. reflexivity.
  - apply resolve_rows_total.
  - intros table_data. unfold check_row_count.
    destruct (Nat.eqb (length table_data) (length raw_rows)) eqn:E; simpl.
    + apply Nat.eqb_eq in E. split; [discriminate|contradiction].
    + apply Nat.eqb_neq in E. split; [intros _; exact E|reflexivity].
  - reflexivity.
  - intros w self allow q. unfold get_table.
    destruct (cached_data self mib table allow (now w)); [discriminate|].
    pose proof (live_query_safe w self mib table) as Hsafe. unfold msafe in Hsafe.
    destruct (live_query w self mib table) as [evs [[td t']|e]]; [discriminate|].
    simpl in *. intros E. injection E as ->. apply Hsafe. reflexivity.
Qed.


(** * The properties on the sample data *)

#[local] Ltac distinct_strings :=
  repeat (constructor; [simpl; intuition discriminate|]); constructor.

(** The entry of 1000 is 360 seconds old at 1360: with a global max age of
    5 minutes the call polls, as a forced call does. *)
Lemma get_table_cached_iff_fresh_witness :
  (get_table device_up (client true cache_at_1000) "IF-MIB" "ifEntry" true 10
   = (cache_at_1000, ([], Ok (if_resolved 1000)))
   <-> Fresh 1360 5 10 1000)
  /\ (~ Fresh 1360 5 10 1000 ->
      get_table device_up (client true cache_at_1000) "IF-MIB" "ifEntry" true 10
      = get_table device_up (client true cache_at_1000) "IF-MIB" "ifEntry" false 10)
  /\ (5 = 5 -> 10 = 10 -> (1360 == 1000 + 6 * 60)%Q -> ~ Fresh 1360 5 10 1000).
Proof.
  apply (get_table_cached_iff_fresh device_up (client true cache_at_1000)
           "IF-MIB" "ifEntry" 10 10 1000 (if_resolved 1000)).
  - reflexivity.
  - vm_compute. reflexivity.
Defined.

(** With caching disabled the device is polled and the rows come back, and
    the cache has no entry for the table afterwards. *)
Lemma get_table_disabled_cache_not_written :
  snd (get_table device_up (client false ∅) "IF-MIB" "ifEntry" true 10)
  = ([Polled (PStr "1.3.6.1.2.1.2.2.1")], Ok (if_resolved 1361))
  /\ entry_at (fst (get_table device_up (client false ∅) "IF-MIB" "ifEntry" true 10))
       "IF-MIB" "ifEntry" = None.
Proof. split; vm_compute; reflexivity. Qed.

Lemma get_table_live_replaces_entry_witness :
  entry_at (fst (get_table device_up (client true cache_at_1000) "IF-MIB" "ifEntry" true 10))
    "IF-MIB" "ifEntry"
  = Some {| max_age := Some 10; query_time := Some 1361%Q;
            data := Some (if_resolved 1361) |}.
Proof.
  destruct (get_table_live_replaces_entry device_up (client true cache_at_1000)
              "IF-MIB" "ifEntry" true 10
              (fst (get_table device_up (client true cache_at_1000)
                      "IF-MIB" "ifEntry" true 10))
              [Polled (PStr "1.3.6.1.2.1.2.2.1")] (if_resolved 1361)) as [H _].
  - vm_compute. reflexivity.
  - exists (PStr "1.3.6.1.2.1.2.2.1"). left. reflexivity.
  - destruct (H eq_refl) as [He _]. exact He.
Defined.

(** The device does not answer: the entry of 1000 is still there. *)
Lemma get_table_error_keeps_cache_witness :
  snd (get_table device_down (client true cache_at_1000) "IF-MIB" "ifEntry" true 10)
  = ([Polled (PStr "1.3.6.1.2.1.2.2.1")], Raise TransportError)
  /\ fst (get_table device_down (client true cache_at_1000) "IF-MIB" "ifEntry" true 10)
     = cache_at_1000.
Proof.
  split; [vm_compute; reflexivity|].
  apply (get_table_error_keeps_cache device_down (client true cache_at_1000)
           "IF-MIB" "ifEntry" true 10 _ [Polled (PStr "1.3.6.1.2.1.2.2.1")] TransportError).
  vm_compute. reflexivity.
Defined.

(** The two schema errors. *)
Example get_table_mib_not_loaded :
  get_table device_up (client true cache_at_1000) "NO-MIB" "ifEntry" true 10
  = (cache_at_1000, ([], Raise (ValueError MibNotLoaded))).
Proof. vm_compute. reflexivity. Qed.

Example get_table_object_not_in_mib :
  get_table device_up (client true cache_at_1000) "IF-MIB" "ifNothing" true 10
  = (cache_at_1000, ([], Raise (ValueError ObjectNotInMib))).
Proof. vm_compute. reflexivity. Qed.

Lemma resolver_row_count_witness :
  length (if_resolved 1361) = length if_rows
  /\ check_row_count (if_resolved 1361) if_rows = Ok tt.
Proof.
  destruct (resolver_row_count sample_mibs "IF-MIB" "ifEntry" 1361 if_rows) as [H _].
  destruct (H [] (if_resolved 1361)) as (Hlen & _ & Hcheck).
  - vm_compute. reflexivity.
  - split; [exact Hlen|exact Hcheck].
Defined.


Lemma arpMac_named :
  names_object sample_mibs (index_ref "ARP-MIB" "arpMac") "ARP-MIB" "arpMac"
    (column "1.3.9.1.1" (type_ref "MacAddress")).
Proof. eexists _, _. repeat split; reflexivity. Defined.

(** The MAC address of the index 0.26.43.60.77.94.10.0.0.1. *)
Lemma index_decoder_consumes_witness :
  index_loop sample_mibs "ARP-MIB" "arpEntry" (RStr "0.26.43.60.77.94.10.0.0.1")
    [index_ref "ARP-MIB" "arpMac"; index_ref "ARP-MIB" "arpAddr"] [] 0
  = index_loop sample_mibs "ARP-MIB" "arpEntry" (RStr "0.26.43.60.77.94.10.0.0.1")
      [index_ref "ARP-MIB" "arpAddr"] [("arpMac", PStr "001a2b3c4d5e")] 6.
Proof.
  destruct (index_decoder_consumes sample_mibs "ARP-MIB" "arpEntry"
              "0.26.43.60.77.94.10.0.0.1" (index_ref "ARP-MIB" "arpMac")
              "ARP-MIB" "arpMac" (column "1.3.9.1.1" (type_ref "MacAddress")) IdxMac
              [index_ref "ARP-MIB" "arpAddr"] [] 0) as (_ & _ & _ & _ & H).
  - exact arpMac_named.
  - reflexivity.
  - destruct H as [_ H]; [vm_compute; lia|].
    apply (H [0; 26; 43; 60; 77; 94]).
    change (slice 0 6 (split_on "." "0.26.43.60.77.94.10.0.0.1"))
      with ["0"; "26"; "43"; "60"; "77"; "94"].
    repeat (constructor; [split; [reflexivity|lia]|]). constructor.
Defined.

(** Three components where a MAC address takes six: the field is read from
    the three, and the cursor still moves by six.  A component above 255
    gives three hex digits. *)
Lemma index_decoder_short_index_moves_cursor :
  length (split_on "." "1.2.3") = 3%nat
  /\ index_loop sample_mibs "ARP-MIB" "arpEntry" (RStr "1.2.3")
       [index_ref "ARP-MIB" "arpMac"; index_ref "ARP-MIB" "arpAddr"] [] 0
     = index_loop sample_mibs "ARP-MIB" "arpEntry" (RStr "1.2.3")
         [index_ref "ARP-MIB" "arpAddr"] [("arpMac", PStr "010203")] 6
  /\ index_field (RStr "300.1.2.3.4.5") IdxMac 0 = Ok (PStr "12c0102030405").
Proof. repeat split; vm_compute; reflexivity. Qed.

(** Three components for a MAC address and none for the IPv4 address: both
    fields are assigned from what there is, and nothing is logged. *)
Lemma index_decoder_short_index_no_error :
  mib_table_index sample_mibs (RStr "1.2.3") "ARP-MIB" "arpEntry" []
  = ([], Ok [("arpMac", PStr "010203"); ("arpAddr", PStr "")]).
Proof. vm_compute. reflexivity. Qed.

Lemma index_decoder_address_error_witness :
  index_loop sample_mibs "ARP-MIB" "arpEntry" (RStr "1.x.3")
    [index_ref "ARP-MIB" "arpMac"; index_ref "ARP-MIB" "arpAddr"] [] 0
  = ([ErrIndex (RStr "1.x.3") (PStr "arpMac")
        (PList [index_ref "MISSING-MIB" "port"; index_ref "ARP-MIB" "arpMac";
                index_ref "ARP-MIB" "arpAddr"])
        (ValueError InvalidLiteral)], Ok []).
Proof.
  destruct (index_decoder_address_error sample_mibs "ARP-MIB" "arpEntry" (RStr "1.x.3")
              (index_ref "ARP-MIB" "arpMac") "ARP-MIB" "arpMac"
              (column "1.3.9.1.1" (type_ref "MacAddress")) IdxMac
              [index_ref "ARP-MIB" "arpAddr"] [] 0
              (row_object "1.3.9.1"
                 [index_ref "MISSING-MIB" "port"; index_ref "ARP-MIB" "arpMac";
                  index_ref "ARP-MIB" "arpAddr"])
              (PList [index_ref "MISSING-MIB" "port"; index_ref "ARP-MIB" "arpMac";
                      index_ref "ARP-MIB" "arpAddr"])) as [H _].
  - exact arpMac_named.
  - reflexivity.
  - discriminate.
  - reflexivity.
  - reflexivity.
  - intros s E. injection E as <-. reflexivity.
  - apply H. reflexivity.
Defined.

(** The integer branch on a component that is no number. *)
Example index_decoder_integer_error_key_error :
  mib_table_index sample_mibs (RStr "x") "ARP-MIB" "portEntry" [] = ([], Raise KeyError).
Proof. vm_compute. reflexivity. Qed.

Lemma index_decoder_skips_unresolved_witness :
  index_loop sample_mibs "ARP-MIB" "arpEntry" (RStr "0.26.43.60.77.94.10.0.0.1")
    [index_ref "ARP-MIB" "arpMac"; index_ref "MISSING-MIB" "port";
     index_ref "ARP-MIB" "arpAddr"] [] 0
  = index_loop sample_mibs "ARP-MIB" "arpEntry" (RStr "0.26.43.60.77.94.10.0.0.1")
      [index_ref "ARP-MIB" "arpMac"; index_ref "ARP-MIB" "arpAddr"] [] 0.
Proof.
  apply (index_decoder_skips_unresolved sample_mibs "ARP-MIB" "arpEntry"
           (RStr "0.26.43.60.77.94.10.0.0.1") [index_ref "ARP-MIB" "arpMac"]
           (index_ref "MISSING-MIB" "port") [index_ref "ARP-MIB" "arpAddr"] [] 0).
  eexists _, "MISSING-MIB", "port". repeat split; try reflexivity.
  left. reflexivity.
Defined.

(** A's import of Foo from B, and of Bar from C, over which B defines Foo:
    the pass leaves [x] with C's definition of Bar, not with B's of Foo. *)
Lemma resolve_pass_chain_across_imports :
  snd (resolve_pass chain_across) = Ok tt
  /\ obj_field chain_across "B" "Foo" "type" = Some (type_ref "Bar")
  /\ obj_field (fst (resolve_pass chain_across)) "A" "x" "syntax"
     = Some (type_ref "Integer32")
  /\ obj_field (fst (resolve_pass chain_across)) "A" "x" "syntax"
     <> obj_field chain_across "B" "Foo" "type".
Proof. repeat split; try (vm_compute; reflexivity). vm_compute. discriminate. Qed.

Lemma resolve_pass_copies_imported_type_witness :
  obj_field (fst (resolve_pass two_mibs)) "A" "x" "syntax"
  = Some (type_ref "OCTET STRING").
Proof.
  assert (Hothers : forall k v,
            In (k, v) (imports_of_A imports_from_B_and_D) -> k <> "B" ->
            skipped k = false ->
            py_in (PStr "Foo") v = Ok false
            /\ exists t', py_get (type_ref "OCTET STRING") "type" PNone = Ok t'
                          /\ py_in t' v = Ok false).
  { intros k v [E|[E|[E|[E|[]]]]] Hne Hsk; injection E as <- <-;
      try discriminate Hsk; [congruence|].
    split; [reflexivity|]. exists (PStr "OCTET STRING"). split; reflexivity. }
  destruct (resolve_pass_copies_imported_type two_mibs (fst (resolve_pass two_mibs))
              "A" "x" "B" "Foo" (objects_of_A imports_from_B_and_D) x_object x_syntax
              (imports_of_A imports_from_B_and_D) [("Foo", PDict Foo_def)] Foo_def
              (PList [PStr "Foo"]) (type_ref "OCTET STRING")
              ltac:(distinct_strings) ltac:(distinct_strings) ltac:(distinct_strings)
              eq_refl eq_refl eq_refl eq_refl eq_refl eq_refl eq_refl eq_refl
              eq_refl eq_refl eq_refl eq_refl eq_refl eq_refl Hothers
              ltac:(vm_compute; reflexivity)) as [H _].
  exact H.
Defined.

(** B defines Foo over its own Bar and A imports both: the first pass gives
    [x] the definition of Foo, the second that of Bar. *)
Lemma resolve_pass_second_run_rewrites :
  snd (resolve_pass chain_within) = Ok tt
  /\ snd (resolve_pass (fst (resolve_pass chain_within))) = Ok tt
  /\ obj_field (fst (resolve_pass chain_within)) "A" "x" "syntax"
     = Some (type_ref "Bar")
  /\ obj_field (fst (resolve_pass (fst (resolve_pass chain_within)))) "A" "x" "syntax"
     = Some (type_ref "Integer32")
  /\ fst (resolve_pass (fst (resolve_pass chain_within))) <> fst (resolve_pass chain_within).
Proof. repeat split; try (vm_compute; reflexivity). vm_compute. discriminate. Qed.

Lemma resolve_pass_settled_witness :
  resolve_pass (fst (resolve_pass two_mibs)) = (fst (resolve_pass two_mibs), Ok tt).
Proof. apply (resolve_pass_settled (fst (resolve_pass two_mibs))). vm_compute. reflexivity. Defined.

(** * Further properties *)

(** ** The helpers *)

Lemma String_length_app a b : String.length (a ++ b) = (String.length a + String.length b)%nat.
Proof. induction a; simpl; [reflexivity|]. rewrite IHa. reflexivity. Qed.

Lemma hex_string_length ns : String.length (hex_string ns) = (2 * length ns)%nat.
Proof. induction ns as [|n ns IH]; simpl; [reflexivity|]. rewrite IH. lia. Qed.

Lemma byte_val_range b : 0 <= byte_val b < 256.
Proof.
  unfold byte_val. pose proof (Byte.to_N_bounded b) as H. lia.
Qed.

Lemma fold_hex_octets bs : forall acc,
  fold_left (fun mac_address b => mac_address ++ hex_octet (byte_val b)) bs acc
  = acc ++ hex_string (map byte_val bs).
Proof.
  induction bs as [|b bs IH]; intros acc; simpl.
  - rewrite str_app_nil_r. reflexivity.
  - rewrite IH, hex_octet_byte, str_app_assoc by apply byte_val_range. reflexivity.
Qed.

Lemma mac_binary_to_hex_value bs :
  mac_binary_to_hex (RBytes bs) = Ok (hex_string (map byte_val bs)).
Proof. simpl. rewrite fold_hex_octets. reflexivity. Qed.

(** X1. [mac_binary_to_hex] never fails on a byte string, whatever its
    length: it returns two lowercase hexadecimal digits for each byte, in
    order, so a text of twice the length. *)
Theorem mac_binary_to_hex_bytes (bs : list Byte.byte) :
  mac_binary_to_hex (RBytes bs) = Ok (hex_string (map byte_val bs))
  /\ String.length (hex_string (map byte_val bs)) = (2 * length bs)%nat.
Proof.
  split.
  - apply mac_binary_to_hex_value.
  - rewrite hex_string_length, length_map. reflexivity.
Qed.

Lemma byte_decimal_reads n :
  0 <= n < 256 -> int_of_str (str_of_Z n) = Ok n /\ has_char "." (str_of_Z n) = false.
Proof.
  intros Hn.
  assert (H : forallb (fun i =>
                match int_of_str (str_of_Z (Z.of_nat i)) with
                | Ok m => Z.eqb m (Z.of_nat i)
                | Raise _ => false
                end && negb (has_char "." (str_of_Z (Z.of_nat i)))) (seq 0 256) = true)
    by (vm_compute; reflexivity).
  rewrite forallb_forall in H. specialize (H (Z.to_nat n)).
  rewrite Z2Nat.id in H by lia.
  assert (Hin : In (Z.to_nat n) (seq 0 256)) by (apply in_seq; lia).
  apply H in Hin. apply andb_true_iff in Hin as [H1 H2].
  destruct (int_of_str (str_of_Z n)) as [m|]; [|discriminate].
  apply Z.eqb_eq in H1. subst m. apply negb_true_iff in H2. auto.
Qed.

Lemma mac_decimal_to_hex_dotted bs :
  bs <> [] -> mac_decimal_to_hex (dotted bs) = Ok (hex_string (map byte_val bs)).
Proof.
  intros Hne. unfold dotted. apply mac_decimal_to_hex_ok.
  - destruct bs; [congruence|discriminate].
  - apply List.Forall_forall. intros p Hp. apply in_map_iff in Hp as (b & <- & _).
    apply byte_decimal_reads, byte_val_range.
  - clear Hne. induction bs as [|b bs IH]; simpl; constructor; [|exact IH].
    split; [apply byte_decimal_reads, byte_val_range|apply byte_val_range].
Qed.

(** X2. The two MAC encoders agree: on the dotted decimal form of a byte
    string that is not empty [mac_decimal_to_hex] returns what
    [mac_binary_to_hex] returns on the bytes.  On the empty one they differ:
    the dotted form is the empty text, on which [mac_decimal_to_hex] raises
    [ValueError], while [mac_binary_to_hex] returns the empty text. *)
Theorem mac_encoders_agree (bs : list Byte.byte) :
  (bs <> [] -> mac_decimal_to_hex (dotted bs) = mac_binary_to_hex (RBytes bs))
  /\ mac_decimal_to_hex (dotted []) = Raise (ValueError InvalidLiteral)
  /\ mac_binary_to_hex (RBytes []) = Ok "".
Proof.
  split; [|split; reflexivity].
  intros Hne. rewrite mac_binary_to_hex_value. apply mac_decimal_to_hex_dotted, Hne.
Qed.

(** ** ip_binary_to_str *)

Lemma fold_dotted {A} (f : A -> string) l : forall acc,
  fold_left (fun ip_address b => ip_address ++ "." ++ f b) l acc
  = acc ++ fold_right (fun b rest => "." ++ f b ++ rest) "" l.
Proof.
  induction l as [|b l IH]; intros acc; simpl.
  - rewrite str_app_nil_r. reflexivity.
  - rewrite IH, !str_app_assoc. reflexivity.
Qed.

Lemma drop1_dotted {A} (f : A -> string) l :
  drop1 (fold_right (fun b rest => "." ++ f b ++ rest) "" l) = join "." (map f l).
Proof.
  destruct l as [|b l]; [reflexivity|]. simpl.
  revert b. induction l as [|c l IH]; intros b; simpl.
  - apply str_app_nil_r.
  - rewrite <- IH. reflexivity.
Qed.

Lemma ip_binary_to_str_value bs : ip_binary_to_str (RBytes bs) = Ok (dotted bs).
Proof.
  unfold ip_binary_to_str, dotted.
  rewrite (fold_dotted (fun b => str_of_Z (byte_val b))).
  change ("" ++ ?x) with x. rewrite drop1_dotted. reflexivity.
Qed.

(** X3. [ip_binary_to_str] returns the decimal values of the bytes joined
    by dots for a byte string of any length (it does not check for four
    bytes; the empty byte string gives the empty text), and on an
    [IPv4Address] what it returns on the address's four bytes. *)
Theorem ip_binary_to_str_bytes (bs : list Byte.byte) (a1 a2 a3 a4 : Byte.byte) :
  ip_binary_to_str (RBytes bs) = Ok (dotted bs)
  /\ ip_binary_to_str (RAddr (a1, a2, a3, a4)) = ip_binary_to_str (RBytes [a1; a2; a3; a4])
  /\ ip_binary_to_str (RBytes []) = Ok "".
Proof.
  split; [apply ip_binary_to_str_value|split; [|reflexivity]].
  rewrite ip_binary_to_str_value. reflexivity.
Qed.

(** ** The index decoder and the formatter on the same address *)

Lemma split_dotted bs :
  bs <> [] -> split_on "." (dotted bs) = map (fun b => str_of_Z (byte_val b)) bs.
Proof.
  intros Hne. unfold dotted. apply split_join.
  - destruct bs; [congruence|discriminate].
  - apply List.Forall_forall. intros p Hp. apply in_map_iff in Hp as (b & <- & _).
    apply byte_decimal_reads, byte_val_range.
Qed.

Lemma slice_all {A} (l : list A) n : length l = n -> slice 0 n l = l.
Proof. intros <-. unfold slice. simpl. apply firstn_all. Qed.

(** X4. An address reads the same from the row index as from a column: for
    six bytes the index decoder's macaddress field on their dotted decimal
    form is the text [mac_binary_to_hex] gives for the bytes, and for four
    bytes its inetaddress field is the text [ip_binary_to_str] gives. *)
Theorem index_and_column_agree (bs : list Byte.byte) :
  (length bs = 6%nat ->
   exists s, mac_binary_to_hex (RBytes bs) = Ok s
             /\ index_field (RStr (dotted bs)) IdxMac 0 = Ok (PStr s))
  /\ (length bs = 4%nat ->
      exists s, ip_binary_to_str (RBytes bs) = Ok s
                /\ index_field (RStr (dotted bs)) IdxInet 0 = Ok (PStr s)).
Proof.
  split; intros Hlen.
  - assert (Hne : bs <> []) by (intros ->; discriminate).
    exists (hex_string (map byte_val bs)). split; [apply mac_binary_to_hex_value|].
    unfold index_field. simpl. rewrite split_dotted by exact Hne.
    rewrite slice_all by (rewrite length_map; exact Hlen).
    fold (dotted bs). rewrite mac_decimal_to_hex_dotted by exact Hne. reflexivity.
  - assert (Hne : bs <> []) by (intros ->; discriminate).
    exists (dotted bs). split; [apply ip_binary_to_str_value|].
    unfold index_field. simpl. rewrite split_dotted by exact Hne.
    rewrite slice_all by (rewrite length_map; exact Hlen). reflexivity.
Qed.

(** ** bytes_to_str *)

Lemma utf8_valid_ascii zs : Forall (fun z => z <= 127) zs -> utf8_valid zs = true.
Proof.
  induction 1 as [|z zs Hz _ IH]; [reflexivity|].
  cbn [utf8_valid]. apply Z.leb_le in Hz. rewrite Hz. exact IH.
Qed.

(** X5. [bytes_to_str] returns the text of a byte string all of whose bytes
    are ASCII (at most 127), byte for byte, and raises the decoding
    [ValueError] on ASCII bytes followed by one last byte above 127. *)
Theorem bytes_to_str_decodes (bs : list Byte.byte) (b : Byte.byte) :
  (Forall (fun b => byte_val b <= 127) bs ->
   bytes_to_str (RBytes bs) = Ok (string_of_list_byte bs))
  /\ (Forall (fun b => byte_val b <= 127) bs -> 128 <= byte_val b ->
      bytes_to_str (RBytes (bs ++ [b])) = Raise (ValueError UnicodeDecode)).
Proof.
  split.
  - intros H. unfold bytes_to_str, py_decode. rewrite utf8_valid_ascii; [reflexivity|].
    induction H; simpl; constructor; assumption.
  - intros H Hb. unfold bytes_to_str, py_decode.
    assert (E : utf8_valid (map byte_val (bs ++ [b])) = false); [|rewrite E; reflexivity].
    induction H as [|x l Hx _ IH]; simpl.
    + destruct (Z.leb_spec (byte_val b) 127); [lia|reflexivity].
    + apply Z.leb_le in Hx. rewrite Hx. exact IH.
Qed.

(** ** normalize_mac *)

Lemma chars_app a b :
  list_ascii_of_string (a ++ b) = (list_ascii_of_string a ++ list_ascii_of_string b)%list.
Proof. induction a as [|x a IH]; simpl; [reflexivity|]. rewrite IH. reflexivity. Qed.

Lemma chars_remove_char c s :
  list_ascii_of_string (remove_char c s) = List.filter (keep c) (list_ascii_of_string s).
Proof.
  induction s as [|x s IH]; simpl; [reflexivity|]. unfold keep at 1.
  destruct (Ascii.eqb x c); simpl; [exact IH|]. rewrite IH. reflexivity.
Qed.

Lemma chars_str_slice lo hi s :
  list_ascii_of_string (str_slice lo hi s) = slice lo (hi - lo) (list_ascii_of_string s).
Proof. unfold str_slice. apply list_ascii_of_string_of_list_ascii. Qed.

Lemma chars_normalize_mac s d :
  list_ascii_of_string (normalize_mac s d)
  = (slice 0 2 (mac_chars s) ++ list_ascii_of_string d
     ++ slice 2 2 (mac_chars s) ++ list_ascii_of_string d
     ++ slice 4 2 (mac_chars s) ++ list_ascii_of_string d
     ++ slice 6 2 (mac_chars s) ++ list_ascii_of_string d
     ++ slice 8 2 (mac_chars s) ++ list_ascii_of_string d
     ++ slice 10 2 (mac_chars s))%list.
Proof.
  unfold normalize_mac, mac_chars.
  rewrite !chars_app, !chars_str_slice, !chars_remove_char. reflexivity.
Qed.

Lemma filter_id {A} (p : A -> bool) l : Forall (fun x => p x = true) l -> List.filter p l = l.
Proof. induction 1 as [|x l Hx _ IH]; simpl; [reflexivity|]. rewrite Hx, IH. reflexivity. Qed.

Lemma mac_chars_clean s :
  Forall (fun x => keep "-" x && keep ":" x = true) (mac_chars s).
Proof.
  unfold mac_chars. apply List.Forall_forall. intros x Hx.
  apply List.filter_In in Hx as [Hx H1]. apply List.filter_In in Hx as [_ H2].
  rewrite H1, H2. reflexivity.
Qed.

Lemma strip_slice lo n s :
  List.filter (keep "-") (List.filter (keep ":") (slice lo n (mac_chars s))) = slice lo n (mac_chars s).
Proof.
  pose proof (Forall_slice _ lo n _ (mac_chars_clean s)) as H.
  rewrite (filter_id (keep ":")), (filter_id (keep "-")); [reflexivity| |];
    eapply Forall_impl; try exact H; simpl; intros x Hx;
    apply andb_true_iff in Hx; tauto.
Qed.

Lemma slice_chunks {A} (l : list A) a b c :
  (slice a b l ++ slice (a + b) c l)%list = slice a (b + c) l.
Proof.
  unfold slice. rewrite <- (take_take_drop (skipn a l) b c), drop_drop. reflexivity.
Qed.

Lemma slice_of_prefix {A} (l : list A) lo n m :
  (lo + n <= m)%nat -> slice lo n (slice 0 m l) = slice lo n l.
Proof.
  intros H. unfold slice. simpl. rewrite skipn_firstn_comm, firstn_firstn.
  f_equal. lia.
Qed.

(** Without its separators, a normalized address is the first twelve
    characters of the address without its separators. *)
Lemma mac_chars_normalize_mac s d :
  d = ":" \/ d = "-" \/ d = "" ->
  mac_chars (normalize_mac s d) = slice 0 12 (mac_chars s).
Proof.
  intros Hd. unfold mac_chars at 1. rewrite chars_normalize_mac.
  rewrite !List.filter_app, !strip_slice.
  assert (Hsep : List.filter (keep "-") (List.filter (keep ":") (list_ascii_of_string d)) = []).
  { destruct Hd as [->|[->| ->]]; reflexivity. }
  rewrite Hsep. cbn [app].
  rewrite (slice_chunks _ 8 2 2), (slice_chunks _ 6 2 4), (slice_chunks _ 4 2 6).
  rewrite (slice_chunks _ 2 2 8), (slice_chunks _ 0 2 10). reflexivity.
Qed.

Lemma normalize_mac_from_chars s1 s2 d :
  (forall lo, (lo + 2 <= 12)%nat -> slice lo 2 (mac_chars s1) = slice lo 2 (mac_chars s2)) ->
  normalize_mac s1 d = normalize_mac s2 d.
Proof.
  intros H.
  rewrite <- (string_of_list_ascii_of_string (normalize_mac s1 d)).
  rewrite <- (string_of_list_ascii_of_string (normalize_mac s2 d)).
  rewrite !chars_normalize_mac, !H by lia. reflexivity.
Qed.

(** X6. Normalizing twice is normalizing once: after [normalize_mac] with
    the delimiter [":"], ["-"] or the empty one, [normalize_mac] with any
    delimiter gives what it gives on the address itself. *)
Theorem normalize_mac_again (mac_address d d' : string) :
  d = ":" \/ d = "-" \/ d = "" ->
  normalize_mac (normalize_mac mac_address d) d' = normalize_mac mac_address d'.
Proof.
  intros Hd. apply normalize_mac_from_chars. intros lo Hlo.
  rewrite mac_chars_normalize_mac by exact Hd. apply slice_of_prefix. exact Hlo.
Qed.

Lemma length_chars s : length (list_ascii_of_string s) = String.length s.
Proof. induction s; simpl; congruence. Qed.

(** X7. On an ASCII address with at least twelve characters besides [":"]
    and ["-"] and with an ASCII delimiter, [normalize_mac] returns twelve
    characters and five delimiters; what follows the twelfth character is
    dropped. *)
Theorem normalize_mac_length (mac_address d : string) :
  is_ascii mac_address = true ->
  is_ascii d = true ->
  (12 <= length (mac_chars mac_address))%nat ->
  String.length (normalize_mac mac_address d) = (12 + 5 * String.length d)%nat.
Proof.
  intros _ _ H. rewrite <- length_chars, chars_normalize_mac, !length_app, !length_chars.
  rewrite !length_slice by lia. lia.
Qed.

Lemma remove_char_clean c s : has_char c s = false -> remove_char c s = s.
Proof.
  induction s as [|x s IH]; simpl; [reflexivity|].
  intros H. apply orb_false_iff in H as [H1 H2]. rewrite H1, IH by exact H2. reflexivity.
Qed.

Lemma has_char_app c a b : has_char c (a ++ b) = has_char c a || has_char c b.
Proof. induction a as [|x a IH]; simpl; [reflexivity|]. rewrite IH, orb_assoc. reflexivity. Qed.

Lemma hex2_no_separator n :
  0 <= n < 256 -> has_char ":" (hex2 n) = false /\ has_char "-" (hex2 n) = false.
Proof.
  intros Hn.
  assert (H : forallb (fun i => negb (has_char ":" (hex2 (Z.of_nat i)))
                                && negb (has_char "-" (hex2 (Z.of_nat i))))
                (seq 0 256) = true) by (vm_compute; reflexivity).
  rewrite forallb_forall in H. specialize (H (Z.to_nat n)).
  rewrite Z2Nat.id in H by lia.
  assert (Hin : In (Z.to_nat n) (seq 0 256)) by (apply in_seq; lia).
  apply H in Hin. apply andb_true_iff in Hin as [H1 H2].
  apply negb_true_iff in H1, H2. auto.
Qed.

Lemma hex_string_no_separator bs :
  has_char ":" (hex_string (map byte_val bs)) = false
  /\ has_char "-" (hex_string (map byte_val bs)) = false.
Proof.
  induction bs as [|b bs [IH1 IH2]]; [split; reflexivity|].
  cbn [map hex_string fold_right]. fold (hex_string (map byte_val bs)).
  rewrite !has_char_app, IH1, IH2.
  destruct (hex2_no_separator (byte_val b) (byte_val_range b)) as [-> ->]. split; reflexivity.
Qed.

(** X8. [normalize_mac] on what [mac_binary_to_hex] returns for six bytes
    is the six two-digit groups joined by the delimiter, and with the empty
    delimiter the text itself. *)
Theorem normalize_mac_of_bytes (bs : list Byte.byte) (s delimiter : string) :
  length bs = 6%nat ->
  mac_binary_to_hex (RBytes bs) = Ok s ->
  normalize_mac s delimiter = join delimiter (map (fun b => hex2 (byte_val b)) bs)
  /\ normalize_mac s "" = s.
Proof.
  intros Hlen Hs. rewrite mac_binary_to_hex_value in Hs. injection Hs as <-.
  assert (Hclean : remove_char "-" (remove_char ":" (hex_string (map byte_val bs)))
                   = hex_string (map byte_val bs)).
  { destruct (hex_string_no_separator bs) as [H1 H2].
    rewrite (remove_char_clean ":") by exact H1. apply remove_char_clean, H2. }
  unfold normalize_mac. rewrite Hclean. clear Hclean.
  destruct bs as [|b1 [|b2 [|b3 [|b4 [|b5 [|b6 [|]]]]]]]; try discriminate.
  split; reflexivity.
Qed.

(** ** The formatter off its main path *)

(** X9. A syntax without a type reference leaves the value as it is: when
    ['class'] or ['type'] is missing or [None], or the class is not
    ['type'] whatever its case, the formatter returns the raw value and logs
    nothing. *)
Theorem format_without_type_reference (value : rawval) (d : pdict) :
  (dict_get "class" d = None \/ dict_get "class" d = Some PNone
   \/ dict_get "type" d = None \/ dict_get "type" d = Some PNone
   \/ exists cls, dict_get "class" d = Some (PStr cls) /\ str_lower cls <> "type") ->
  format_snmp_field value (PDict d) = ([], Ok (of_raw value)).
Proof.
  intros H. unfold format_snmp_field. cbn [py_get]. rewrite !bind_lift_Ok.
  destruct H as [H|[H|[H|[H|(cls & H & Hne)]]]]; rewrite H.
  - reflexivity.
  - reflexivity.
  - cbn [is_none]. rewrite orb_true_r. reflexivity.
  - cbn [is_none]. rewrite orb_true_r. reflexivity.
  - cbn [is_none orb]. destruct (dict_get "type" d) as [ty|]; [|reflexivity].
    destruct (is_none ty); [reflexivity|].
    cbn [py_lower]. rewrite bind_lift_Ok.
    destruct (String.eqb_spec (str_lower cls) "type"); [contradiction|reflexivity].
Qed.

Lemma format_type_reference value d cls ty :
  dict_get "class" d = Some (PStr cls) ->
  str_lower cls = "type" ->
  dict_get "type" d = Some (PStr ty) ->
  format_snmp_field value (PDict d)
  = bind (type_fixups value (PDict d))
      (fun f => match f with
                | Returned v => ret v
                | Resolved return_value => lift (check_constraints (PDict d) return_value)
                end).
Proof.
  intros Hc Hl Ht. unfold format_snmp_field. cbn [py_get]. rewrite Hc, Ht, !bind_lift_Ok.
  cbn [is_none orb py_lower]. rewrite bind_lift_Ok, Hl. reflexivity.
Qed.

Lemma syntax_type_of d ty : dict_get "type" d = Some (PStr ty) -> syntax_type (PDict d) = Ok (str_lower ty).
Proof. intros H. unfold syntax_type. simpl. rewrite H. reflexivity. Qed.

(** X10. For a type reference the formatter has no branch for and no
    constraints, an integer or a duration is returned as it is, any other
    value as its UTF-8 text, and a value that does not decode is returned
    raw with one warning; nothing is raised. *)
Theorem format_plain_type (value : rawval) (d : pdict) (cls ty : string) :
  dict_get "class" d = Some (PStr cls) ->
  str_lower cls = "type" ->
  dict_get "type" d = Some (PStr ty) ->
  plain_type (str_lower ty) = true ->
  dict_get "constraints" d = None ->
  format_snmp_field value (PDict d)
  = match value with
    | RInt _ | RDuration _ => ([], Ok (of_raw value))
    | _ =>
        match py_decode value with
        | Ok s => ([], Ok (PStr s))
        | Raise e => ([WarnDecode value e], Ok (of_raw value))
        end
    end.
Proof.
  intros Hc Hl Ht Hp Hn. rewrite (format_type_reference _ _ _ _ Hc Hl Ht).
  unfold type_fixups. rewrite (syntax_type_of _ _ Ht), bind_lift_Ok.
  unfold plain_type in Hp. apply negb_true_iff in Hp.
  repeat (apply orb_false_iff in Hp as [Hp ?]).
  rewrite Hp, H, H0, H1, H2. cbn [orb].
  assert (Hcheck : forall v, check_constraints (PDict d) v = Ok v).
  { intros v. unfold check_constraints. simpl. rewrite Hn. reflexivity. }
  destruct value; cbn [py_decode try_except bind lift ret tell];
    rewrite ?Hcheck; try reflexivity.
  destruct (utf8_valid (map byte_val bs)); cbn [py_decode try_except bind lift ret tell];
    rewrite Hcheck; reflexivity.
Qed.

(** X11. An address type on a value that cannot be iterated raises: for a
    macaddress, inetaddress or ipaddress reference and an integer, a
    duration or [None], the formatter raises [TypeError] and logs nothing. *)
Theorem format_address_of_scalar (value : rawval) (d : pdict) (cls ty : string) :
  dict_get "class" d = Some (PStr cls) ->
  str_lower cls = "type" ->
  dict_get "type" d = Some (PStr ty) ->
  str_lower ty = "macaddress" \/ str_lower ty = "inetaddress" \/ str_lower ty = "ipaddress" ->
  (exists z, value = RInt z) \/ (exists us, value = RDuration us) \/ value = RNone ->
  format_snmp_field value (PDict d) = ([], Raise TypeError).
Proof.
  intros Hc Hl Ht Hty Hv. rewrite (format_type_reference _ _ _ _ Hc Hl Ht).
  unfold type_fixups. rewrite (syntax_type_of _ _ Ht), bind_lift_Ok.
  destruct Hv as [[z ->]|[[us ->]| ->]]; destruct Hty as [->|[->| ->]]; reflexivity.
Qed.


(** ** Cells that match no column *)

Lemma py_eq_str a x : py_eq (PStr a) x = true <-> x = PStr a.
Proof.
  destruct x; simpl; try (split; [discriminate|discriminate]).
  rewrite String.eqb_eq. split; [intros ->; reflexivity|intros H; injection H as ->; reflexivity].
Qed.

Lemma find_column_none mibs mib table key t oid :
  mib_object mibs (PStr mib) (PStr table) = Ok (PDict t) ->
  dict_get "oid" t = Some (PStr oid) ->
  forall l,
    Forall (fun kv => exists o, snd kv = PDict o
                                /\ dict_get "oid" o <> Some (PStr (oid ++ "." ++ key))) l ->
    find_column mibs mib table key l = Ok None.
Proof.
  intros Ht Hoid l. induction 1 as [|[name v] l (o & Hv & Hne) _ IH]; [reflexivity|].
  simpl in Hv. subst v. cbn [find_column]. unfold column_oid. rewrite Ht. simpl.
  rewrite Hoid. cbn [py_concat_dot rbind].
  destruct (py_eq (PStr (oid ++ "." ++ key))
              match dict_get "oid" o with Some x => x | None => PNone end) eqn:E;
    [|exact IH].
  apply py_eq_str in E. destruct (dict_get "oid" o); [subst; congruence|discriminate].
Qed.

(** X13. A cell that matches no column: when no object of the MIB has the
    table's OID followed by the cell's key, a cell whose key is not ["0"]
    is kept under its raw key with a warning, and a cell with key ["0"] is
    dropped when the table is not a row or has no indices. *)
Theorem resolve_cell_unmatched (mibs : pdict) (mib table key : string) (value : rawval)
    (row objects t : pdict) (oid : string) :
  dict_get mib mibs = Some (PDict objects) ->
  dict_get table objects = Some (PDict t) ->
  dict_get "oid" t = Some (PStr oid) ->
  Forall (fun kv => exists o, snd kv = PDict o
                              /\ dict_get "oid" o <> Some (PStr (oid ++ "." ++ key))) objects ->
  (key <> "0" ->
   resolve_cell mibs mib table row (key, value)
   = ([WarnUnknownOid key], Ok (dict_set key (of_raw value) row)))
  /\ (key = "0" ->
      dict_get "nodetype" t <> Some (PStr "row") \/ dict_get "indices" t = None ->
      resolve_cell mibs mib table row (key, value) = ([], Ok row)).
Proof.
  intros Hm Ht Hoid Hall.
  assert (Hobj : mib_object mibs (PStr mib) (PStr table) = Ok (PDict t)).
  { unfold mib_object. simpl. rewrite Hm. simpl. rewrite Ht. reflexivity. }
  assert (Hfind := find_column_none mibs mib table key t oid Hobj Hoid
                     objects Hall).
  assert (Hcell : resolve_cell mibs mib table row (key, value)
                  = if String.eqb key "0" then mib_table_index mibs value mib table row
                    else bind (tell (WarnUnknownOid key))
                           (fun _ => ret (dict_set key (of_raw value) row))).
  { unfold resolve_cell. cbn [py_item]. rewrite Hm. cbn [rbind py_items].
    rewrite bind_lift_Ok, Hfind, bind_lift_Ok. reflexivity. }
  rewrite Hcell. split.
  - intros Hk. destruct (String.eqb_spec key "0"); [contradiction|reflexivity].
  - intros -> Hrow. rewrite String.eqb_refl. unfold mib_table_index.
    rewrite Hobj, bind_lift_Ok. cbn [py_get]. rewrite bind_lift_Ok.
    destruct (dict_get "nodetype" t) as [nt|] eqn:En.
    + destruct (py_eq nt (PStr "row")) eqn:E.
      * assert (nt = PStr "row").
        { destruct nt; simpl in E; try discriminate. apply String.eqb_eq in E. congruence. }
        subst nt. destruct Hrow as [Hrow|Hrow]; [congruence|].
        cbn [negb]. simpl. unfold dict_has. rewrite Hrow. reflexivity.
      * reflexivity.
    + reflexivity.
Qed.

(** ** The query time of a row *)

Lemma dict_set_stamped k v row : stamped row -> stamped (dict_set k v row).
Proof.
  intros (x & rest & ->). simpl. destruct (String.eqb k "_query_time"); eexists _, _; reflexivity.
Qed.

Lemma index_loop_stamped mibs mib table value refs : forall row pos evs row',
  index_loop mibs mib table value refs row pos = (evs, Ok row') ->
  stamped row -> stamped row'.
Proof.
  induction refs as [|r refs IH]; intros row pos evs row' H Hs.
  - inversion H; subst. exact Hs.
  - cbn [index_loop] in H.
    apply bind_ok in H as (? & found & ? & _ & H & _).
    destruct found; [|exact (IH _ _ _ _ H Hs)].
    apply bind_ok in H as (? & m & ? & _ & H & _).
    apply bind_ok in H as (? & o & ? & _ & H & _).
    apply bind_ok in H as (? & obj & ? & _ & H & _).
    apply bind_ok in H as (? & k & ? & _ & H & _).
    destruct (index_field value k pos) as [v|e]; simpl in H.
    + unfold assign_field in H. destruct (py_item r "object") as [[]|]; simpl in H;
        try (apply bind_ok in H as (? & ? & ? & _ & H & _); inversion H; subst; exact Hs).
      apply (IH _ _ _ _ H). apply dict_set_stamped. exact Hs.
    + apply bind_ok in H as (? & ? & ? & _ & H & _). inversion H; subst. exact Hs.
Qed.

Lemma resolve_cell_stamped mibs mib table row cell evs row' :
  resolve_cell mibs mib table row cell = (evs, Ok row') -> stamped row -> stamped row'.
Proof.
  destruct cell as [key value]. unfold resolve_cell. intros H Hs.
  apply bind_ok in H as (? & objects & ? & _ & H & _).
  apply bind_ok in H as (? & hit & ? & _ & H & _).
  destruct hit as [[mib_key mib_value]|].
  - apply bind_ok in H as (? & has & ? & _ & H & _).
    apply bind_ok in H as (? & v & ? & _ & H & _).
    inversion H; subst. apply dict_set_stamped. exact Hs.
  - destruct (String.eqb key "0").
    + unfold mib_table_index in H.
      apply bind_ok in H as (? & t & ? & _ & H & _).
      apply bind_ok in H as (? & nt & ? & _ & H & _).
      destruct (negb (py_eq nt (PStr "row"))); [inversion H; subst; exact Hs|].
      apply bind_ok in H as (? & has & ? & _ & H & _).
      destruct (negb has); [inversion H; subst; exact Hs|].
      apply bind_ok in H as (? & spec & ? & _ & H & _).
      apply bind_ok in H as (? & indices & ? & _ & H & _).
      exact (index_loop_stamped _ _ _ _ _ _ _ _ _ H Hs).
    + apply bind_ok in H as (? & ? & ? & _ & H & _). inversion H; subst.
      apply dict_set_stamped. exact Hs.
Qed.

Lemma resolve_cells_stamped mibs mib table cells : forall row evs row',
  resolve_cells mibs mib table row cells = (evs, Ok row') -> stamped row -> stamped row'.
Proof.
  induction cells as [|cell cells IH]; intros row evs row' H Hs.
  - inversion H; subst. exact Hs.
  - cbn [resolve_cells] in H. apply bind_ok in H as (? & row1 & ? & Hc & H & _).
    apply (IH _ _ _ H). exact (resolve_cell_stamped _ _ _ _ _ _ _ Hc Hs).
Qed.

(** X14. Every row the resolver returns starts with its ['_query_time']
    entry. *)
Theorem resolved_rows_stamped (mibs : pdict) (mib table : string) (t : Q)
    (raw_rows : list raw_row) (evs : list event) (table_data : list pdict) :
  resolve_rows mibs mib table t raw_rows [] = (evs, Ok table_data) ->
  Forall stamped table_data.
Proof.
  intros H. apply resolve_rows_each in H as (produced & -> & HF). simpl.
  induction HF as [|row table_row rows produced Hrow _ IH]; constructor; [|exact IH].
  unfold resolve_row in Hrow.
  destruct (resolve_cells mibs mib table [("_query_time", PFloat t)] row) as [e r] eqn:E.
  simpl in Hrow. subst r. apply (resolve_cells_stamped _ _ _ _ _ _ _ E).
  eexists _, _. reflexivity.
Qed.

(** ** The whole index *)

Lemma read_bytes_ok comps ns :
  read_bytes comps = Some ns ->
  Forall2 (fun c n => int_of_str c = Ok n /\ 0 <= n < 256) comps ns.
Proof.
  revert ns. induction comps as [|c comps IH]; simpl; intros ns H.
  - inversion H. constructor.
  - destruct (int_of_str c) as [n|] eqn:E; [|discriminate].
    destruct (read_bytes comps) as [ms|]; [|discriminate].
    destruct ((0 <=? n) && (n <? 256)) eqn:R; [|discriminate].
    inversion H; subst. apply andb_true_iff in R as [R1 R2].
    constructor; [split; [exact E|lia]|apply IH; reflexivity].
Qed.

Lemma index_field_of_value s k pos v :
  (width k <= length (skipn pos (split_on "." s)))%nat ->
  field_value k (slice pos (width k) (split_on "." s)) = Some v ->
  index_field (RStr s) k pos = Ok v.
Proof.
  intros Hlen Hv. unfold index_field. cbn [raw_split rbind].
  assert (Hl : length (slice pos (width k) (split_on "." s)) = width k).
  { unfold slice. rewrite length_firstn. lia. }
  destruct k; cbn [width field_value] in *.
  - destruct (read_bytes (slice pos 6 (split_on "." s))) as [ns|] eqn:E; [|discriminate].
    inversion Hv; subst. apply read_bytes_ok in E.
    rewrite (mac_decimal_to_hex_ok _ ns); [reflexivity| | |exact E].
    + intros E0. rewrite E0 in Hl. discriminate.
    + apply Forall_slice, split_on_no_sep.
  - inversion Hv. reflexivity.
  - destruct (slice pos 1 (split_on "." s)) as [|c [|]]; try discriminate.
    cbn [join]. destruct (int_of_str c); [|discriminate]. inversion Hv. reflexivity.
Qed.

Lemma index_loop_reads_fields mibs mib table s refs fields :
  Forall2 (fun ref f => exists module obj,
             names_object mibs ref module (fst f) obj
             /\ index_kind_of obj = Ok (snd f)) refs fields ->
  forall row pos row',
    decode_fields fields (skipn pos (split_on "." s)) row = Some row' ->
    index_loop mibs mib table (RStr s) refs row pos = ([], Ok row').
Proof.
  induction 1 as [|ref [name k] refs fields (module & obj & Hn & Hk) _ IH];
    intros row pos row' H.
  - inversion H. reflexivity.
  - cbn [decode_fields] in H. simpl in Hn, Hk.
    destruct (Nat.ltb_spec (length (skipn pos (split_on "." s))) (width k)); [discriminate|].
    destruct (field_value k (firstn (width k) (skipn pos (split_on "." s)))) as [v|] eqn:Ev;
      [|discriminate].
    rewrite (index_loop_step _ _ _ _ _ _ _ _ _ _ _ _ Hn Hk).
    rewrite (index_field_of_value _ _ _ v) by assumption.
    apply IH. rewrite skipn_skipn in H. rewrite Nat.add_comm. exact H.
Qed.

(** X15. The index decoder as a whole: for a row table whose index
    references all name objects of loaded MIBs, on a string index that has
    enough components which read as their types require, it assigns the
    fields left to right, each from as many components as its type is wide,
    logs nothing and raises nothing; components after the last field are
    ignored. *)
Theorem mib_table_index_reads_fields (mibs : pdict) (mib table s : string)
    (t : pdict) (refs : list pyval) (fields : list (string * index_kind))
    (row row' : pdict) :
  mib_object mibs (PStr mib) (PStr table) = Ok (PDict t) ->
  dict_get "nodetype" t = Some (PStr "row") ->
  dict_get "indices" t = Some (PList refs) ->
  Forall2 (fun ref f => exists module obj,
             names_object mibs ref module (fst f) obj
             /\ index_kind_of obj = Ok (snd f)) refs fields ->
  decode_fields fields (split_on "." s) row = Some row' ->
  mib_table_index mibs (RStr s) mib table row = ([], Ok row').
Proof.
  intros Ht Hn Hi HF Hd.
  rewrite (mib_table_index_start _ _ _ _ _ _ _ Ht Hn Hi).
  apply (index_loop_reads_fields _ _ _ _ _ _ HF). exact Hd.
Qed.

(** ** The cache over several calls *)

Lemma entry_at_store_other mib table entry c mib' table' :
  (mib', table') <> (mib, table) ->
  entry_at (store_entry mib table entry c) mib' table' = entry_at c mib' table'.
Proof.
  intros Hne. unfold entry_at, store_entry.
  destruct (decide (mib' = mib)) as [->|Hm].
  - assert (Ht : table <> table') by congruence.
    destruct (c !! mib) as [tables|] eqn:E.
    + rewrite E, lookup_insert_eq, lookup_insert_ne by exact Ht. reflexivity.
    + rewrite lookup_insert_eq, lookup_insert_eq, lookup_insert_ne by exact Ht.
      rewrite lookup_singleton_ne by exact Ht. reflexivity.
  - destruct (c !! mib) as [tables|] eqn:E.
    + rewrite E, lookup_insert_ne by congruence. reflexivity.
    + rewrite lookup_insert_eq, !lookup_insert_ne by congruence. reflexivity.
Qed.

Lemma live_query_ok_time w self mib table evs td t :
  live_query w self mib table = (evs, Ok (td, t)) -> t = query_clock w.
Proof.
  intros H. apply live_query_ok in H as [_ H]. revert H. unfold query_device.
  destruct (negb (dict_has mib (mibs self))); [discriminate|].
  intros L. apply bind_ok in L as (? & objects & ? & _ & L & _).
  destruct (negb (dict_has table objects)); [discriminate|].
  apply bind_ok in L as (? & ? & ? & _ & L & _).
  apply bind_ok in L as (? & ? & ? & _ & L & _).
  apply bind_ok in L as (? & ? & ? & _ & L & _).
  apply bind_ok in L as (? & ? & ? & _ & L & _).
  inversion L. reflexivity.
Qed.

(** What a call did, from what it returned. *)
Lemma get_table_outcome w self mib table allow q c' evs r :
  get_table w self mib table allow q = (c', (evs, r)) ->
  (exists rows, r = Ok rows /\ evs = [] /\ c' = _cache self
                /\ cached_data self mib table allow (now w) = Some rows)
  \/ (exists rows, r = Ok rows /\ polled evs
                   /\ cached_data self mib table allow (now w) = None
                   /\ c' = update_cache self mib table q (query_clock w) rows)
  \/ (exists e, r = Raise e /\ c' = _cache self
                /\ cached_data self mib table allow (now w) = None).
Proof.
  unfold get_table. destruct (cached_data self mib table allow (now w)) as [rows|] eqn:E.
  - intros H. inversion H; subst. left. exists rows. auto.
  - destruct (live_query w self mib table) as [evs' [[td t]|e]] eqn:L; intros H;
      inversion H; subst.
    + right. left. exists td. rewrite (live_query_ok_time _ _ _ _ _ _ _ L).
      split; [reflexivity|]. split; [exact (live_query_ok_polled _ _ _ _ _ _ L)|auto].
    + right. right. exists e. auto.
Qed.

Lemma refresh_time_entry local self mib table :
  get_cache_table_refresh_time local self mib table
  = match entry_at (_cache self) mib table with
    | Some e => match query_time e with
                | Some t => stamp local t
                | None => NoTime
                end
    | None => NoTime
    end.
Proof.
  unfold get_cache_table_refresh_time, entry_at.
  destruct (_cache self !! mib); reflexivity.
Qed.

(** X16. [get_cache_table_refresh_time] and [get_cache_table_age] after a
    call of [get_table]: after a successful live query with caching enabled
    the refresh time is what [datetime.fromtimestamp] makes of the time of
    that query (a local date and time, or its exception), and the age is
    the reading of the local clock less that local time; after any other
    call, and for every other table, both are what they were. *)
Theorem refresh_time_after_call (local : local_time) (w : world) (self : snmp_cache)
    (mib table : string) (allow : bool) (q : Z)
    (c' : gmap string (gmap string cache_entry)) (evs : list event)
    (r : result (list pdict)) :
  get_table w self mib table allow q = (c', (evs, r)) ->
  (cache_enabled self = true -> polled evs -> (exists rows, r = Ok rows) ->
   get_cache_table_refresh_time local (with_cache self c') mib table
   = stamp local (query_clock w)
   /\ forall clock,
        get_cache_table_age local clock (with_cache self c') mib table
        = match local (query_clock w) with
          | Some refresh_time => TimeOf (clock - refresh_time)
          | None => TimeRaises
          end)
  /\ (cache_enabled self = false \/ ~ polled evs \/ (exists e, r = Raise e) ->
      get_cache_table_refresh_time local (with_cache self c') mib table
      = get_cache_table_refresh_time local self mib table
      /\ forall clock,
           get_cache_table_age local clock (with_cache self c') mib table
           = get_cache_table_age local clock self mib table)
  /\ (forall mib' table', (mib', table') <> (mib, table) ->
      get_cache_table_refresh_time local (with_cache self c') mib' table'
      = get_cache_table_refresh_time local self mib' table').
Proof.
  intros H.
  assert (Hsame : forall m t,
            get_cache_table_refresh_time local (with_cache self (_cache self)) m t
            = get_cache_table_refresh_time local self m t) by reflexivity.
  assert (Hage : forall m t clock,
            get_cache_table_age local clock (with_cache self (_cache self)) m t
            = get_cache_table_age local clock self m t) by reflexivity.
  apply get_table_outcome in H
    as [(rows & -> & -> & -> & _)|[(rows & -> & Hp & _ & ->)|(e & -> & -> & _)]].
  - split; [intros _ [oid []]|]. split; intros; [split; intros|]; auto.
  - unfold update_cache. split; [|split].
    + intros -> _ _. unfold get_cache_table_age. rewrite refresh_time_entry.
      cbn [with_cache _cache]. rewrite entry_at_store_same. cbn [query_time].
      unfold stamp. split; [reflexivity|].
      intros clock. destruct (local (query_clock w)); reflexivity.
    + intros [->|[Hn|[e He]]]; [split; intros; auto|contradiction|discriminate].
    + intros mib' table' Hne. destruct (cache_enabled self) eqn:En; [|apply Hsame].
      rewrite !refresh_time_entry. cbn [with_cache _cache].
      rewrite entry_at_store_other by exact Hne. reflexivity.
  - split; [intros _ _ [rows Hr]; discriminate|].
    split; intros; [split; intros|]; auto.
Qed.

(** ** A call after a call *)

(** X17. What a live query stored is what a later call reads: after a
    successful live query with caching enabled, a call for the same table
    that allows cached data, made while the entry is fresh for the age the
    first call asked for, returns the same rows without a poll and leaves
    the cache as it is. *)
Theorem get_table_then_cached (w w' : world) (self : snmp_cache) (mib table : string)
    (allow : bool) (q q' : Z) (c' : gmap string (gmap string cache_entry))
    (evs : list event) (rows : list pdict) :
  cache_enabled self = true ->
  get_table w self mib table allow q = (c', (evs, Ok rows)) ->
  polled evs ->
  Fresh (now w') (max_cache_age self) q (query_clock w) ->
  get_table w' (with_cache self c') mib table true q' = (c', ([], Ok rows)).
Proof.
  intros Hen H Hp HF.
  apply get_table_outcome in H
    as [(r & _ & -> & _)|[(r & Hr & _ & _ & ->)|(e & He & _)]];
    [destruct Hp as [oid []]| |discriminate].
  injection Hr as <-. unfold update_cache. rewrite Hen.
  unfold get_table, cached_data. cbn [with_cache cache_enabled _cache].
  rewrite Hen. cbn [andb].
  pose proof (entry_at_store_same mib table
                {| max_age := Some q; query_time := Some (query_clock w); data := Some rows |}
                (_cache self)) as He.
  unfold entry_at in He.
  destruct (store_entry mib table _ (_cache self) !! mib) as [tables|]; [|discriminate].
  rewrite He.
  apply (within_age_fresh (with_cache self (store_entry mib table
           {| max_age := Some q; query_time := Some (query_clock w); data := Some rows |}
           (_cache self))) q (query_clock w) rows) in HF.
  rewrite HF. reflexivity.
Qed.

(** ** Max ages of zero and less *)

(** X18. A maximum age of zero or less switches the cache off for reading:
    when the smaller of the client's and the entry's maximum age is not
    positive and the entry is not from the future, a call that allows cached
    data is the forced call. *)
Theorem get_table_no_age_no_cache (w : world) (self : snmp_cache) (mib table : string)
    (q : Z) (e : cache_entry) :
  entry_at (_cache self) mib table = Some e ->
  Z.min (max_cache_age self) (from_option (max_age e) (max_cache_age self)) <= 0 ->
  (from_option (query_time e) 0 <= now w)%Q ->
  get_table w self mib table true q = get_table w self mib table false q.
Proof.
  intros He Hmin Hclock. rewrite get_table_forced. unfold get_table, cached_data.
  unfold entry_at in He. destruct (cache_enabled self); [|reflexivity]. cbn [andb].
  destruct (_cache self !! mib) as [tables|]; [|discriminate]. rewrite He.
  assert (Hold : within_age self e (now w) = false).
  { unfold within_age. destruct (Qltb _ _) eqn:E; [|reflexivity].
    apply Qltb_lt in E. exfalso.
    assert (Hm : (inject_Z (Z.min (max_cache_age self)
                     (from_option (max_age e) (max_cache_age self)) * 60) <= 0)%Q).
    { rewrite <- (Zle_Qle _ 0). lia. }
    revert E Hm Hclock.
    generalize (inject_Z (Z.min (max_cache_age self)
                  (from_option (max_age e) (max_cache_age self)) * 60)).
    generalize (from_option (query_time e) 0%Q). intros a b E Hm Hclock. lra. }
  rewrite Hold. reflexivity.
Qed.

(** ** Schema errors *)

(** X19. The session and the schema are only looked at when the cache does
    not serve the call.  Without usable cached rows, on a client with an
    [SnmpCredV2] a MIB that is not loaded and a table that is not in its MIB
    raise their [ValueError] before any poll and leave the cache alone; on a
    client with an [SnmpCredV3] the call raises [NameError] before the
    schema is looked at, since the [creds] property uses names that
    [creds.py] does not bind.  Cached rows are still returned after
    [load_mibs] has replaced the schema store by any other, whatever the
    credential. *)
Theorem get_table_schema_checks (w : world) (self : snmp_cache) (mib table : string)
    (allow : bool) (q : Z) :
  (forall community,
     cred self = CredV2 community ->
     cached_data self mib table allow (now w) = None ->
     dict_get mib (mibs self) = None ->
     get_table w self mib table allow q
     = (_cache self, ([], Raise (ValueError MibNotLoaded))))
  /\ (forall community objects,
        cred self = CredV2 community ->
        cached_data self mib table allow (now w) = None ->
        dict_get mib (mibs self) = Some (PDict objects) ->
        dict_get table objects = None ->
        get_table w self mib table allow q
        = (_cache self, ([], Raise (ValueError ObjectNotInMib))))
  /\ (forall c3,
        cred self = CredV3 c3 ->
        cached_data self mib table allow (now w) = None ->
        get_table w self mib table allow q = (_cache self, ([], Raise NameError)))
  /\ (forall rows files,
        cached_data self mib table allow (now w) = Some rows ->
        get_table w (fst (reload self files)) mib table allow q
        = (_cache self, ([], Ok rows))).
Proof.
  split; [|split; [|split]].
  - intros community Hv2 Hc Hm. unfold get_table. rewrite Hc.
    rewrite live_query_opened by (unfold open_session; rewrite Hv2; reflexivity).
    unfold query_device, dict_has. rewrite Hm. reflexivity.
  - intros community objects Hv2 Hc Hm Ht. unfold get_table. rewrite Hc.
    rewrite live_query_opened by (unfold open_session; rewrite Hv2; reflexivity).
    unfold query_device, dict_has.
    rewrite Hm. cbn [negb py_item]. rewrite Hm. cbn [rbind py_items].
    rewrite bind_lift_Ok, Ht. reflexivity.
  - intros c3 Hv3 Hc. unfold get_table. rewrite Hc.
    rewrite (live_query_refused _ _ _ _ NameError)
      by (unfold open_session; rewrite Hv3; reflexivity).
    reflexivity.
  - intros rows files Hc. unfold reload. destruct (load_mibs files) as [store r].
    unfold get_table. cbn [fst now]. 
    change (cached_data _ mib table allow (now w)) with (cached_data self mib table allow (now w)).
    rewrite Hc. reflexivity.
Qed.

(** ** Sequences of calls *)

Lemma get_table_entries w self mib table allow q m t e :
  entry_at (fst (get_table w self mib table allow q)) m t = Some e ->
  entry_at (_cache self) m t = Some e
  \/ (cache_enabled self = true /\ (m, t) = (mib, table)
      /\ exists rows, e = {| max_age := Some q; query_time := Some (query_clock w);
                             data := Some rows |}).
Proof.
  destruct (get_table w self mib table allow q) as [c' [evs r]] eqn:H. simpl.
  apply get_table_outcome in H
    as [(rows & _ & _ & -> & _)|[(rows & _ & _ & _ & ->)|(x & _ & -> & _)]]; auto.
  unfold update_cache. destruct (cache_enabled self); [|auto].
  destruct (decide ((m, t) = (mib, table))) as [E|Hne].
  - injection E as -> ->. rewrite entry_at_store_same. intros H. injection H as <-.
    right. eauto.
  - rewrite entry_at_store_other by exact Hne. auto.
Qed.

(** X20. Over any sequence of calls on a client that starts with an empty
    cache, every cache entry has its three fields and carries the maximum
    age and the query time of one of the calls for its table; with caching
    disabled the cache stays empty. *)
Theorem run_calls_invariant (self : snmp_cache) (calls : list call) :
  _cache self = ∅ ->
  (forall m t e, entry_at (run_calls self calls) m t = Some e ->
     complete e
     /\ exists c, In c calls /\ call_mib c = m /\ call_table c = t
                  /\ max_age e = Some (call_max_age c)
                  /\ query_time e = Some (query_clock (call_world c)))
  /\ (cache_enabled self = false -> run_calls self calls = ∅).
Proof.
  intros Hempty.
  assert (Hgen : forall calls self,
            (forall m t e, entry_at (run_calls self calls) m t = Some e ->
               entry_at (_cache self) m t = Some e
               \/ (complete e
                   /\ exists c, In c calls /\ call_mib c = m /\ call_table c = t
                                /\ max_age e = Some (call_max_age c)
                                /\ query_time e = Some (query_clock (call_world c))))).
  { clear. induction calls as [|c calls IH]; intros self m t e H; [left; exact H|].
    cbn [run_calls] in H. apply IH in H as [H|(Hc & c0 & Hin & Hrest)].
    - cbn [with_cache _cache] in H. apply get_table_entries in H as [H|(_ & E & rows & ->)].
      + left. exact H.
      + injection E as -> ->. right. split; [eexists _, _, _; reflexivity|].
        exists c. simpl. auto.
    - right. split; [exact Hc|]. exists c0. split; [right; exact Hin|exact Hrest]. }
  split.
  - intros m t e H. apply Hgen in H as [H|H]; [|exact H].
    rewrite Hempty in H. unfold entry_at in H. rewrite lookup_empty in H. discriminate.
  - intros Hoff. revert self Hempty Hoff. induction calls as [|c calls IH];
      intros self Hempty Hoff; [exact Hempty|].
    cbn [run_calls]. apply IH; [|exact Hoff]. cbn [with_cache _cache].
    destruct (get_table (call_world c) self (call_mib c) (call_table c)
                (call_allow_cached c) (call_max_age c)) as [c' [evs r]] eqn:H. simpl.
    apply get_table_outcome in H
      as [(rows & _ & _ & -> & _)|[(rows & _ & _ & _ & ->)|(x & _ & -> & _)]];
      try exact Hempty.
    unfold update_cache. rewrite Hoff. exact Hempty.
Qed.

(** ** The load pass *)

Lemma same_but_syntax_refl m : same_but_syntax m m.
Proof. repeat split; reflexivity. Qed.

Lemma set_syntax_same_but_syntax m0 m M k c o old v :
  dict_get M m = Some (PDict c) ->
  dict_get k c = Some (PDict o) ->
  dict_get "syntax" o = Some old ->
  same_but_syntax m0 m -> same_but_syntax m0 (set_syntax m M k v).
Proof.
  intros Hc Ho Hold (Hk & Hn & Hf).
  assert (Hset : set_syntax m M k v
                 = dict_set M (PDict (dict_set k (PDict (dict_set "syntax" v o)) c)) m).
  { unfold set_syntax. rewrite Hc, Ho. reflexivity. }
  split; [|split].
  - rewrite Hset, (keys_dict_set _ _ _ _ Hc). exact Hk.
  - intros M0. rewrite <- Hn. unfold object_names. rewrite Hset.
    destruct (String.eqb_spec M M0) as [<-|HM].
    + rewrite dict_get_set_same, Hc, (keys_dict_set _ _ _ _ Ho). reflexivity.
    + rewrite dict_get_set_other by exact HM. reflexivity.
  - intros M0 k0 f Hne. rewrite obj_field_set_syntax by exact Hne. apply Hf. exact Hne.
Qed.

Lemma import_step_same_but_syntax m0 M k m ik m' :
  import_step M k m ik = Ok m' -> same_but_syntax m0 m -> same_but_syntax m0 m'.
Proof.
  intros H Hm.
  apply import_step_writes in H as [->|(c & o & old & v & Hc & Ho & Hold & ->)];
    [exact Hm|].
  exact (set_syntax_same_but_syntax _ _ _ _ _ _ _ _ Hc Ho Hold Hm).
Qed.

Lemma mib_loop_same_but_syntax m0 names m m' r :
  for_each_loop mib_step names m = (m', r) -> same_but_syntax m0 m -> same_but_syntax m0 m'.
Proof.
  apply for_each_loop_inv. clear m m' r. intros m M m' r _. unfold mib_step.
  destruct (rbind _ _) as [objects|e]; [|intros H; inversion H; subst; auto].
  apply for_each_loop_inv. clear m m' r. intros m k m' r _. unfold object_step.
  destruct (imports_to_try m M k) as [iks|e]; [|intros H; inversion H; subst; auto].
  apply for_each_inv. intros m1 ik m2 _. apply import_step_same_but_syntax.
Qed.

(** X21. The resolution pass only ever writes ['syntax']: whether it
    completes or raises, the store it leaves has the same MIBs, the same
    objects in each and the same value in every other field of every
    object. *)
Theorem resolve_pass_keeps_shape (mibs mibs' : pdict) (r : result unit) :
  resolve_pass mibs = (mibs', r) -> same_but_syntax mibs mibs'.
Proof.
  intros H. apply (mib_loop_same_but_syntax mibs _ _ _ _ H), same_but_syntax_refl.
Qed.

(** ** A pass that completes has run the step of every object *)

Section Reaching.

Variables (A x : string) (Inv : pdict -> Prop).

Hypothesis Inv_stable : forall m M k c o old v,
  (M, k) <> (A, x) ->
  dict_get M m = Some (PDict c) ->
  dict_get k c = Some (PDict o) ->
  dict_get "syntax" o = Some old ->
  Inv m -> Inv (set_syntax m M k v).

Hypothesis Inv_object : forall m,
  Inv m -> exists ca, dict_get A m = Some (PDict ca)
                      /\ List.NoDup (keys ca) /\ In x (keys ca).

Lemma object_step_keeps M k m m' r :
  (M, k) <> (A, x) -> object_step M m k = (m', r) -> Inv m -> Inv m'.
Proof using Inv_stable.
  intros Hne. unfold object_step.
  destruct (imports_to_try m M k) as [iks|e]; [|intros H; inversion H; subst; auto].
  apply for_each_inv. intros m1 ik m2 _ H Hm.
  apply import_step_writes in H as [->|(c & o & old & v & Hc & Ho & Hold & ->)];
    [exact Hm|].
  exact (Inv_stable _ _ _ _ _ _ _ Hne Hc Ho Hold Hm).
Qed.

Lemma object_loop_keeps M l m m' r :
  (M <> A \/ ~ In x l) ->
  for_each_loop (object_step M) l m = (m', r) -> Inv m -> Inv m'.
Proof using Inv_stable.
  intros Hne. apply for_each_loop_inv. intros m1 k m2 r' Hin.
  apply object_step_keeps. intros E. inversion E; subst. tauto.
Qed.

Lemma mib_loop_keeps l m m' r :
  ~ In A l -> for_each_loop mib_step l m = (m', r) -> Inv m -> Inv m'.
Proof using Inv_stable.
  intros Hni. apply for_each_loop_inv. intros m1 M m2 r' Hin. unfold mib_step.
  destruct (rbind _ _) as [objects|e]; [|intros H; inversion H; subst; auto].
  apply object_loop_keeps. left. intros ->. contradiction.
Qed.

(** A pass that completes has run, and completed, the step of [x]. *)
Lemma resolve_pass_reaches m0 m' :
  List.NoDup (keys m0) ->
  Inv m0 ->
  resolve_pass m0 = (m', Ok tt) ->
  exists m1 m2, Inv m1 /\ object_step A m1 x = (m2, Ok tt).
Proof using Inv_stable Inv_object.
  intros Hnames Hm0 Hpass.
  destruct (Inv_object _ Hm0) as (ca0 & HA0 & _ & _).
  destruct (split_at_unique A _ Hnames (dict_get_some_keys _ _ _ HA0))
    as (n1 & n2 & Hsplit & Hn1 & _).
  unfold resolve_pass in Hpass. rewrite Hsplit in Hpass.
  apply for_each_loop_app in Hpass as (m1 & Hpre & Hpass).
  pose proof (mib_loop_keeps _ _ _ _ Hn1 Hpre Hm0) as Hm1.
  cbn [for_each_loop] in Hpass.
  destruct (mib_step m1 A) as [m2 [[]|e]] eqn:EA; [|discriminate].
  clear Hpass Hpre. revert EA. unfold mib_step.
  destruct (Inv_object _ Hm1) as (ca & HA & Hnd & Hx).
  cbn [py_item]. rewrite HA. cbn [rbind py_items].
  destruct (split_at_unique x _ Hnd Hx) as (o1 & o2 & Hsplit' & Ho1 & _).
  rewrite Hsplit'. intros EA. apply for_each_loop_app in EA as (m1a & Hpre & EA).
  pose proof (object_loop_keeps _ _ _ _ _ (or_intror Ho1) Hpre Hm1) as Hm1a.
  cbn [for_each_loop] in EA.
  destruct (object_step A m1a x) as [m1b [[]|e]] eqn:Ex; [|discriminate].
  exists m1a, m1b. auto.
Qed.

End Reaching.

(** ** An import from a MIB that is not loaded *)

Lemma dict_get_first {A} k (v : A) d :
  dict_get k d = Some v ->
  exists d1 d2, d = (d1 ++ (k, v) :: d2)%list /\ ~ In k (keys d1).
Proof.
  induction d as [|[k0 v0] d IH]; simpl; [discriminate|].
  destruct (String.eqb_spec k k0) as [->|Hne].
  - intros H. inversion H; subst. exists [], d. split; [reflexivity|intros []].
  - intros H. destruct (IH H) as (d1 & d2 & -> & Hni).
    exists ((k0, v0) :: d1), d2. split; [reflexivity|].
    simpl. intros [E|E]; [congruence|contradiction].
Qed.

Lemma awaits_stable A x B imps item okeys :
  dict_get "syntax" imps = None ->
  forall m M k c o old v,
    (M, k) <> (A, x) ->
    dict_get M m = Some (PDict c) ->
    dict_get k c = Some (PDict o) ->
    dict_get "syntax" o = Some old ->
    awaits A x B imps item okeys m -> awaits A x B imps item okeys (set_syntax m M k v).
Proof.
  intros Hns m M k c o old v Hne Hc Ho Hold (ca & HA & Hkeys & Hx & Himp & HB).
  assert (Hset : set_syntax m M k v
                 = dict_set M (PDict (dict_set k (PDict (dict_set "syntax" v o)) c)) m).
  { unfold set_syntax. rewrite Hc, Ho. reflexivity. }
  assert (HMB : M <> B) by (intros ->; congruence).
  rewrite Hset. destruct (String.eqb_spec M A) as [->|HM].
  - rewrite HA in Hc. injection Hc as <-.
    assert (Hk : k <> x) by congruence.
    exists (dict_set k (PDict (dict_set "syntax" v o)) ca).
    rewrite dict_get_set_same, (keys_dict_set _ _ _ _ Ho).
    rewrite (dict_get_set_other k x) by exact Hk.
    rewrite (dict_get_set_other A B) by exact HMB.
    repeat split; try assumption.
    destruct (String.eqb_spec k "imports") as [->|Hki].
    + rewrite Himp in Ho. injection Ho as <-. congruence.
    + rewrite dict_get_set_other by exact Hki. exact Himp.
  - exists ca. rewrite !dict_get_set_other by assumption. repeat split; assumption.
Qed.

Lemma dict_get_app_l {A} k (d1 d2 : list (string * A)) :
  In k (keys d1) -> dict_get k (d1 ++ d2)%list = dict_get k d1.
Proof.
  induction d1 as [|[k0 v0] d1 IH]; simpl; [intros []|].
  destruct (String.eqb_spec k k0) as [->|Hne]; [reflexivity|].
  intros [E|Hin]; [congruence|exact (IH Hin)].
Qed.

Lemma for_each_loop_app_fixed {A} (body : pdict -> A -> pdict * result unit) l1 l2 m :
  (forall a, In a l1 -> body m a = (m, Ok tt)) ->
  for_each_loop body (l1 ++ l2)%list m = for_each_loop body l2 m.
Proof.
  induction l1 as [|a l1 IH]; simpl; intros H; [reflexivity|].
  rewrite (H a) by (left; reflexivity). apply IH. intros b Hb. apply H. right. exact Hb.
Qed.

Lemma object_step_settled_at M m content k item :
  dict_get M m = Some (PDict content) ->
  dict_get k content = Some item ->
  object_settled content item = true ->
  object_step M m k = (m, Ok tt).
Proof.
  intros HM Hitem Hall. unfold object_settled in Hall.
  unfold object_step, imports_to_try. simpl. rewrite HM. simpl. rewrite Hitem. simpl.
  destruct (is_type_reference item) as [[|]|]; try discriminate; [|reflexivity].
  destruct (py_get (PDict content) "imports" (PDict [])) as [[| | | | | | | | |imps]|] eqn:Ei;
    try discriminate.
  destruct (py_item item "syntax") as [syn|] eqn:Es; [|discriminate].
  simpl in Ei. simpl. injection Ei as Ei. rewrite Ei. simpl.
  apply for_each_fixed. intros ik Hik.
  apply (import_step_settled M k m content item syn imps); try assumption.
  simpl. rewrite Ei. reflexivity.
Qed.

(** X22. An import from a MIB that is not loaded keeps the pass from
    completing: when an objecttype object's type reference is declared by
    an import entry that is a resolution source and names a MIB missing from
    the store, the object's step raises [KeyError] and the pass raises.
    When every MIB before the object's and every object before it in its
    MIB is settled, so that nothing is rewritten or raised before the pass
    gets to the object, the pass raises that [KeyError] and leaves the store
    as it was. *)
Theorem resolve_pass_missing_import (mibs : pdict) (A x B Foo : string)
    (ca item syn imps : pdict) (decl : pyval) :
  List.NoDup (keys mibs) ->
  List.NoDup (keys ca) ->
  dict_get A mibs = Some (PDict ca) ->
  dict_get x ca = Some (PDict item) ->
  dict_get "class" item = Some (PStr "objecttype") ->
  dict_get "syntax" item = Some (PDict syn) ->
  dict_get "class" syn = Some (PStr "type") ->
  dict_get "type" syn = Some (PStr Foo) ->
  dict_get "imports" ca = Some (PDict imps) ->
  dict_get "syntax" imps = None ->
  dict_get B imps = Some decl ->
  skipped B = false ->
  py_in (PStr Foo) decl = Ok true ->
  dict_get B mibs = None ->
  (forall k v, In (k, v) imps -> k <> B ->
     skipped k = true \/ py_in (PStr Foo) v = Ok false) ->
  (forall m, awaits A x B imps item (keys ca) m -> object_step A m x = (m, Raise KeyError))
  /\ (exists e, snd (resolve_pass mibs) = Raise e)
  /\ (forall pre post opre opost,
        mibs = (pre ++ (A, PDict ca) :: post)%list ->
        ca = (opre ++ (x, PDict item) :: opost)%list ->
        settled pre = true ->
        forallb (fun kv => object_settled ca (snd kv)) opre = true ->
        resolve_pass mibs = (mibs, Raise KeyError)).
Proof.
  intros Hn1 Hn2 HA Hx Hcls Hsyn Hsc Hst Himp Hns HB Hsk Hdecl HBm Hothers.
  assert (Hstep : forall m, awaits A x B imps item (keys ca) m ->
                  object_step A m x = (m, Raise KeyError)).
  { intros m (ca' & HA' & _ & Hx' & Himp' & HB').
    assert (Htry : imports_to_try m A x = Ok (keys imps)).
    { unfold imports_to_try. cbn [py_item]. rewrite HA'. cbn [rbind py_item].
      rewrite Hx'. cbn [rbind]. unfold is_type_reference. cbn [is_dict py_get].
      rewrite Hcls. cbn [rbind py_eq String.eqb Ascii.eqb Bool.eqb].
      rewrite Hsyn. cbn [rbind py_get]. rewrite Hsc. cbn [rbind py_eq].
      simpl. rewrite Himp'. reflexivity. }
    unfold object_step. rewrite Htry.
    destruct (dict_get_first _ _ _ HB) as (d1 & d2 & Hd & Hni).
    assert (Hkeys : keys imps = (keys d1 ++ B :: keys d2)%list).
    { rewrite Hd. unfold keys. rewrite map_app. reflexivity. }
    rewrite Hkeys, for_each_app_fixed.
    - cbn [for_each]. unfold import_step. rewrite Hsk.
      cbn [py_item]. rewrite HA'. cbn [rbind py_item]. rewrite Hx'. cbn [rbind py_get].
      rewrite Himp'. cbn [rbind py_item]. rewrite HB. cbn [rbind].
      rewrite Hsyn. cbn [rbind py_get]. rewrite Hst. cbn [rbind]. rewrite Hdecl.
      cbn [rbind py_item]. rewrite HB'. reflexivity.
    - intros k Hk. unfold import_step. destruct (skipped k) eqn:Esk; [reflexivity|].
      assert (HkB : k <> B) by (intros ->; contradiction).
      assert (Hin : In k (keys imps)).
      { rewrite Hkeys, in_app_iff. left. exact Hk. }
      destruct (dict_get_keys _ _ Hin) as [v Hv].
      destruct (Hothers k v (dict_get_In _ _ _ Hv) HkB) as [E|E]; [congruence|].
      cbn [py_item]. rewrite HA'. cbn [rbind py_item]. rewrite Hx'. cbn [rbind py_get].
      rewrite Himp'. cbn [rbind py_item]. rewrite Hv. cbn [rbind].
      rewrite Hsyn. cbn [rbind py_get]. rewrite Hst. cbn [rbind]. rewrite E. reflexivity. }
  assert (H0 : awaits A x B imps item (keys ca) mibs) by (exists ca; auto).
  split; [exact Hstep|]. split.
  2:{ intros pre post opre opost Hmibs Hca Hpre Hopre.
      unfold resolve_pass.
      assert (Hk : keys mibs = (keys pre ++ A :: keys post)%list).
      { rewrite Hmibs. unfold keys. rewrite map_app. reflexivity. }
      rewrite Hk, for_each_loop_app_fixed.
      - cbn [for_each_loop]. unfold mib_step at 1. cbn [py_item]. rewrite HA.
        cbn [rbind py_items].
        assert (Hko : keys ca = (keys opre ++ x :: keys opost)%list).
        { rewrite Hca. unfold keys. rewrite map_app. reflexivity. }
        rewrite Hko, for_each_loop_app_fixed.
        + cbn [for_each_loop]. rewrite (Hstep _ H0). reflexivity.
        + intros k Hin. destruct (dict_get_keys _ _ Hin) as [it Hit].
          apply (object_step_settled_at A mibs ca k it HA).
          * rewrite Hca, dict_get_app_l by exact Hin. exact Hit.
          * rewrite forallb_forall in Hopre.
            exact (Hopre _ (dict_get_In _ _ _ Hit)).
      - intros M Hin. destruct (dict_get_keys _ _ Hin) as [c Hc].
        unfold settled in Hpre. rewrite forallb_forall in Hpre.
        specialize (Hpre _ (dict_get_In _ _ _ Hc)). simpl in Hpre.
        destruct c as [| | | | | | | | |content]; try discriminate.
        assert (HM : dict_get M mibs = Some (PDict content)).
        { rewrite Hmibs, dict_get_app_l by exact Hin. exact Hc. }
        unfold mib_step. cbn [py_item]. rewrite HM. cbn [rbind py_items].
        apply for_each_loop_fixed. intros k Hkin.
        apply (object_step_settled M mibs content); assumption. }
  destruct (resolve_pass mibs) as [m' [[]|e]] eqn:Hpass; [|eauto].
  exfalso.
  destruct (resolve_pass_reaches A x (awaits A x B imps item (keys ca))
              (awaits_stable A x B imps item (keys ca) Hns)) with (m0 := mibs) (m' := m')
    as (m1 & m2 & Hm1 & Hrun); try assumption.
  - intros m (ca' & HA' & Hk' & Hx' & _). exists ca'. rewrite Hk'.
    split; [exact HA'|]. split; [exact Hn2|]. rewrite <- Hk'.
    exact (dict_get_some_keys _ _ _ Hx').
  - rewrite (Hstep _ Hm1) in Hrun. discriminate.
Qed.

(** ** Credentials *)

(** X23. [SnmpCredV3] accepts its arguments exactly when the user has a
    length that is not zero, the authentication is none, md5 or sha1, the
    privacy is none, des or aes, and each of the two that is set comes with
    a password that is not empty; the credential then holds the user and
    the other arguments with non-strings and empty strings as [None]. *)
Theorem SnmpCredV3_accepted (user' auth' auth_pass' priv' priv_pass' : pyval)
    (c : snmp_cred_v3) :
  SnmpCredV3_init user' auth' auth_pass' priv' priv_pass' = inr c
  <-> (exists n, py_len user' = Some (S n))
      /\ c = {| user := user'; auth := str_or_none auth';
                auth_pass := str_or_none auth_pass';
                priv := str_or_none priv'; priv_pass := str_or_none priv_pass' |}
      /\ (auth c = None \/ auth c = Some "md5" \/ auth c = Some "sha1")
      /\ (priv c = None \/ priv c = Some "des" \/ priv c = Some "aes")
      /\ (auth c <> None -> exists p, auth_pass c = Some p /\ p <> "")
      /\ (priv c <> None -> exists p, priv_pass c = Some p /\ p <> "").
Proof.
  unfold SnmpCredV3_init. cbn [auth auth_pass priv priv_pass].
  assert (Hsup : forall a b x, supported a b x = true <-> x = None \/ x = Some a \/ x = Some b).
  { intros a b [s|]; simpl; [|split; auto].
    rewrite orb_true_iff, !String.eqb_eq. split.
    - intros [->| ->]; auto.
    - intros [H|[H|H]]; [discriminate|injection H; auto|injection H; auto]. }
  assert (Hpw : forall x p, is_set x && no_password (str_or_none p) = false
                            <-> (x <> None -> exists s, str_or_none p = Some s /\ s <> "")).
  { intros [a|] p; simpl.
    - destruct (str_or_none p) as [s|] eqn:E; simpl.
      + destruct p; try discriminate. simpl in E.
        destruct (String.eqb_spec s0 ""); [discriminate|]. injection E as <-.
        destruct s0; [congruence|]. simpl. split; [|reflexivity].
        intros _ _. eexists. split; [reflexivity|discriminate].
      + split; [discriminate|]. intros H. destruct (H ltac:(discriminate)) as (s & Hs & _).
        discriminate.
    - split; [congruence|reflexivity]. }
  split.
  - destruct (py_len user') as [[|n]|]; try discriminate. cbn [Nat.eqb].
    destruct (supported "md5" "sha1" (str_or_none auth')) eqn:Ea; [|discriminate].
    destruct (supported "des" "aes" (str_or_none priv')) eqn:Ep; [|discriminate].
    cbn [negb].
    destruct (is_set (str_or_none auth') && no_password (str_or_none auth_pass')) eqn:Eap;
      [discriminate|].
    destruct (is_set (str_or_none priv') && no_password (str_or_none priv_pass')) eqn:Epp;
      [discriminate|].
    intros H. injection H as <-. cbn [auth auth_pass priv priv_pass].
    split; [eauto|]. split; [reflexivity|].
    split; [apply Hsup, Ea|]. split; [apply Hsup, Ep|].
    split; [apply Hpw, Eap|apply Hpw, Epp].
  - intros ([n Hn] & -> & Ha & Hp & Hap & Hpp). cbn [auth auth_pass priv priv_pass] in *.
    rewrite Hn. cbn [Nat.eqb].
    apply Hsup in Ha. apply Hsup in Hp. apply Hpw in Hap. apply Hpw in Hpp.
    rewrite Ha, Hp, Hap, Hpp. reflexivity.
Qed.

Lemma str_or_none_as_arg v : str_or_none (as_arg (str_or_none v)) = str_or_none v.
Proof.
  destruct v; try reflexivity. simpl. destruct (String.eqb_spec s ""); [reflexivity|].
  simpl. destruct (String.eqb_spec s ""); [contradiction|reflexivity].
Qed.

(** X24. [SnmpCredV3] does not tell an argument that is not a string, or
    the empty string, from [None]; and with neither authentication nor
    privacy it accepts any passwords and keeps them. *)
Theorem SnmpCredV3_arguments (user' auth' auth_pass' priv' priv_pass' : pyval) :
  SnmpCredV3_init user' auth' auth_pass' priv' priv_pass'
  = SnmpCredV3_init user' (as_arg (str_or_none auth')) (as_arg (str_or_none auth_pass'))
      (as_arg (str_or_none priv')) (as_arg (str_or_none priv_pass'))
  /\ (str_or_none auth' = None -> str_or_none priv' = None ->
      forall n, py_len user' = Some (S n) ->
      SnmpCredV3_init user' auth' auth_pass' priv' priv_pass'
      = inr {| user := user'; auth := None; auth_pass := str_or_none auth_pass';
               priv := None; priv_pass := str_or_none priv_pass' |}).
Proof.
  split.
  - unfold SnmpCredV3_init. rewrite !str_or_none_as_arg. reflexivity.
  - intros Ha Hp n Hn. unfold SnmpCredV3_init. rewrite Hn, Ha, Hp. reflexivity.
Qed.

(** ** One poll a call *)

Lemma quiet_bind {A B} (m : M A) (f : A -> M B) :
  quiet m -> (forall a, quiet (f a)) -> quiet (bind m f).
Proof.
  destruct m as [l [a|e]]; unfold quiet; simpl; [|auto].
  intros Hl H. specialize (H a). destruct (f a) as [l' r]. simpl in *.
  apply Forall_app. auto.
Qed.

Lemma quiet_lift {A} (r : result A) : quiet (lift r).
Proof. constructor. Qed.

Lemma quiet_ret {A} (a : A) : quiet (ret a).
Proof. constructor. Qed.

Lemma quiet_try_except {A} (m : M A) (h : exn -> M A) :
  quiet m -> (forall e, quiet (h e)) -> quiet (try_except m h).
Proof.
  destruct m as [l [a|e]]; unfold quiet; simpl; [auto|].
  intros Hl H. specialize (H e). destruct (h e) as [l' r]. simpl in *.
  apply Forall_app. auto.
Qed.

Create HintDb quiet.
#[local] Hint Resolve quiet_lift quiet_ret : quiet.

Ltac quiet_tac :=
  repeat first
    [ progress intros
    | match goal with
      | |- quiet (bind _ _) => apply quiet_bind
      | |- quiet (try_except _ _) => apply quiet_try_except
      | |- quiet (tell (WarnUnknownOid _)) => repeat constructor
      | |- quiet (tell (WarnDecode _ _)) => repeat constructor
      | |- quiet (tell (ErrIndex _ _ _ _)) => repeat constructor
      end
    | solve [auto with quiet]
    | match goal with |- context [if ?b then _ else _] => destruct b end
    | match goal with |- context [match ?x with _ => _ end] => destruct x end ].

Lemma type_fixups_quiet v s : quiet (type_fixups v s).
Proof. unfold type_fixups. quiet_tac. Qed.
#[local] Hint Resolve type_fixups_quiet : quiet.
Lemma format_snmp_field_quiet v s : quiet (format_snmp_field v s).
Proof. unfold format_snmp_field. quiet_tac. Qed.
#[local] Hint Resolve format_snmp_field_quiet : quiet.
Lemma log_index_error_quiet mibs k v t a b e : quiet (log_index_error mibs k v t a b e).
Proof. unfold log_index_error. quiet_tac. Qed.
#[local] Hint Resolve log_index_error_quiet : quiet.
Lemma index_loop_quiet mibs mib t v l : forall row pos, quiet (index_loop mibs mib t v l row pos).
Proof. induction l; intros; cbn [index_loop]; quiet_tac. Qed.
#[local] Hint Resolve index_loop_quiet : quiet.
Lemma mib_table_index_quiet mibs v a b r : quiet (mib_table_index mibs v a b r).
Proof. unfold mib_table_index. quiet_tac. Qed.
#[local] Hint Resolve mib_table_index_quiet : quiet.
Lemma resolve_cell_quiet mibs a b r c : quiet (resolve_cell mibs a b r c).
Proof. unfold resolve_cell. quiet_tac. Qed.
#[local] Hint Resolve resolve_cell_quiet : quiet.
Lemma resolve_cells_quiet mibs a b l : forall r, quiet (resolve_cells mibs a b r l).
Proof. induction l; intros; cbn [resolve_cells]; quiet_tac. Qed.
#[local] Hint Resolve resolve_cells_quiet : quiet.
Lemma resolve_rows_quiet mibs a b t l : forall acc, quiet (resolve_rows mibs a b t l acc).
Proof. induction l; intros; cbn [resolve_rows]; unfold resolve_row; quiet_tac. Qed.

Lemma polls_app a b : polls (a ++ b)%list = (polls a ++ polls b)%list.
Proof. unfold polls. apply flat_map_app. Qed.

Lemma quiet_polls {A} (m : M A) : quiet m -> polls (fst m) = [].
Proof.
  unfold quiet. induction 1 as [|ev l Hev _ IH]; [reflexivity|].
  cbn [polls flat_map]. destruct ev; [contradiction| | |]; exact IH.
Qed.

(** X25. A call of [get_table] polls the device at most once, and then
    for the OID of the table asked for. *)
Theorem get_table_polls_once (w : world) (self : snmp_cache) (mib table : string)
    (allow : bool) (q : Z) :
  polls (fst (snd (get_table w self mib table allow q))) = []
  \/ exists t oid,
       mib_object (mibs self) (PStr mib) (PStr table) = Ok t
       /\ py_item t "oid" = Ok oid
       /\ polls (fst (snd (get_table w self mib table allow q))) = [oid].
Proof.
  unfold get_table.
  destruct (cached_data self mib table allow (now w)); [left; reflexivity|].
  assert (H : polls (fst (live_query w self mib table)) = []
              \/ exists t oid,
                   mib_object (mibs self) (PStr mib) (PStr table) = Ok t
                   /\ py_item t "oid" = Ok oid
                   /\ polls (fst (live_query w self mib table)) = [oid]).
  { destruct (open_session self) as [[]|e0] eqn:Eopen;
      [|left; rewrite (live_query_refused _ _ _ _ _ Eopen); reflexivity].
    rewrite (live_query_opened _ _ _ _ Eopen). unfold query_device.
    destruct (negb (dict_has mib (mibs self))); [left; reflexivity|].
    destruct (rbind (py_item (PDict (mibs self)) mib) _) as [objects|e];
      [rewrite bind_lift_Ok|left; reflexivity].
    destruct (negb (dict_has table objects)); [left; reflexivity|].
    destruct (mib_object (mibs self) (PStr mib) (PStr table)) as [t|e] eqn:Et;
      [|left; reflexivity].
    cbn [rbind]. destruct (py_item t "oid") as [oid|e] eqn:Eo; [|left; reflexivity].
    rewrite bind_lift_Ok. right. exists t, oid. split; [reflexivity|]. split; [exact Eo|].
    unfold poll, bind, tell. destruct (device w oid) as [raw_rows|]; [|reflexivity].
    cbn [ret app].
    pose proof (resolve_rows_quiet (mibs self) mib table (query_clock w) raw_rows [])
      as Hq. apply quiet_polls in Hq.
    destruct (resolve_rows (mibs self) mib table (query_clock w) raw_rows [])
      as [l [td|e]]; cbn [fst] in Hq.
    - destruct (lift (check_row_count td raw_rows)) as [l1 [[]|e]] eqn:Ec;
        unfold lift in Ec; injection Ec as <- _; cbn [fst app polls flat_map];
        fold (polls (l ++ [])); rewrite ?app_nil_r; fold (polls l); rewrite Hq; reflexivity.
    - cbn [fst app polls flat_map]. fold (polls l). rewrite Hq. reflexivity. }
  destruct (live_query w self mib table) as [evs [[td t]|e]]; exact H.
Qed.

(** ** A new client *)

Lemma get_table_empty_cache (self : snmp_cache) w mib table allow q :
  _cache self = ∅ ->
  get_table w self mib table allow q = get_table w self mib table false q.
Proof.
  intros Hs. unfold get_table, cached_data. rewrite Hs, lookup_empty.
  destruct (cache_enabled self && allow); rewrite andb_false_r; reflexivity.
Qed.

Lemma SnmpCache_init_state given files enabled age self :
  SnmpCache_init given files enabled age = inr self ->
  _cache self = ∅ /\ cache_enabled self = enabled /\ max_cache_age self = age
  /\ cred self = given
  /\ (files = None -> mibs self = []).
Proof.
  unfold SnmpCache_init. intros H.
  assert (H' : match files with
               | None => inr {| cache_enabled := enabled; max_cache_age := age;
                                cred := given; mibs := []; _cache := ∅ |}
               | Some fs =>
                   match reload {| cache_enabled := enabled; max_cache_age := age;
                                   cred := given; mibs := []; _cache := ∅ |} fs with
                   | (self', Ok _) => inr self'
                   | (_, Raise e) => inl (LoadFailed e)
                   end
               end = (inr self : init_error + snmp_cache))
    by (destruct given; [exact H|exact H|discriminate H]).
  clear H. destruct files as [fs|].
  - unfold reload in H'. destruct (load_mibs fs) as [store [[]|e]]; [|discriminate].
    injection H' as <-. repeat split. discriminate.
  - injection H' as <-. repeat split.
Qed.

(** X26. A client that [__init__] builds for an [SnmpCredV2] has an empty
    cache and the settings it was given, so its first call for any table is
    a live one, and without [mib_paths] every call raises the [ValueError]
    of a MIB that is not loaded; for anything but a credential object
    [__init__] raises. *)
Theorem SnmpCache_init_first_call (community : pyval)
    (files : option (list (string * pyval))) (enabled : bool) (age : Z)
    (self : snmp_cache) :
  SnmpCache_init (CredV2 community) files enabled age = inr self ->
  _cache self = ∅
  /\ cache_enabled self = enabled /\ max_cache_age self = age
  /\ (forall w mib table allow q,
        get_table w self mib table allow q = get_table w self mib table false q)
  /\ (files = None ->
      forall w mib table allow q,
        get_table w self mib table allow q = (∅, ([], Raise (ValueError MibNotLoaded))))
  /\ (forall v, SnmpCache_init (NotACredential v) files enabled age = inl BadCredential).
Proof.
  intros H. apply SnmpCache_init_state in H as (Hc & He & Ha & Hv2 & Hm).
  split; [exact Hc|]. split; [exact He|]. split; [exact Ha|].
  split; [|split; [|reflexivity]].
  - intros w mib table allow q. apply get_table_empty_cache, Hc.
  - intros Hf w mib table allow q.
    rewrite get_table_empty_cache by exact Hc. rewrite get_table_forced.
    rewrite live_query_opened by (unfold open_session; rewrite Hv2; reflexivity).
    unfold query_device. rewrite (Hm Hf), Hc. reflexivity.
Qed.

(** * The further properties on the sample data *)

Lemma mac_encoders_agree_witness :
  mac_decimal_to_hex (dotted mac_bytes) = mac_binary_to_hex (RBytes mac_bytes).
Proof. apply (proj1 (mac_encoders_agree mac_bytes)). discriminate. Defined.

Lemma index_and_column_agree_witness :
  (exists s, mac_binary_to_hex (RBytes mac_bytes) = Ok s
             /\ index_field (RStr (dotted mac_bytes)) IdxMac 0 = Ok (PStr s))
  /\ (exists s, ip_binary_to_str (RBytes ip_bytes) = Ok s
                /\ index_field (RStr (dotted ip_bytes)) IdxInet 0 = Ok (PStr s)).
Proof.
  split.
  - apply (proj1 (index_and_column_agree mac_bytes)). reflexivity.
  - apply (proj2 (index_and_column_agree ip_bytes)). reflexivity.
Defined.

Lemma bytes_to_str_decodes_witness :
  bytes_to_str (RBytes up_bytes) = Ok "up"
  /\ bytes_to_str (RBytes (up_bytes ++ [Byte.xff])) = Raise (ValueError UnicodeDecode).
Proof.
  assert (H : Forall (fun b => byte_val b <= 127) up_bytes)
    by (repeat constructor; vm_compute; discriminate).
  split.
  - apply (proj1 (bytes_to_str_decodes up_bytes Byte.xff) H).
  - apply (proj2 (bytes_to_str_decodes up_bytes Byte.xff) H). vm_compute. discriminate.
Defined.

Lemma normalize_mac_again_witness :
  normalize_mac (normalize_mac "00-1A-2B-3C-4D-5E" ":") ""
  = normalize_mac "00-1A-2B-3C-4D-5E" "".
Proof. apply (normalize_mac_again "00-1A-2B-3C-4D-5E" ":" ""). left. reflexivity. Defined.

Lemma normalize_mac_length_witness :
  String.length (normalize_mac "00:1a:2b:3c:4d:5e:6f" ":") = 17%nat.
Proof.
  apply (normalize_mac_length "00:1a:2b:3c:4d:5e:6f" ":" eq_refl eq_refl).
  vm_compute. lia.
Defined.

Lemma normalize_mac_of_bytes_witness :
  normalize_mac "001a2b3c4d5e" ":" = "00:1a:2b:3c:4d:5e"
  /\ normalize_mac "001a2b3c4d5e" "" = "001a2b3c4d5e".
Proof.
  apply (normalize_mac_of_bytes mac_bytes "001a2b3c4d5e" ":"); reflexivity.
Defined.

Lemma format_without_type_reference_witness :
  format_snmp_field (RInt 7) (PDict [("type", PStr "Integer32"); ("class", PStr "ObjectType")])
  = ([], Ok (PInt 7)).
Proof.
  apply (format_without_type_reference (RInt 7)
           [("type", PStr "Integer32"); ("class", PStr "ObjectType")]).
  right. right. right. right. exists "ObjectType". split; [reflexivity|].
  vm_compute. discriminate.
Defined.

Lemma format_plain_type_witness :
  format_snmp_field (RBytes up_bytes) (type_ref "DisplayString") = ([], Ok (PStr "up")).
Proof.
  apply (format_plain_type (RBytes up_bytes)
           [("type", PStr "DisplayString"); ("class", PStr "type")] "type" "DisplayString");
    reflexivity.
Defined.

Lemma format_address_of_scalar_witness :
  format_snmp_field (RInt 5) (type_ref "MacAddress") = ([], Raise TypeError).
Proof.
  apply (format_address_of_scalar (RInt 5)
           [("type", PStr "MacAddress"); ("class", PStr "type")] "type" "MacAddress").
  - reflexivity.
  - reflexivity.
  - reflexivity.
  - left. reflexivity.
  - left. exists 5. reflexivity.
Defined.


Lemma resolve_cell_unmatched_witness :
  resolve_cell sample_mibs "IF-MIB" "ifEntry" [] ("99", RInt 3)
  = ([WarnUnknownOid "99"], Ok [("99", PInt 3)]).
Proof.
  apply (proj1 (resolve_cell_unmatched sample_mibs "IF-MIB" "ifEntry" "99" (RInt 3) []
                  if_objects if_entry "1.3.6.1.2.1.2.2.1" eq_refl eq_refl eq_refl
                  ltac:(repeat (constructor;
                          [eexists; split; [reflexivity|vm_compute; discriminate]|]);
                        constructor))).
  discriminate.
Defined.

Lemma resolved_rows_stamped_witness : Forall stamped (if_resolved 1361).
Proof.
  apply (resolved_rows_stamped sample_mibs "IF-MIB" "ifEntry" 1361 if_rows []).
  vm_compute. reflexivity.
Defined.

Lemma arpPort_named :
  names_object sample_mibs (index_ref "ARP-MIB" "arpPort") "ARP-MIB" "arpPort"
    (column "1.3.9.1.3" (type_ref "Integer32")).
Proof. eexists _, _. repeat split; reflexivity. Defined.

Lemma mib_table_index_reads_fields_witness :
  mib_table_index sample_mibs (RStr "7") "ARP-MIB" "portEntry" []
  = ([], Ok [("arpPort", PInt 7)]).
Proof.
  apply (mib_table_index_reads_fields sample_mibs "ARP-MIB" "portEntry" "7" port_entry
           [index_ref "ARP-MIB" "arpPort"] [("arpPort", IdxInt)] []).
  - reflexivity.
  - reflexivity.
  - reflexivity.
  - constructor; [|constructor]. eexists _, _. split; [exact arpPort_named|reflexivity].
  - reflexivity.
Defined.

Lemma refresh_time_after_call_witness :
  get_cache_table_refresh_time utc
    (with_cache (client true ∅)
       (fst (get_table device_up (client true ∅) "IF-MIB" "ifEntry" true 10)))
    "IF-MIB" "ifEntry" = TimeOf 1361000000
  /\ get_cache_table_age utc 1400000000
       (with_cache (client true ∅)
          (fst (get_table device_up (client true ∅) "IF-MIB" "ifEntry" true 10)))
       "IF-MIB" "ifEntry" = TimeOf 39000000.
Proof.
  destruct (refresh_time_after_call utc device_up (client true ∅) "IF-MIB" "ifEntry"
              true 10
              (fst (get_table device_up (client true ∅) "IF-MIB" "ifEntry" true 10))
              [Polled (PStr "1.3.6.1.2.1.2.2.1")] (Ok (if_resolved 1361))) as [H _].
  - vm_compute. reflexivity.
  - destruct H as [H1 H2].
    + reflexivity.
    + exists (PStr "1.3.6.1.2.1.2.2.1"). left. reflexivity.
    + exists (if_resolved 1361). reflexivity.
    + split; [exact H1|exact (H2 1400000000)].
Defined.

Lemma get_table_then_cached_witness :
  get_table (device_at 1400)
    (with_cache (client true ∅)
       (fst (get_table device_up (client true ∅) "IF-MIB" "ifEntry" true 10)))
    "IF-MIB" "ifEntry" true 10
  = (fst (get_table device_up (client true ∅) "IF-MIB" "ifEntry" true 10),
     ([], Ok (if_resolved 1361))).
Proof.
  apply (get_table_then_cached device_up (device_at 1400) (client true ∅)
           "IF-MIB" "ifEntry" true 10 10 _ [Polled (PStr "1.3.6.1.2.1.2.2.1")]).
  - reflexivity.
  - vm_compute. reflexivity.
  - exists (PStr "1.3.6.1.2.1.2.2.1"). left. reflexivity.
  - vm_compute. reflexivity.
Defined.

Lemma get_table_no_age_no_cache_witness :
  get_table (device_at 1001) (client true cache_of_age_0) "IF-MIB" "ifEntry" true 10
  = get_table (device_at 1001) (client true cache_of_age_0) "IF-MIB" "ifEntry" false 10.
Proof.
  apply (get_table_no_age_no_cache (device_at 1001) (client true cache_of_age_0)
           "IF-MIB" "ifEntry" 10 (entry_of 0 1000)).
  - vm_compute. reflexivity.
  - vm_compute. discriminate.
  - vm_compute. discriminate.
Defined.

Lemma get_table_schema_checks_witness :
  get_table device_up (client true cache_at_1000) "NO-MIB" "ifEntry" true 10
  = (cache_at_1000, ([], Raise (ValueError MibNotLoaded)))
  /\ get_table device_up (client true cache_at_1000) "IF-MIB" "ifNothing" true 10
     = (cache_at_1000, ([], Raise (ValueError ObjectNotInMib)))
  /\ get_table device_up (client_v3 cache_at_1000) "IF-MIB" "ifEntry" true 10
     = (cache_at_1000, ([], Raise NameError))
  /\ get_table (device_at 1100) (fst (reload (client_v3 cache_at_1000) []))
       "IF-MIB" "ifEntry" true 10
     = (cache_at_1000, ([], Ok (if_resolved 1000))).
Proof.
  split; [|split; [|split]].
  - apply (proj1 (get_table_schema_checks device_up (client true cache_at_1000)
                    "NO-MIB" "ifEntry" true 10) (PStr "public")).
    + reflexivity.
    + vm_compute. reflexivity.
    + reflexivity.
  - apply (proj1 (proj2 (get_table_schema_checks device_up (client true cache_at_1000)
                           "IF-MIB" "ifNothing" true 10)) (PStr "public") if_objects).
    + reflexivity.
    + vm_compute. reflexivity.
    + reflexivity.
    + reflexivity.
  - apply (proj1 (proj2 (proj2 (get_table_schema_checks device_up
                                  (client_v3 cache_at_1000) "IF-MIB" "ifEntry" true 10)))
             admin_sha1).
    + reflexivity.
    + vm_compute. reflexivity.
  - apply (proj2 (proj2 (proj2 (get_table_schema_checks (device_at 1100)
                                  (client_v3 cache_at_1000) "IF-MIB" "ifEntry" true 10)))
             (if_resolved 1000) []).
    vm_compute. reflexivity.
Defined.

Lemma run_calls_invariant_witness :
  entry_at (run_calls (client true ∅) three_calls) "IF-MIB" "ifEntry"
  = Some (entry_of 10 1361)
  /\ complete (entry_of 10 1361)
  /\ (exists c, In c three_calls /\ call_mib c = "IF-MIB" /\ call_table c = "ifEntry"
                /\ max_age (entry_of 10 1361) = Some (call_max_age c)
                /\ query_time (entry_of 10 1361) = Some (query_clock (call_world c)))
  /\ run_calls (client false ∅) three_calls = ∅.
Proof.
  assert (E : entry_at (run_calls (client true ∅) three_calls) "IF-MIB" "ifEntry"
              = Some (entry_of 10 1361)) by (vm_compute; reflexivity).
  split; [exact E|].
  split; [|split].
  - apply (proj1 (run_calls_invariant (client true ∅) three_calls eq_refl)
             "IF-MIB" "ifEntry" (entry_of 10 1361) E).
  - apply (proj1 (run_calls_invariant (client true ∅) three_calls eq_refl)
             "IF-MIB" "ifEntry" (entry_of 10 1361) E).
  - apply (proj2 (run_calls_invariant (client false ∅) three_calls eq_refl)). reflexivity.
Defined.

Lemma resolve_pass_keeps_shape_witness :
  same_but_syntax two_mibs (fst (resolve_pass two_mibs)).
Proof.
  apply (resolve_pass_keeps_shape two_mibs (fst (resolve_pass two_mibs))
           (snd (resolve_pass two_mibs))).
  vm_compute. reflexivity.
Defined.

Lemma resolve_pass_missing_import_witness :
  resolve_pass only_A = (only_A, Raise KeyError).
Proof.
  refine (proj2 (proj2 (resolve_pass_missing_import only_A "A" "x" "B" "Foo"
           (objects_of_A imports_from_B) x_object x_syntax (imports_of_A imports_from_B)
           (PList [PStr "Foo"]) _ _ _ _ _ _ _ _ _ _ _ _ _ _ _))
           [] [] [("imports", PDict (imports_of_A imports_from_B))] []
           eq_refl eq_refl eq_refl eq_refl).
  - repeat (constructor; [simpl; intuition discriminate|]); constructor.
  - repeat (constructor; [simpl; intuition discriminate|]); constructor.
  - reflexivity.
  - reflexivity.
  - reflexivity.
  - reflexivity.
  - reflexivity.
  - reflexivity.
  - reflexivity.
  - reflexivity.
  - reflexivity.
  - reflexivity.
  - reflexivity.
  - reflexivity.
  - intros k v [E|[E|[E|[]]]] Hk; injection E as <- <-;
      [left; reflexivity|left; reflexivity|congruence].
Defined.

Lemma SnmpCredV3_accepted_witness :
  SnmpCredV3_init (PStr "admin") (PStr "sha1") (PStr "secret") PNone (PInt 0)
  = inr admin_sha1.
Proof.
  apply (proj2 (SnmpCredV3_accepted (PStr "admin") (PStr "sha1") (PStr "secret") PNone
                  (PInt 0) admin_sha1)).
  split; [exists 4%nat; reflexivity|].
  split; [reflexivity|].
  split; [right; right; reflexivity|].
  split; [left; reflexivity|].
  split.
  - intros _. exists "secret". split; [reflexivity|discriminate].
  - intros H. contradiction H. reflexivity.
Defined.

Lemma SnmpCredV3_arguments_witness :
  SnmpCredV3_init (PStr "admin") (PStr "") (PStr "pw") (PInt 3) PNone
  = inr {| user := PStr "admin"; auth := None; auth_pass := Some "pw";
           priv := None; priv_pass := None |}.
Proof.
  apply (proj2 (SnmpCredV3_arguments (PStr "admin") (PStr "") (PStr "pw") (PInt 3) PNone)
           eq_refl eq_refl 4%nat eq_refl).
Defined.

Lemma SnmpCache_init_first_call_witness :
  get_table device_up new_client "IF-MIB" "ifEntry" true 10
  = (∅, ([], Raise (ValueError MibNotLoaded))).
Proof.
  apply (SnmpCache_init_first_call (PStr "public") None true 10 new_client eq_refl).
  reflexivity.
Defined.
